(** * gensenc: a reflection-driven binary codec (main.go)

    Shallow embedding of [EncodeValue], [DecodeValue], [Encode] and [Decode]
    together with the parts of the Go runtime they call: [reflect.Value]
    with its permission flags, [encoding/binary] (little endian),
    [io.ReadFull] over a [bytes.Reader], and the allocation checks of [make]
    and [reflect.Value.Grow].

    Conventions of the embedding.
    - The platform is a 64-bit one: [int] and [uint] are 64 bits wide.
    - A Go type is a finite tree ([type]); a value is an untyped payload
      ([value]) read through the accessors of [reflect.Value] at a type.
      Interface, channel, function and unsafe-pointer kinds are not
      represented.
    - Floats and complex numbers are their IEEE bit patterns: the codec only
      moves their bits.
    - A map is the list of its entries; the order in which [MapKeys] returns
      the keys is not fixed by Go and is a parameter ([mapKeys]).
    - A value is a tree: a pointer owns its pointee, and a slice or a map
      owns its storage, which no other part of the value shares. The address
      of a pointer is kept for pointer equality.
    - A slice is nil, or its elements together with the spare cells of its
      backing array between [len] and [cap].
    - The integer types are the predeclared ones ([int8] ... [uint64], [int],
      [uint]); the bool, float and complex types say whether they are named.
    - Whether the runtime grants an allocation is a parameter ([can_alloc]).
    - The reader is a [bytes.Reader], as [Decode] builds it: the list of
      bytes not yet consumed. An io.Reader that fails with an error of its
      own is not represented. *)

From Stdlib Require Import String.
From Stdlib Require Import ZArith List Bool Lia Permutation.
From Stdlib.Strings Require Import Byte.
Import ListNotations.
Local Open Scope Z_scope.

Set Implicit Arguments.
Set Warnings "-register-all".

(** ** Bytes and little-endian integers *)

Definition byte_of_Z (z : Z) : byte :=
  match Byte.of_N (Z.to_N (z mod 256)) with
  | Some b => b
  | None => x00
  end.

Definition Z_of_byte (b : byte) : Z := Z.of_N (Byte.to_N b).

(** [le_bytes n x]: the [n] low-order bytes of [x], least significant first. *)
Fixpoint le_bytes (n : nat) (x : Z) : list byte :=
  match n with
  | O => []
  | S n' => byte_of_Z x :: le_bytes n' (Z.shiftr x 8)
  end.

(** [le_value bs]: the unsigned integer whose little-endian bytes are [bs]. *)
Fixpoint le_value (bs : list byte) : Z :=
  match bs with
  | [] => 0
  | b :: bs' => Z_of_byte b + 256 * le_value bs'
  end.

(** binary.LittleEndian.PutUint64 into a fresh 8-byte buffer. *)
Definition PutUint64 (x : Z) : list byte := le_bytes 8 x.

(** binary.LittleEndian.Uint64. *)
Definition Uint64 (l : list byte) : Z := le_value (firstn 8 l).

(** Conversion to a [w]-bit unsigned and signed integer (wrap-around). *)
Definition wrap_unsigned (w : Z) (x : Z) : Z := x mod 2 ^ w.

Definition wrap_signed (w : Z) (x : Z) : Z :=
  (x + 2 ^ (w - 1)) mod 2 ^ w - 2 ^ (w - 1).

(** uint64(x), int64(x) and int(x). *)
Definition to_uint64 (x : Z) : Z := wrap_unsigned 64 x.
Definition to_int64 (x : Z) : Z := wrap_signed 64 x.
Definition to_int (x : Z) : Z := wrap_signed 64 x.

(** ** Types (reflect.Type) *)

Inductive int_kind := KInt | KInt8 | KInt16 | KInt32 | KInt64.
Inductive uint_kind := KUint | KUint8 | KUint16 | KUint32 | KUint64.

(** The kinds that reach the [default] branch of both switches, pointers
    apart. *)
Inductive other_kind :=
  KBool | KFloat32 | KFloat64 | KComplex64 | KComplex128 | KUintptr.

(** A struct field as [reflect.StructField] describes it. *)
Record field := mkField {
  fname : string;
  fexported : bool;   (* PkgPath is empty *)
  fembedded : bool    (* Anonymous *)
}.

Inductive type :=
| TString
| TStruct (fs : list (field * type))
| TSlice (elem : type)
| TArray (n : nat) (elem : type)
| TMap (key elem : type)
| TInt (k : int_kind)
| TUint (k : uint_kind)
| TPointer (elem : type)
| TOther (k : other_kind) (named : bool).

Definition int_bits (k : int_kind) : Z :=
  match k with
  | KInt => 64 | KInt8 => 8 | KInt16 => 16 | KInt32 => 32 | KInt64 => 64
  end.

Definition uint_bits (k : uint_kind) : Z :=
  match k with
  | KUint => 64 | KUint8 => 8 | KUint16 => 16 | KUint32 => 32 | KUint64 => 64
  end.

(** ** Values *)

Inductive value :=
| VString (s : list byte)
| VStruct (fields : list value)
| VSlice (elems : list value) (spare : list value)
| VArray (elems : list value)
| VMap (m : option (list (value * value)))      (* None: the nil map *)
| VInt (n : Z)
| VUint (n : Z)
| VPointer (p : option (Z * value))             (* None: nil; address, pointee *)
| VBool (b : bool)
| VBits (bits : Z)                              (* float32, float64, uintptr *)
| VComplex (re im : Z)                          (* bit patterns of both parts *)
| VNilSlice.                                    (* the nil slice *)

(** The zero value of a type. *)
Fixpoint zero (t : type) : value :=
  match t with
  | TString => VString []
  | TStruct fs =>
      VStruct ((fix zeros (fs : list (field * type)) : list value :=
                  match fs with
                  | [] => []
                  | (_, ft) :: fs' => zero ft :: zeros fs'
                  end) fs)
  | TSlice _ => VNilSlice
  | TArray n e => VArray (repeat (zero e) n)
  | TMap _ _ => VMap None
  | TInt _ => VInt 0
  | TUint _ => VUint 0
  | TPointer _ => VPointer None
  | TOther KBool _ => VBool false
  | TOther KComplex64 _ | TOther KComplex128 _ => VComplex 0 0
  | TOther _ _ => VBits 0
  end.

(** ** reflect.Value: flags and accessors *)

Record flag := mkFlag {
  flagStickyRO : bool;
  flagEmbedRO : bool;
  flagAddr : bool
}.

Definition flagRO (f : flag) : bool := flagStickyRO f || flagEmbedRO f.

(** flag.ro(): any read-only bit becomes flagStickyRO. *)
Definition ro (f : flag) : bool := flagRO f.

Record Value := mkValue {
  typ : type;
  flags : flag;
  val : value
}.

Definition CanSet (f : flag) : bool := flagAddr f && negb (flagRO f).
Definition CanInterface (f : flag) : bool := negb (flagRO f).

(** Flags of [v.Field(i)]: flagStickyRO and flagAddr are inherited,
    flagEmbedRO is not; an unexported field adds flagEmbedRO when embedded
    and flagStickyRO otherwise. *)
Definition Field_flags (f : flag) (fd : field) : flag :=
  {| flagStickyRO := flagStickyRO f || (negb (fexported fd) && negb (fembedded fd));
     flagEmbedRO := negb (fexported fd) && fembedded fd;
     flagAddr := flagAddr f |}.

(** Flags of [v.Index(i)] on a slice and on an array. *)
Definition SliceIndex_flags (f : flag) : flag :=
  {| flagStickyRO := ro f; flagEmbedRO := false; flagAddr := true |}.

Definition ArrayIndex_flags (f : flag) : flag :=
  {| flagStickyRO := ro f; flagEmbedRO := false; flagAddr := flagAddr f |}.

(** Flags of the keys of [v.MapKeys()] and of [v.MapIndex(key)], where the
    key carries the flags [MapKeys] gave it. *)
Definition MapKey_flags (f : flag) : flag :=
  {| flagStickyRO := ro f; flagEmbedRO := false; flagAddr := false |}.

Definition MapIndex_flags (f : flag) : flag :=
  {| flagStickyRO := ro f || ro (MapKey_flags f);
     flagEmbedRO := false; flagAddr := false |}.

(** Flags of [v.Elem()] on a pointer. *)
Definition Elem_flags (f : flag) : flag :=
  {| flagStickyRO := flagStickyRO f; flagEmbedRO := flagEmbedRO f;
     flagAddr := true |}.

(** Flags of [reflect.ValueOf(a)] and of [reflect.New(t)]. *)
Definition ValueOf_flags : flag :=
  {| flagStickyRO := false; flagEmbedRO := false; flagAddr := false |}.

(** Payload accessors. Each is called at the kind it belongs to; the result
    on a payload of another kind is not reachable from a well-typed Value. *)
Definition String_ (x : value) : list byte :=
  match x with VString s => s | _ => [] end.

Definition Fields (x : value) : list value :=
  match x with VStruct vs => vs | _ => [] end.

Definition Elems (x : value) : list value :=
  match x with VSlice es _ => es | VArray es => es | _ => [] end.

Definition Spare (x : value) : list value :=
  match x with VSlice _ sp => sp | _ => [] end.

Definition IsNil (x : value) : bool :=
  match x with
  | VMap None => true
  | VPointer None => true
  | VNilSlice => true
  | _ => false
  end.

Definition Entries (x : value) : list (value * value) :=
  match x with VMap (Some es) => es | _ => [] end.

(** v.Int(): the stored integer, sign-extended to int64. *)
Definition Int (k : int_kind) (x : value) : Z :=
  match x with VInt n => wrap_signed (int_bits k) n | _ => 0 end.

(** v.Uint(): the stored integer as uint64. *)
Definition Uint (k : uint_kind) (x : value) : Z :=
  match x with VUint n => wrap_unsigned (uint_bits k) n | _ => 0 end.

(** v.SetInt(x) and v.SetUint(x): the store narrows to the width of the kind. *)
Definition SetInt (k : int_kind) (x : Z) : value := VInt (wrap_signed (int_bits k) x).
Definition SetUint (k : uint_kind) (x : Z) : value := VUint (wrap_unsigned (uint_bits k) x).

(** ** Outcomes *)

Inductive error :=
| ErrCantSet            (* the package's own error *)
| EOF                   (* io.EOF *)
| ErrUnexpectedEOF      (* io.ErrUnexpectedEOF *)
| ErrBinaryWrite        (* binary.Write: some values are not fixed-sized *)
| ErrBinaryRead.        (* binary.Read: invalid type *)

Inductive panic :=
| PanicZeroValue        (* reflect: call of reflect.Value.Type on zero Value *)
| PanicNotAssignable    (* reflect: ... using unaddressable value / obtained
                           using unexported field (mustBeAssignable) *)
| PanicNotExported      (* reflect: ... obtained using unexported field *)
| PanicNegativeLen      (* reflect.Value.Grow: negative len *)
| PanicSliceOverflow    (* reflect.Value.Grow: slice overflow *)
| PanicLenOutOfRange    (* makeslice / growslice: len out of range, or the
                           runtime running out of memory *)
| PanicNilDereference.  (* runtime error: invalid memory address or nil
                           pointer dereference *)

Inductive result (A : Type) :=
| Ok (a : A)
| Err (e : error)
| Panic (p : panic).

Arguments Ok {A} a.
Arguments Err {A} e.
Arguments Panic {A} p.

Definition is_eof (e : error) : bool :=
  match e with EOF | ErrUnexpectedEOF => true | _ => false end.

(** ** io.ReadFull over a bytes.Reader *)

Definition reader := list byte.

(** [ReadFull r n] fills a buffer of [n] bytes: the bytes read, the reader
    afterwards and the error. Nothing is asked of the reader when [n] is 0;
    an exhausted reader gives io.EOF, a reader with fewer than [n] bytes
    gives all of them and io.ErrUnexpectedEOF. *)
Definition ReadFull (r : reader) (n : Z) : list byte * reader * option error :=
  if n <=? 0 then ([], r, None)
  else match r with
       | [] => ([], [], Some EOF)
       | _ =>
           if Z.of_nat (length r) <? n then (r, [], Some ErrUnexpectedEOF)
           else (firstn (Z.to_nat n) r, skipn (Z.to_nat n) r, None)
       end.

(** ** encoding/binary *)

Definition other_size (k : other_kind) : option nat :=
  match k with
  | KBool => Some 1%nat
  | KFloat32 => Some 4%nat
  | KFloat64 => Some 8%nat
  | KComplex64 => Some 8%nat
  | KComplex128 => Some 16%nat
  | KUintptr => None
  end.

(** binary.sizeof: the encoded size of a fixed-size type, [None] for -1.
    [int], [uint] and [uintptr] have no fixed size for the package. *)
Fixpoint sizeof (t : type) : option nat :=
  match t with
  | TArray n e =>
      match sizeof e with Some s => Some (s * n)%nat | None => None end
  | TStruct fs =>
      (fix sum (fs : list (field * type)) : option nat :=
         match fs with
         | [] => Some 0%nat
         | (_, ft) :: fs' =>
             match sizeof ft, sum fs' with
             | Some s, Some s' => Some (s + s')%nat
             | _, _ => None
             end
         end) fs
  | TInt KInt => None
  | TInt k => Some (Z.to_nat (int_bits k / 8))
  | TUint KUint => None
  | TUint k => Some (Z.to_nat (uint_bits k / 8))
  | TOther k _ => other_size k
  | TString | TSlice _ | TMap _ _ | TPointer _ => None
  end.

(** binary.dataSize of a valid Value. *)
Definition dataSize (t : type) (x : value) : option nat :=
  match t with
  | TSlice e =>
      match sizeof e with
      | Some s => Some (s * length (Elems x))%nat
      | None => None
      end
  | _ => sizeof t
  end.

Definition blank (fd : field) : bool := String.eqb (fname fd) "_"%string.

(** float32(v.Float()): the reflection path of the encoder widens a float32
    to a float64 and narrows it back. Every bit pattern comes back as it was
    except a signalling NaN, which comes back with its quiet bit set. *)
Definition quiet32 (b : Z) : Z :=
  if ((b / 2 ^ 23) mod 2 ^ 8 =? 2 ^ 8 - 1) && negb (b mod 2 ^ 23 =? 0)
  then Z.lor b (2 ^ 22)
  else b.

(** encoder.value: the bytes of a fixed-size value on the reflection path. A
    blank struct field is skipped, which leaves zero bytes. *)
Fixpoint binary_value (t : type) (x : value) : list byte :=
  match t with
  | TArray _ e | TSlice e =>
      (fix each (xs : list value) : list byte :=
         match xs with
         | [] => []
         | y :: xs' => binary_value e y ++ each xs'
         end) (Elems x)
  | TStruct fs =>
      (fix each (fs : list (field * type)) (xs : list value) : list byte :=
         match fs, xs with
         | (fd, ft) :: fs', y :: xs' =>
             (if blank fd
              then repeat x00 (match sizeof ft with Some s => s | None => 0%nat end)
              else binary_value ft y) ++ each fs' xs'
         | _, _ => []
         end) fs (Fields x)
  | TInt k => le_bytes (Z.to_nat (int_bits k / 8)) (Int k x)
  | TUint k => le_bytes (Z.to_nat (uint_bits k / 8)) (Uint k x)
  | TOther KBool _ =>
      match x with VBool true => [x01] | _ => [x00] end
  | TOther KFloat32 _ =>
      match x with VBits b => le_bytes 4 (quiet32 b) | _ => [] end
  | TOther KFloat64 _ => match x with VBits b => le_bytes 8 b | _ => [] end
  | TOther KComplex64 _ =>
      match x with
      | VComplex re im => le_bytes 4 (quiet32 re) ++ le_bytes 4 (quiet32 im)
      | _ => []
      end
  | TOther KComplex128 _ =>
      match x with VComplex re im => le_bytes 8 re ++ le_bytes 8 im | _ => [] end
  | _ => []
  end.

(** reflect.Indirect(reflect.ValueOf(data)): the pointee of a pointer, the
    value itself otherwise; [None] is the zero Value of a nil pointer. *)
Definition Indirect (t : type) (x : value) : option (type * value) :=
  match t with
  | TPointer e =>
      match x with
      | VPointer (Some (_, y)) => Some (e, y)
      | _ => None
      end
  | _ => Some (t, x)
  end.

(** The types the type switch of the fast path of binary.Write matches, as
    [T] and as [*T]: the predeclared bool, sized integers and floats. *)
Definition fast_path (t : type) : bool :=
  match t with
  | TInt KInt | TUint KUint => false
  | TInt _ | TUint _ => true
  | TOther KBool false | TOther KFloat32 false | TOther KFloat64 false => true
  | _ => false
  end.

(** The bytes the fast path stores: those of the value, the bits of a float32
    copied as they are (math.Float32bits). *)
Definition fast_value (t : type) (x : value) : list byte :=
  match t with
  | TOther KFloat32 _ => match x with VBits b => le_bytes 4 b | _ => [] end
  | _ => binary_value t x
  end.

(** The reflection path of binary.Write: the package's error when the data is
    a nil pointer or is not fixed-size. *)
Definition reflect_Write (t : type) (x : value) : result (list byte) :=
  match Indirect t x with
  | None => Err ErrBinaryWrite
  | Some (t', x') =>
      match dataSize t' x' with
      | None => Err ErrBinaryWrite
      | Some _ => Ok (binary_value t' x')
      end
  end.

(** binary.Write(buf, binary.LittleEndian, data): the bytes appended to the
    buffer. The fast path dereferences a [*T] without a nil check. *)
Definition binary_Write (t : type) (x : value) : result (list byte) :=
  if fast_path t then Ok (fast_value t x)
  else
    match t with
    | TPointer e =>
        if fast_path e then
          match x with
          | VPointer (Some (_, y)) => Ok (fast_value e y)
          | _ => Panic PanicNilDereference
          end
        else reflect_Write t x
    | _ => reflect_Write t x
    end.

(** binary.intDataSize on a value that is neither a pointer nor a slice: the
    type switch of the fast path matches the predeclared types only. *)
Definition intDataSize (k : other_kind) (named : bool) : Z :=
  if named then 0
  else match k with
       | KBool => 1
       | KFloat32 => 4
       | KFloat64 => 8
       | _ => 0
       end.

(** binary.Read(r, binary.LittleEndian, data) where [data] holds a value of a
    default kind, as [v.Interface()] returns it: not a pointer and not a
    slice. The fast path reads the bytes of a predeclared type and then finds
    nothing to store them in; the reflection path rejects the kind. *)
Definition binary_Read (r : reader) (k : other_kind) (named : bool)
  : reader * option error :=
  let n := intDataSize k named in
  if n =? 0 then (r, Some ErrBinaryRead)
  else match ReadFull r n with
       | (_, r', Some e) => (r', Some e)
       | (_, r', None) => (r', Some ErrBinaryRead)
       end.

(** ** Maps: key equality, lookup and assignment *)

Definition bytes_eqb (a b : list byte) : bool :=
  if list_eq_dec Byte.byte_eq_dec a b then true else false.

(** IEEE equality on the bit pattern of a float with [e] exponent bits and
    [m] mantissa bits: a NaN equals nothing, the two zeros are equal. *)
Definition float_eqb (e m : Z) (a b : Z) : bool :=
  let a := a mod 2 ^ (1 + e + m) in
  let b := b mod 2 ^ (1 + e + m) in
  let nan x := ((x / 2 ^ m) mod 2 ^ e =? 2 ^ e - 1) && negb (x mod 2 ^ m =? 0) in
  let iszero x := x mod 2 ^ (e + m) =? 0 in
  negb (nan a) && negb (nan b) && ((a =? b) || (iszero a && iszero b)).

(** The [==] of Go at a comparable type, as the map implementation uses it.
    The blank fields of a struct are not compared; pointers are compared by
    address. Slices and maps are not comparable and cannot be keys. *)
Fixpoint go_eqb (t : type) (a b : value) : bool :=
  match t with
  | TString => bytes_eqb (String_ a) (String_ b)
  | TInt k => Int k a =? Int k b
  | TUint k => Uint k a =? Uint k b
  | TArray _ e =>
      (fix each (xs ys : list value) : bool :=
         match xs, ys with
         | x :: xs', y :: ys' => go_eqb e x y && each xs' ys'
         | [], [] => true
         | _, _ => false
         end) (Elems a) (Elems b)
  | TStruct fs =>
      (fix each (fs : list (field * type)) (xs ys : list value) : bool :=
         match fs, xs, ys with
         | (fd, ft) :: fs', x :: xs', y :: ys' =>
             (blank fd || go_eqb ft x y) && each fs' xs' ys'
         | _, _, _ => true
         end) fs (Fields a) (Fields b)
  | TPointer _ =>
      match a, b with
      | VPointer None, VPointer None => true
      | VPointer (Some (p, _)), VPointer (Some (q, _)) => p =? q
      | _, _ => false
      end
  | TOther KBool _ =>
      match a, b with VBool x, VBool y => Bool.eqb x y | _, _ => false end
  | TOther KFloat32 _ =>
      match a, b with VBits x, VBits y => float_eqb 8 23 x y | _, _ => false end
  | TOther KFloat64 _ =>
      match a, b with VBits x, VBits y => float_eqb 11 52 x y | _, _ => false end
  | TOther KComplex64 _ =>
      match a, b with
      | VComplex x x', VComplex y y' => float_eqb 8 23 x y && float_eqb 8 23 x' y'
      | _, _ => false
      end
  | TOther KComplex128 _ =>
      match a, b with
      | VComplex x x', VComplex y y' => float_eqb 11 52 x y && float_eqb 11 52 x' y'
      | _, _ => false
      end
  | TOther KUintptr _ =>
      match a, b with VBits x, VBits y => x mod 2 ^ 64 =? y mod 2 ^ 64 | _, _ => false end
  | TSlice _ | TMap _ _ => false
  end.

(** v.MapIndex(key): the element stored under [key], [None] for the zero
    Value returned when the key is absent. *)
Fixpoint MapIndex (kt : type) (es : list (value * value)) (key : value)
  : option value :=
  match es with
  | [] => None
  | (k, e) :: es' => if go_eqb kt k key then Some e else MapIndex kt es' key
  end.

(** v.SetMapIndex(key, elem) on the entries: an equal key is overwritten,
    a new key is added. *)
Fixpoint SetMapIndex (kt : type) (es : list (value * value)) (key elem : value)
  : list (value * value) :=
  match es with
  | [] => [(key, elem)]
  | (k, e) :: es' =>
      if go_eqb kt k key then (key, elem) :: es'
      else (k, e) :: SetMapIndex kt es' key elem
  end.

(** ** The encoder *)

Notation "'do' b <- m ; k" :=
  (match m with
   | Ok b => k
   | Err e => Err e
   | Panic p => Panic p
   end) (at level 10, b name, m at level 100, k at level 200, only parsing).

Section Encoder.

(** The order in which [v.MapKeys()] lists the keys of a map whose entries
    are stored in the given order. *)
Variable mapKeys : list value -> list value.

(** EncodeValue at the type, flags and payload of its argument. [buf] is
    threaded through the loops as the source appends to it. *)
Fixpoint encodeValue (t : type) (f : flag) (x : value) {struct t}
  : result (list byte) :=
  match t with
  | TString =>
      let val := String_ x in
      Ok (PutUint64 (to_uint64 (Z.of_nat (length val))) ++ val)
  | TStruct fs =>
      (fix fields (fs : list (field * type)) (xs : list value) (buf : list byte)
         : result (list byte) :=
         match fs, xs with
         | (fd, ft) :: fs', y :: xs' =>
             if negb (CanInterface (Field_flags f fd)) then fields fs' xs' buf
             else
               do b <- encodeValue ft (Field_flags f fd) y;
               fields fs' xs' (buf ++ b)
         | _, _ => Ok buf
         end) fs (Fields x) []
  | TSlice e =>
      (fix elems (xs : list value) (buf : list byte) : result (list byte) :=
         match xs with
         | [] => Ok buf
         | y :: xs' =>
             do b <- encodeValue e (SliceIndex_flags f) y;
             elems xs' (buf ++ b)
         end) (Elems x) (PutUint64 (to_uint64 (Z.of_nat (length (Elems x)))))
  | TArray _ e =>
      (fix elems (xs : list value) (buf : list byte) : result (list byte) :=
         match xs with
         | [] => Ok buf
         | y :: xs' =>
             do b <- encodeValue e (ArrayIndex_flags f) y;
             elems xs' (buf ++ b)
         end) (Elems x) []
  | TMap kt et =>
      (fix pairs (keys : list value) (buf : list byte) : result (list byte) :=
         match keys with
         | [] => Ok buf
         | key :: keys' =>
             do b <- encodeValue kt (MapKey_flags f) key;
             match MapIndex kt (Entries x) key with
             | None => Panic PanicZeroValue
             | Some y =>
                 do b' <- encodeValue et (MapIndex_flags f) y;
                 pairs keys' ((buf ++ b) ++ b')
             end
         end) (mapKeys (map fst (Entries x)))
              (PutUint64 (to_uint64 (Z.of_nat (length (Entries x)))))
  | TInt k => Ok (PutUint64 (to_uint64 (Int k x)))
  | TUint k => Ok (PutUint64 (Uint k x))
  | TPointer _ | TOther _ _ =>
      if CanInterface f then binary_Write t x else Ok []
  end.

(** EncodeValue: [None] is the zero reflect.Value, on which [v.Type()]
    panics. *)
Definition EncodeValue (v : option Value) : result (list byte) :=
  match v with
  | None => Panic PanicZeroValue
  | Some v => encodeValue (typ v) (flags v) (val v)
  end.

(** A value of type [any]: nil, or a value with its dynamic type. *)
Definition any := option (type * value).

Definition ValueOf (a : any) : option Value :=
  match a with
  | None => None
  | Some (t, x) => Some {| typ := t; flags := ValueOf_flags; val := x |}
  end.

Definition Encode (a : any) : result (list byte) := EncodeValue (ValueOf a).

End Encoder.

(** ** The decoder *)

Section Decoder.

(** [can_alloc t n]: the runtime grants a backing array of [n] elements of
    type [t] (neither "len out of range" nor out of memory). *)
Variable can_alloc : type -> Z -> bool.

(** What a decoding step leaves: the target afterwards, the reader
    afterwards, and the outcome. *)
Definition decoded := (value * reader * result unit)%type.

(** make([]byte, length) for a uint64 [length]. *)
Definition make_bytes_ok (length : Z) : bool :=
  (length <? 2 ^ 63) && can_alloc (TUint KUint8) length.

(** Flags of [reflect.New(t).Elem()]. *)
Definition New_Elem_flags : flag := Elem_flags ValueOf_flags.

(** The slice after its cells are set: a nil slice that was given no backing
    array is still nil. *)
Definition with_cells (x : value) (es sp : list value) : value :=
  match x, es, sp with
  | VNilSlice, [], [] => VNilSlice
  | _, _, _ => VSlice es sp
  end.

(** The cells of a slice after [v.Grow(n)], or the panic it raises. [es] are
    the elements (already cleared), [sp] the spare cells. *)
Definition Grow (e : type) (f : flag) (es sp : list value) (n : Z)
  : result (list value) :=
  if negb (CanSet f) then Panic PanicNotAssignable
  else if n <? 0 then Panic PanicNegativeLen
  else
    let len := Z.of_nat (length es) in
    let cap := len + Z.of_nat (length sp) in
    if 2 ^ 63 <=? len + n then Panic PanicSliceOverflow
    else if cap <? len + n then
      if can_alloc e (len + n)
      then Ok (es ++ sp ++ repeat (zero e) (Z.to_nat (len + n - cap)))
      else Panic PanicLenOutOfRange
    else Ok (es ++ sp).

(** DecodeValue at the type, flags and payload of its target. *)
Fixpoint decodeValue (t : type) (f : flag) (x : value) (r : reader) {struct t}
  : decoded :=
  match t with
  | TString =>
      if negb (CanSet f) then (x, r, Err ErrCantSet)
      else
        match ReadFull r 8 with
        | (_, r1, Some e) => (x, r1, Err e)
        | (l, r1, None) =>
            let length := Uint64 l in
            if negb (make_bytes_ok length) then (x, r1, Panic PanicLenOutOfRange)
            else
              match ReadFull r1 length with
              | (_, r2, Some e) => (x, r2, Err e)
              | (b, r2, None) => (VString b, r2, Ok tt)
              end
        end
  | TStruct fs =>
      let '(xs', r', res) :=
        (fix fields (fs : list (field * type)) (xs : list value) (r : reader)
           : list value * reader * result unit :=
           match fs, xs with
           | (fd, ft) :: fs', y :: xs' =>
               if negb (CanInterface (Field_flags f fd)) then
                 let '(ys, r', res) := fields fs' xs' r in (y :: ys, r', res)
               else
                 match decodeValue ft (Field_flags f fd) y r with
                 | (y', r1, Ok _) =>
                     let '(ys, r', res) := fields fs' xs' r1 in (y' :: ys, r', res)
                 | (y', r1, res) => (y' :: xs', r1, res)
                 end
           | _, _ => (xs, r, Ok tt)
           end) fs (Fields x) r in
      (VStruct xs', r', res)
  | TSlice e =>
      match ReadFull r 8 with
      | (_, r1, Some err) => (x, r1, Err err)
      | (l, r1, None) =>
          let length := Uint64 l in
          let cleared := map (fun _ => zero e) (Elems x) in
          match Grow e f cleared (Spare x) (to_int length) with
          | Err err => (with_cells x cleared (Spare x), r1, Err err)
          | Panic p => (with_cells x cleared (Spare x), r1, Panic p)
          | Ok cells =>
              let n := Z.to_nat (to_int length) in
              let '(ys, r', res) :=
                (fix elems (xs : list value) (r : reader)
                   : list value * reader * result unit :=
                   match xs with
                   | [] => ([], r, Ok tt)
                   | y :: xs' =>
                       match decodeValue e (SliceIndex_flags f) y r with
                       | (y', r1, Ok _) =>
                           let '(ys, r', res) := elems xs' r1 in (y' :: ys, r', res)
                       | (y', r1, res) => (y' :: xs', r1, res)
                       end
                   end) (firstn n cells) r1 in
              (with_cells x ys (skipn n cells), r', res)
          end
      end
  | TArray _ e =>
      let '(ys, r', res) :=
        (fix elems (xs : list value) (r : reader)
           : list value * reader * result unit :=
           match xs with
           | [] => ([], r, Ok tt)
           | y :: xs' =>
               match decodeValue e (ArrayIndex_flags f) y r with
               | (y', r1, Ok _) =>
                   let '(ys, r', res) := elems xs' r1 in (y' :: ys, r', res)
               | (y', r1, res) => (y' :: xs', r1, res)
               end
           end) (Elems x) r in
      (VArray ys, r', res)
  | TMap kt et =>
      match ReadFull r 8 with
      | (_, r1, Some err) => (x, r1, Err err)
      | (l, r1, None) =>
          let length := Uint64 l in
          if IsNil x && negb (CanSet f) then (x, r1, Panic PanicNotAssignable)
          else
            let '(es, r', res) :=
              (fix pairs (n : nat) (es : list (value * value)) (r : reader)
                 : list (value * value) * reader * result unit :=
                 match n with
                 | O => (es, r, Ok tt)
                 | S n' =>
                     match decodeValue kt New_Elem_flags (zero kt) r with
                     | (key, r1, Ok _) =>
                         match decodeValue et New_Elem_flags (zero et) r1 with
                         | (value, r2, Ok _) =>
                             if ro f then (es, r2, Panic PanicNotExported)
                             else pairs n' (SetMapIndex kt es key value) r2
                         | (_, r2, res) => (es, r2, res)
                         end
                     | (_, r1, res) => (es, r1, res)
                     end
                 end) (Z.to_nat length) [] r1 in
            (VMap (Some es), r', res)
      end
  | TInt k =>
      if negb (CanSet f) then (x, r, Err ErrCantSet)
      else
        match ReadFull r 8 with
        | (_, r1, Some err) => (x, r1, Err err)
        | (l, r1, None) => (SetInt k (to_int64 (Uint64 l)), r1, Ok tt)
        end
  | TUint k =>
      if negb (CanSet f) then (x, r, Err ErrCantSet)
      else
        match ReadFull r 8 with
        | (_, r1, Some err) => (x, r1, Err err)
        | (l, r1, None) => (SetUint k (Uint64 l), r1, Ok tt)
        end
  | TPointer e =>
      match x with
      | VPointer (Some (a, y)) =>
          let '(y', r', res) := decodeValue e (Elem_flags f) y r in
          (VPointer (Some (a, y')), r', res)
      | _ => (x, r, Panic PanicZeroValue)
      end
  | TOther k named =>
      if negb (CanSet f) then (x, r, Err ErrCantSet)
      else if CanInterface f then
        (* inter := v.Interface() is a copy of the target *)
        let inter := x in
        match binary_Read r k named with
        | (r', Some err) => (x, r', Err err)
        | (r', None) => (inter, r', Ok tt)
        end
      else (x, r, Ok tt)
  end.

(** DecodeValue: the target after the call, the reader after the call and
    the outcome. [None] is the zero reflect.Value. *)
Definition DecodeValue (r : reader) (v : option Value)
  : option Value * reader * result unit :=
  match v with
  | None => (None, r, Panic PanicZeroValue)
  | Some v =>
      let '(x', r', res) := decodeValue (typ v) (flags v) (val v) r in
      (Some {| typ := typ v; flags := flags v; val := x' |}, r', res)
  end.

(** Decode: the outcome, and [a] as the call leaves it. *)
Definition Decode (b : list byte) (a : any) : any * result unit :=
  let v := ValueOf a in
  let r : reader := b in
  match DecodeValue r v with
  | (Some v', _, res) => (Some (typ v', val v'), res)
  | (None, _, res) => (None, res)
  end.

End Decoder.

(** ** The loops of the two procedures, by name

    Each loop of [encodeValue] and [decodeValue] is restated as a function of
    its own, so that lemmas can be stated about it; the [_eq] lemmas below
    show that the procedures run exactly these loops. *)

Section Loops.

Variable mapKeys : list value -> list value.
Variable can_alloc : type -> Z -> bool.

Fixpoint encode_fields (f : flag) (fs : list (field * type)) (xs : list value)
    (buf : list byte) : result (list byte) :=
  match fs, xs with
  | (fd, ft) :: fs', y :: xs' =>
      if negb (CanInterface (Field_flags f fd)) then encode_fields f fs' xs' buf
      else
        do b <- encodeValue mapKeys ft (Field_flags f fd) y;
        encode_fields f fs' xs' (buf ++ b)
  | _, _ => Ok buf
  end.

Fixpoint encode_elems (e : type) (f : flag) (xs : list value) (buf : list byte)
  : result (list byte) :=
  match xs with
  | [] => Ok buf
  | y :: xs' =>
      do b <- encodeValue mapKeys e f y;
      encode_elems e f xs' (buf ++ b)
  end.

Fixpoint encode_pairs (kt et : type) (f : flag) (es : list (value * value))
    (keys : list value) (buf : list byte) : result (list byte) :=
  match keys with
  | [] => Ok buf
  | key :: keys' =>
      do b <- encodeValue mapKeys kt (MapKey_flags f) key;
      match MapIndex kt es key with
      | None => Panic PanicZeroValue
      | Some y =>
          do b' <- encodeValue mapKeys et (MapIndex_flags f) y;
          encode_pairs kt et f es keys' ((buf ++ b) ++ b')
      end
  end.

Fixpoint decode_fields (f : flag) (fs : list (field * type)) (xs : list value)
    (r : reader) : list value * reader * result unit :=
  match fs, xs with
  | (fd, ft) :: fs', y :: xs' =>
      if negb (CanInterface (Field_flags f fd)) then
        let '(ys, r', res) := decode_fields f fs' xs' r in (y :: ys, r', res)
      else
        match decodeValue can_alloc ft (Field_flags f fd) y r with
        | (y', r1, Ok _) =>
            let '(ys, r', res) := decode_fields f fs' xs' r1 in (y' :: ys, r', res)
        | (y', r1, res) => (y' :: xs', r1, res)
        end
  | _, _ => (xs, r, Ok tt)
  end.

Fixpoint decode_elems (e : type) (f : flag) (xs : list value) (r : reader)
  : list value * reader * result unit :=
  match xs with
  | [] => ([], r, Ok tt)
  | y :: xs' =>
      match decodeValue can_alloc e f y r with
      | (y', r1, Ok _) =>
          let '(ys, r', res) := decode_elems e f xs' r1 in (y' :: ys, r', res)
      | (y', r1, res) => (y' :: xs', r1, res)
      end
  end.

Fixpoint decode_pairs (kt et : type) (f : flag) (n : nat)
    (es : list (value * value)) (r : reader)
  : list (value * value) * reader * result unit :=
  match n with
  | O => (es, r, Ok tt)
  | S n' =>
      match decodeValue can_alloc kt New_Elem_flags (zero kt) r with
      | (key, r1, Ok _) =>
          match decodeValue can_alloc et New_Elem_flags (zero et) r1 with
          | (value, r2, Ok _) =>
              if ro f then (es, r2, Panic PanicNotExported)
              else decode_pairs kt et f n' (SetMapIndex kt es key value) r2
          | (_, r2, res) => (es, r2, res)
          end
      | (_, r1, res) => (es, r1, res)
      end
  end.

End Loops.

(** ** Predicates and functions used in the statements *)

(** The shapes whose decoding starts with the settability check. *)
Definition string_or_integer (t : type) : bool :=
  match t with
  | TString | TInt _ | TUint _ => true
  | _ => false
  end.

(** A field the traversal may read and write: [v.Field(i).CanInterface()]. *)
Definition introspectable (f : flag) (fd : field) : bool :=
  CanInterface (Field_flags f fd).

(** The fields of a struct, with their values, that are introspectable and
    those that are not, in declaration order. *)
Definition visible (f : flag) (fs : list (field * type)) (xs : list value)
  : list (field * type * value) :=
  filter (fun p => introspectable f (fst (fst p))) (combine fs xs).

Definition hidden (f : flag) (fs : list (field * type)) (xs : list value)
  : list (field * type * value) :=
  filter (fun p => negb (introspectable f (fst (fst p)))) (combine fs xs).

(** Concatenation of the buffers of a sequence of encodings, up to the first
    one that fails. *)
Fixpoint concat_results (rs : list (result (list byte))) : result (list byte) :=
  match rs with
  | [] => Ok []
  | r :: rs' =>
      do b <- r;
      do bs <- concat_results rs';
      Ok (b ++ bs)
  end.

(** A value with no mapping in what the encoder traverses: fields, and
    elements of slices and arrays. The encoder does not follow pointers, so
    what a pointer refers to is not constrained. *)
Fixpoint no_mapping (t : type) (x : value) : bool :=
  match t with
  | TMap _ _ => false
  | TStruct fs =>
      (fix each (fs : list (field * type)) (xs : list value) : bool :=
         match fs, xs with
         | (_, ft) :: fs', y :: xs' => no_mapping ft y && each fs' xs'
         | _, _ => true
         end) fs (Fields x)
  | TSlice e | TArray _ e => forallb (no_mapping e) (Elems x)
  | _ => true
  end.

(** Comparable types: the ones Go accepts as map keys. *)
Fixpoint comparable (t : type) : bool :=
  match t with
  | TSlice _ | TMap _ _ => false
  | TArray _ e => comparable e
  | TStruct fs =>
      (fix each (fs : list (field * type)) : bool :=
         match fs with
         | [] => true
         | (_, ft) :: fs' => comparable ft && each fs'
         end) fs
  | _ => true
  end.

(** Types built exclusively from the string, signed-integer,
    unsigned-integer, struct, slice, array and map kinds, the keys of maps
    being comparable as Go requires. *)
Fixpoint handled_kinds (t : type) : bool :=
  match t with
  | TString | TInt _ | TUint _ => true
  | TStruct fs =>
      (fix each (fs : list (field * type)) : bool :=
         match fs with
         | [] => true
         | (_, ft) :: fs' => handled_kinds ft && each fs'
         end) fs
  | TSlice e | TArray _ e => handled_kinds e
  | TMap kt et => handled_kinds kt && comparable kt && handled_kinds et
  | TPointer _ | TOther _ _ => false
  end.

(** [MapKeys] lists the keys of the map, each once, in some order. *)
Definition lists_the_keys (mapKeys : list value -> list value) : Prop :=
  forall ks, Permutation (mapKeys ks) ks.

(** ** Well-typed values and the round trip *)

(** The keys of a map are pairwise different for [==]. *)
Definition distinct_keys (kt : type) (ks : list value) : Prop :=
  ForallOrdPairs (fun a b => go_eqb kt a b = false) ks.

(** [has_type t x]: the payload [x] is a value of the Go type [t]. Lengths
    are those of objects that exist in memory, below 2^63. *)
Inductive has_type : type -> value -> Prop :=
| T_String s :
    Z.of_nat (length s) < 2 ^ 63 -> has_type TString (VString s)
| T_Struct fs xs :
    Forall2 (fun p x => has_type (snd p) x) fs xs ->
    has_type (TStruct fs) (VStruct xs)
| T_Slice e es sp :
    Forall (has_type e) es -> Forall (has_type e) sp ->
    Z.of_nat (length es + length sp) < 2 ^ 63 ->
    has_type (TSlice e) (VSlice es sp)
| T_Array n e es :
    length es = n -> Forall (has_type e) es -> has_type (TArray n e) (VArray es)
| T_MapNil kt et : has_type (TMap kt et) (VMap None)
| T_Map kt et es :
    Forall (fun p => has_type kt (fst p) /\ has_type et (snd p)) es ->
    distinct_keys kt (map fst es) ->
    Z.of_nat (length es) < 2 ^ 63 ->
    has_type (TMap kt et) (VMap (Some es))
| T_Int k n :
    - 2 ^ (int_bits k - 1) <= n < 2 ^ (int_bits k - 1) -> has_type (TInt k) (VInt n)
| T_Uint k n :
    0 <= n < 2 ^ uint_bits k -> has_type (TUint k) (VUint n)
| T_PointerNil e : has_type (TPointer e) (VPointer None)
| T_Pointer e a y : has_type e y -> has_type (TPointer e) (VPointer (Some (a, y)))
| T_Bool named b : has_type (TOther KBool named) (VBool b)
| T_Float32 named bits :
    0 <= bits < 2 ^ 32 -> has_type (TOther KFloat32 named) (VBits bits)
| T_Float64 named bits :
    0 <= bits < 2 ^ 64 -> has_type (TOther KFloat64 named) (VBits bits)
| T_Complex64 named re im :
    0 <= re < 2 ^ 32 -> 0 <= im < 2 ^ 32 ->
    has_type (TOther KComplex64 named) (VComplex re im)
| T_Complex128 named re im :
    0 <= re < 2 ^ 64 -> 0 <= im < 2 ^ 64 ->
    has_type (TOther KComplex128 named) (VComplex re im)
| T_Uintptr named bits :
    0 <= bits < 2 ^ 64 -> has_type (TOther KUintptr named) (VBits bits)
| T_NilSlice e : has_type (TSlice e) VNilSlice.

(** The runtime grants the allocations that rebuilding [x] in a fresh target
    asks for: the bytes of every string and the cells of every non-empty
    slice the traversal reaches. *)
Fixpoint allocatable (can_alloc : type -> Z -> bool) (t : type) (x : value)
  : bool :=
  match t with
  | TString => can_alloc (TUint KUint8) (Z.of_nat (length (String_ x)))
  | TStruct fs =>
      (fix each (fs : list (field * type)) (xs : list value) : bool :=
         match fs, xs with
         | (fd, ft) :: fs', y :: xs' =>
             (negb (fexported fd) || allocatable can_alloc ft y) && each fs' xs'
         | _, _ => true
         end) fs (Fields x)
  | TSlice e =>
      ((length (Elems x) =? 0)%nat
       || can_alloc e (Z.of_nat (length (Elems x))))
      && forallb (allocatable can_alloc e) (Elems x)
  | TArray _ e => forallb (allocatable can_alloc e) (Elems x)
  | TMap kt et =>
      forallb (fun p => allocatable can_alloc kt (fst p)
                        && allocatable can_alloc et (snd p)) (Entries x)
  | _ => true
  end.

(** Key types whose values the codec carries whole: strings, integers, and
    arrays and structs of those with every field exported and named. *)
Fixpoint plain_key (t : type) : bool :=
  match t with
  | TString | TInt _ | TUint _ => true
  | TArray _ e => plain_key e
  | TStruct fs =>
      (fix each (fs : list (field * type)) : bool :=
         match fs with
         | [] => true
         | (fd, ft) :: fs' =>
             fexported fd && negb (blank fd) && plain_key ft && each fs'
         end) fs
  | _ => false
  end.

(** The shapes of the round trip: strings, integers, structs (an unexported
    field may be of any type), slices, arrays, and maps with plain keys. *)
Fixpoint round_trip_shape (t : type) : bool :=
  match t with
  | TString | TInt _ | TUint _ => true
  | TStruct fs =>
      (fix each (fs : list (field * type)) : bool :=
         match fs with
         | [] => true
         | (fd, ft) :: fs' =>
             (negb (fexported fd) || round_trip_shape ft) && each fs'
         end) fs
  | TSlice e | TArray _ e => round_trip_shape e
  | TMap kt et => plain_key kt && round_trip_shape et
  | TPointer _ | TOther _ _ => false
  end.

(** [same_fields t x y]: [x] and [y] are equal field for field, the
    unexported fields of structs left out of the comparison. Slices are
    compared by their elements (a nil slice and an empty one hold the same
    elements, whatever their capacity), maps as sets of entries (a nil map
    and an empty one hold the same entries). *)
Inductive same_fields : type -> value -> value -> Prop :=
| S_String s : same_fields TString (VString s) (VString s)
| S_Int k n : same_fields (TInt k) (VInt n) (VInt n)
| S_Uint k n : same_fields (TUint k) (VUint n) (VUint n)
| S_Other k named x : same_fields (TOther k named) x x
| S_Struct fs xs ys :
    Forall2 (fun p y => fexported (fst (fst p)) = true ->
                        same_fields (snd (fst p)) (snd p) y)
            (combine fs xs) ys ->
    same_fields (TStruct fs) (VStruct xs) (VStruct ys)
| S_Slice e xs sp ys sp' :
    Forall2 (same_fields e) xs ys ->
    same_fields (TSlice e) (VSlice xs sp) (VSlice ys sp')
| S_Array n e xs ys :
    Forall2 (same_fields e) xs ys ->
    same_fields (TArray n e) (VArray xs) (VArray ys)
| S_Map kt et m m' es :
    Permutation (Entries (VMap m)) es ->
    Forall2 (fun p q => fst p = fst q /\ same_fields et (snd p) (snd q))
            es (Entries (VMap m')) ->
    same_fields (TMap kt et) (VMap m) (VMap m')
| S_PointerNil e : same_fields (TPointer e) (VPointer None) (VPointer None)
| S_Pointer e a x b y :
    same_fields e x y ->
    same_fields (TPointer e) (VPointer (Some (a, x))) (VPointer (Some (b, y)))
| S_NilSlice e : same_fields (TSlice e) VNilSlice VNilSlice
| S_NilEmpty e sp : same_fields (TSlice e) VNilSlice (VSlice [] sp)
| S_EmptyNil e sp : same_fields (TSlice e) (VSlice [] sp) VNilSlice.

(** The round trip at a type: every well-typed, allocatable value of the
    type, read with accessible flags, is encoded to bytes from which the
    decoder rebuilds it, field for field, in a zeroed settable target,
    consuming exactly those bytes. *)
Definition round_trips (mapKeys : list value -> list value)
    (can_alloc : type -> Z -> bool) (t : type) : Prop :=
  forall x fe fd,
    has_type t x -> allocatable can_alloc t x = true ->
    CanInterface fe = true -> CanSet fd = true ->
    exists b y,
      encodeValue mapKeys t fe x = Ok b
      /\ (forall rest,
             decodeValue can_alloc t fd (zero t) (b ++ rest) = (y, rest, Ok tt))
      /\ same_fields t x y.

(** The kinds whose case in DecodeValue starts with the settability check:
    strings, integers and the default kinds. *)
Definition checks_settable_first (t : type) : bool :=
  match t with
  | TString | TInt _ | TUint _ | TOther _ _ => true
  | _ => false
  end.

(** The number of bytes every value of a type is encoded to, for the types
    that have one: integers, and arrays and structs of such types. An
    unexported field takes no byte, whatever its type. *)
Fixpoint fixed_width (t : type) : option nat :=
  match t with
  | TInt _ | TUint _ => Some 8%nat
  | TArray n e =>
      match fixed_width e with
      | Some w => Some (n * w)%nat
      | None => None
      end
  | TStruct fs =>
      (fix sum (fs : list (field * type)) : option nat :=
         match fs with
         | [] => Some 0%nat
         | (fd, ft) :: fs' =>
             match (if fexported fd then fixed_width ft else Some 0%nat), sum fs' with
             | Some w, Some w' => Some (w + w')%nat
             | _, _ => None
             end
         end) fs
  | _ => None
  end.

(** ** Decoding into a target that already holds a value *)

Fixpoint forallb2 (A B : Type) (p : A -> B -> bool) (xs : list A) (ys : list B)
  : bool :=
  match xs, ys with
  | x :: xs', y :: ys' => p x y && forallb2 p xs' ys'
  | _, _ => true
  end.

(** The cells [v.Index(0)] ... [v.Index(n-1)] of a slice target after
    [Clear], [Grow(n)] and [SetLen(n)]: its old elements zeroed, then its
    spare cells as they were, then fresh zeroed cells. *)
Definition cells_after_SetLen (e : type) (y0 : value) (n : nat) : list value :=
  let len0 := length (Elems y0) in
  let cap0 := (len0 + length (Spare y0))%nat in
  firstn n (repeat (zero e) len0 ++ Spare y0
            ++ repeat (zero e) (len0 + n - cap0)).

(** The runtime grants the allocations that rebuilding [x] in the target
    [y0] asks for. A slice target of length [len0] is grown to hold
    [len0 + n] cells, which must stay below 2^63 and be granted when the
    capacity is smaller; the holders of map keys and elements are fresh. *)
Fixpoint allocatable_into (can_alloc : type -> Z -> bool) (t : type)
    (x y0 : value) : bool :=
  match t with
  | TString => can_alloc (TUint KUint8) (Z.of_nat (length (String_ x)))
  | TStruct fs =>
      (fix each (fs : list (field * type)) (xs ys : list value) : bool :=
         match fs, xs, ys with
         | (fd, ft) :: fs', x' :: xs', y' :: ys' =>
             (negb (fexported fd) || allocatable_into can_alloc ft x' y')
             && each fs' xs' ys'
         | _, _, _ => true
         end) fs (Fields x) (Fields y0)
  | TSlice e =>
      let n := length (Elems x) in
      let len0 := length (Elems y0) in
      let cap0 := (len0 + length (Spare y0))%nat in
      (Z.of_nat (len0 + n) <? 2 ^ 63)
      && ((len0 + n <=? cap0)%nat || can_alloc e (Z.of_nat (len0 + n)))
      && forallb2 (allocatable_into can_alloc e) (Elems x)
           (cells_after_SetLen e y0 n)
  | TArray _ e => forallb2 (allocatable_into can_alloc e) (Elems x) (Elems y0)
  | TMap kt et => allocatable can_alloc (TMap kt et) x
  | _ => true
  end.

(** The round trip at a type into any well-typed settable target. *)
Definition round_trips_into (mapKeys : list value -> list value)
    (can_alloc : type -> Z -> bool) (t : type) : Prop :=
  forall x y0 fe fd,
    has_type t x -> has_type t y0 ->
    allocatable_into can_alloc t x y0 = true ->
    CanInterface fe = true -> CanSet fd = true ->
    exists b y,
      encodeValue mapKeys t fe x = Ok b
      /\ (forall rest,
             decodeValue can_alloc t fd y0 (b ++ rest) = (y, rest, Ok tt))
      /\ same_fields t x y.

(** ** What the decoder leaves in a fresh target *)

(** [unexported_zero t y]: every unexported field of a struct the traversal
    reaches in [y] holds the zero value of its type. *)
Fixpoint unexported_zero (t : type) (y : value) : Prop :=
  match t with
  | TStruct fs =>
      (fix each (fs : list (field * type)) (ys : list value) : Prop :=
         match fs, ys with
         | (fd, ft) :: fs', y' :: ys' =>
             (if fexported fd then unexported_zero ft y' else y' = zero ft)
             /\ each fs' ys'
         | _, _ => True
         end) fs (Fields y)
  | TSlice e | TArray _ e => Forall (unexported_zero e) (Elems y)
  | TMap kt et =>
      Forall (fun p => unexported_zero kt (fst p) /\ unexported_zero et (snd p))
             (Entries y)
  | _ => True
  end.

(** The decoder run on a sequence of fields one after the other, each with
    the flags [v.Field(i)] gives it, as far as the first failure: the values
    the fields hold afterwards, the reader and the outcome. *)
Fixpoint decode_in_order (can_alloc : type -> Z -> bool) (f : flag)
    (ps : list (field * type * value)) (r : reader)
  : list value * reader * result unit :=
  match ps with
  | [] => ([], r, Ok tt)
  | (fd, ft, x) :: ps' =>
      match decodeValue can_alloc ft (Field_flags f fd) x r with
      | (x', r1, Ok _) =>
          let '(xs', r', res) := decode_in_order can_alloc f ps' r1 in
          (x' :: xs', r', res)
      | (x', r1, res) => (x' :: map snd ps', r1, res)
      end
  end.

(** A target that refers to no storage: every slice the decoder reaches in
    it is without cells (nil, or empty with no capacity) and every map is
    nil; strings, integers, array elements and unexported fields hold
    anything. No two parts of such a target can share storage. *)
Fixpoint without_storage (t : type) (y : value) : bool :=
  match t with
  | TStruct fs =>
      (fix each (fs : list (field * type)) (ys : list value) : bool :=
         match fs, ys with
         | (fd, ft) :: fs', y' :: ys' =>
             (negb (fexported fd) || without_storage ft y') && each fs' ys'
         | _, _ => true
         end) fs (Fields y)
  | TSlice _ => (length (Elems y) =? 0)%nat && (length (Spare y) =? 0)%nat
  | TArray _ e => forallb (without_storage e) (Elems y)
  | TMap _ _ => IsNil y
  | _ => true
  end.

(** * Properties *)

(** ** Little-endian bytes *)

Lemma Z_of_byte_of_Z (z : Z) : Z_of_byte (byte_of_Z z) = z mod 256.
Proof.
  unfold Z_of_byte, byte_of_Z.
  assert (Hr : 0 <= z mod 256 < 256) by (apply Z.mod_pos_bound; lia).
  destruct (Byte.of_N (Z.to_N (z mod 256))) as [b|] eqn:E.
  - apply Byte.to_of_N in E. rewrite E. rewrite Z2N.id; lia.
  - apply Byte.of_N_None_iff in E. lia.
Qed.

Lemma Z_of_byte_range (b : byte) : 0 <= Z_of_byte b < 256.
Proof.
  unfold Z_of_byte. pose proof (Byte.to_N_bounded b). lia.
Qed.

Lemma byte_of_Z_of_byte (b : byte) : byte_of_Z (Z_of_byte b) = b.
Proof.
  unfold byte_of_Z. rewrite Z.mod_small by apply Z_of_byte_range.
  unfold Z_of_byte. rewrite N2Z.id, Byte.of_to_N. reflexivity.
Qed.

Lemma length_le_bytes (n : nat) (x : Z) : length (le_bytes n x) = n.
Proof.
  revert x. induction n as [|n IH]; intros x; simpl; [reflexivity|].
  now rewrite IH.
Qed.

Lemma le_value_le_bytes (n : nat) (x : Z) :
  le_value (le_bytes n x) = x mod 2 ^ (8 * Z.of_nat n).
Proof.
  revert x. induction n as [|n IH]; intros x.
  - simpl. now rewrite Z.mod_1_r.
  - cbn [le_bytes le_value]. rewrite IH, Z_of_byte_of_Z, Z.shiftr_div_pow2 by lia.
    replace (8 * Z.of_nat (S n)) with (8 + 8 * Z.of_nat n) by lia.
    rewrite Z.pow_add_r by lia.
    change (2 ^ 8) with 256.
    rewrite Z.rem_mul_r by lia. reflexivity.
Qed.

Lemma le_value_range (bs : list byte) :
  0 <= le_value bs < 2 ^ (8 * Z.of_nat (length bs)).
Proof.
  induction bs as [|b bs IH].
  - simpl. lia.
  - cbn [le_value length]. pose proof (Z_of_byte_range b).
    replace (8 * Z.of_nat (S (length bs))) with (8 + 8 * Z.of_nat (length bs)) by lia.
    rewrite Z.pow_add_r by lia. change (2 ^ 8) with 256. nia.
Qed.

Lemma le_bytes_le_value (bs : list byte) :
  le_bytes (length bs) (le_value bs) = bs.
Proof.
  induction bs as [|b bs IH]; [reflexivity|].
  cbn [length le_bytes le_value]. f_equal.
  - pose proof (Z_of_byte_range b).
    replace (Z_of_byte b + 256 * le_value bs) with (Z_of_byte b + le_value bs * 256) by lia.
    unfold byte_of_Z. rewrite Z.mod_add by lia.
    rewrite Z.mod_small by lia.
    unfold Z_of_byte. rewrite N2Z.id, Byte.of_to_N. reflexivity.
  - rewrite Z.shiftr_div_pow2 by lia. change (2 ^ 8) with 256.
    pose proof (Z_of_byte_range b).
    replace ((Z_of_byte b + 256 * le_value bs) / 256) with (le_value bs); [exact IH|].
    apply Z.div_unique with (r := Z_of_byte b); lia.
Qed.

Lemma length_PutUint64 (x : Z) : length (PutUint64 x) = 8%nat.
Proof. apply length_le_bytes. Qed.

Lemma Uint64_PutUint64 (x : Z) (rest : list byte) :
  Uint64 (PutUint64 x ++ rest) = x mod 2 ^ 64.
Proof.
  unfold Uint64. rewrite firstn_app, length_PutUint64.
  change (8 - 8)%nat with 0%nat. rewrite firstn_O, app_nil_r.
  rewrite firstn_all2 by (rewrite length_PutUint64; lia).
  unfold PutUint64. now rewrite le_value_le_bytes.
Qed.

Lemma Uint64_range (l : list byte) : 0 <= Uint64 l < 2 ^ 64.
Proof.
  unfold Uint64. pose proof (le_value_range (firstn 8 l)) as H.
  assert (length (firstn 8 l) <= 8)%nat by apply firstn_le_length.
  assert (2 ^ (8 * Z.of_nat (length (firstn 8 l))) <= 2 ^ 64)
    by (apply Z.pow_le_mono_r; lia).
  lia.
Qed.

(** Reading back what was written. *)
Lemma ReadFull_app (l r : list byte) :
  ReadFull (l ++ r) (Z.of_nat (length l)) = (l, r, None).
Proof.
  unfold ReadFull. destruct l as [|b l]; [reflexivity|].
  destruct (Z.of_nat (length (b :: l)) <=? 0) eqn:E0.
  { apply Z.leb_le in E0. simpl length in E0. lia. }
  cbn [app].
  destruct (Z.of_nat (length (b :: l ++ r)) <? Z.of_nat (length (b :: l))) eqn:E1.
  { apply Z.ltb_lt in E1. simpl length in E1. rewrite length_app in E1. lia. }
  rewrite Nat2Z.id.
  change (b :: l ++ r) with ((b :: l) ++ r).
  rewrite firstn_app, skipn_app, Nat.sub_diag, firstn_all, skipn_all.
  simpl. now rewrite app_nil_r.
Qed.

Lemma ReadFull_PutUint64 (x : Z) (r : list byte) :
  ReadFull (PutUint64 x ++ r) 8 = (PutUint64 x, r, None).
Proof.
  pose proof (ReadFull_app (PutUint64 x) r) as H.
  now rewrite length_PutUint64 in H.
Qed.

Lemma Uint64_PutUint64_exact (x : Z) : Uint64 (PutUint64 x) = x mod 2 ^ 64.
Proof.
  rewrite <- (app_nil_r (PutUint64 x)). apply Uint64_PutUint64.
Qed.

(** ** Integer conversions *)

Lemma wrap_signed_small (w n : Z) :
  0 < w -> - 2 ^ (w - 1) <= n < 2 ^ (w - 1) -> wrap_signed w n = n.
Proof.
  intros Hw Hn. unfold wrap_signed.
  assert (E : 2 ^ w = 2 * 2 ^ (w - 1)).
  { replace w with (1 + (w - 1)) at 1 by lia. rewrite Z.pow_add_r by lia. reflexivity. }
  rewrite Z.mod_small by lia. lia.
Qed.

Lemma wrap_unsigned_small (w n : Z) :
  0 <= n < 2 ^ w -> wrap_unsigned w n = n.
Proof. intros Hn. unfold wrap_unsigned. now apply Z.mod_small. Qed.

Lemma int_bits_pos (k : int_kind) : 0 < int_bits k <= 64.
Proof. destruct k; simpl; lia. Qed.

Lemma uint_bits_pos (k : uint_kind) : 0 < uint_bits k <= 64.
Proof. destruct k; simpl; lia. Qed.

(** ** Wire format of strings and integers *)

(** C8. Encoding a string writes its byte length as an 8-byte little-endian
    unsigned integer and then its raw bytes, with nothing after them; the
    string "ab" encodes to the 10 bytes 02 00 00 00 00 00 00 00 61 62. *)
Theorem EncodeValue_string (mapKeys : list value -> list value) (f : flag)
    (s : list byte) :
  Z.of_nat (length s) < 2 ^ 64 ->
  (exists l,
      EncodeValue mapKeys (Some (mkValue TString f (VString s))) = Ok (l ++ s)
      /\ length l = 8%nat
      /\ le_value l = Z.of_nat (length s))
  /\ Encode mapKeys (Some (TString, VString [x61; x62]))
     = Ok [x02; x00; x00; x00; x00; x00; x00; x00; x61; x62].
Proof.
  intros Hlen. split; [|vm_compute; reflexivity].
  exists (PutUint64 (to_uint64 (Z.of_nat (length s)))).
  cbn [EncodeValue encodeValue typ flags val String_].
  split; [reflexivity|]. split; [apply length_PutUint64|].
  unfold PutUint64, to_uint64, wrap_unsigned.
  rewrite le_value_le_bytes. change (8 * Z.of_nat 8) with 64.
  rewrite Z.mod_mod by lia. apply Z.mod_small. lia.
Qed.

Lemma EncodeValue_string_witness :
  (exists l,
      EncodeValue (fun ks => ks)
        (Some (mkValue TString ValueOf_flags (VString [x68; x69]))) = Ok (l ++ [x68; x69])
      /\ length l = 8%nat
      /\ le_value l = 2)
  /\ Encode (fun ks => ks) (Some (TString, VString [x61; x62]))
     = Ok [x02; x00; x00; x00; x00; x00; x00; x00; x61; x62].
Proof.
  apply (@EncodeValue_string (fun ks => ks) ValueOf_flags [x68; x69]).
  vm_compute. reflexivity.
Defined.

(** C5. A signed or unsigned integer of any native width is encoded as
    exactly 8 little-endian bytes: the two's complement of the value in 64
    bits for a signed one, the value itself for an unsigned one. The slice
    of three int32 [1, -1, 1000] encodes as the count 3 followed by three
    such 8-byte fields. *)
Theorem EncodeValue_integer (mapKeys : list value -> list value) (f : flag)
    (ik : int_kind) (n : Z) (uk : uint_kind) (m : Z) :
  - 2 ^ (int_bits ik - 1) <= n < 2 ^ (int_bits ik - 1) ->
  0 <= m < 2 ^ uint_bits uk ->
  (exists l,
      EncodeValue mapKeys (Some (mkValue (TInt ik) f (VInt n))) = Ok l
      /\ length l = 8%nat /\ le_value l = n mod 2 ^ 64)
  /\ (exists l,
      EncodeValue mapKeys (Some (mkValue (TUint uk) f (VUint m))) = Ok l
      /\ length l = 8%nat /\ le_value l = m)
  /\ Encode mapKeys
       (Some (TSlice (TInt KInt32), VSlice [VInt 1; VInt (-1); VInt 1000] []))
     = Ok [x03; x00; x00; x00; x00; x00; x00; x00;
           x01; x00; x00; x00; x00; x00; x00; x00;
           xff; xff; xff; xff; xff; xff; xff; xff;
           xe8; x03; x00; x00; x00; x00; x00; x00].
Proof.
  intros Hn Hm. split; [|split; [|vm_compute; reflexivity]].
  - eexists. cbn [EncodeValue encodeValue typ flags val].
    split; [reflexivity|]. split; [apply length_PutUint64|].
    unfold PutUint64, to_uint64, wrap_unsigned, Int.
    rewrite le_value_le_bytes. change (8 * Z.of_nat 8) with 64.
    rewrite Z.mod_mod by lia.
    rewrite wrap_signed_small by (pose proof (int_bits_pos ik); lia).
    reflexivity.
  - eexists. cbn [EncodeValue encodeValue typ flags val].
    split; [reflexivity|]. split; [apply length_PutUint64|].
    unfold PutUint64, Uint. rewrite le_value_le_bytes.
    change (8 * Z.of_nat 8) with 64.
    rewrite wrap_unsigned_small by lia.
    apply Z.mod_small. pose proof (uint_bits_pos uk).
    assert (2 ^ uint_bits uk <= 2 ^ 64) by (apply Z.pow_le_mono_r; lia). lia.
Qed.

Lemma EncodeValue_integer_witness :
  (exists l,
      EncodeValue (fun ks => ks) (Some (mkValue (TInt KInt8) ValueOf_flags (VInt (-2)))) = Ok l
      /\ length l = 8%nat /\ le_value l = (-2) mod 2 ^ 64)
  /\ (exists l,
      EncodeValue (fun ks => ks) (Some (mkValue (TUint KUint8) ValueOf_flags (VUint 5))) = Ok l
      /\ length l = 8%nat /\ le_value l = 5)
  /\ Encode (fun ks => ks)
       (Some (TSlice (TInt KInt32), VSlice [VInt 1; VInt (-1); VInt 1000] []))
     = Ok [x03; x00; x00; x00; x00; x00; x00; x00;
           x01; x00; x00; x00; x00; x00; x00; x00;
           xff; xff; xff; xff; xff; xff; xff; xff;
           xe8; x03; x00; x00; x00; x00; x00; x00].
Proof.
  apply (@EncodeValue_integer (fun ks => ks) ValueOf_flags KInt8 (-2) KUint8 5);
    vm_compute; split; congruence.
Defined.

(** ** Targets that cannot be set *)

(** C3. Decoding into a target of string, signed-integer or
    unsigned-integer shape that is not settable returns ErrCantSet, leaves
    the reader where it was (no byte is consumed, not even the length field
    of a string) and leaves the target as it was. *)
Theorem DecodeValue_unsettable (can_alloc : type -> Z -> bool) (r : reader)
    (v : Value) :
  string_or_integer (typ v) = true ->
  CanSet (flags v) = false ->
  DecodeValue can_alloc r (Some v) = (Some v, r, Err ErrCantSet).
Proof.
  destruct v as [t f x]. cbn [typ flags val DecodeValue]. intros Ht Hf.
  destruct t; try discriminate Ht; cbn [decodeValue]; rewrite Hf; reflexivity.
Qed.

Lemma DecodeValue_unsettable_witness :
  DecodeValue (fun _ n => n <=? 2 ^ 48)
    [x01; x00; x00; x00; x00; x00; x00; x00; x61]
    (Some (mkValue TString ValueOf_flags (VString [])))
  = (Some (mkValue TString ValueOf_flags (VString [])),
     [x01; x00; x00; x00; x00; x00; x00; x00; x61], Err ErrCantSet).
Proof.
  apply (@DecodeValue_unsettable (fun _ n => n <=? 2 ^ 48)); reflexivity.
Defined.

(** ** The procedures run the named loops *)

Section LoopEquations.

Variable mapKeys : list value -> list value.
Variable can_alloc : type -> Z -> bool.

Lemma encodeValue_struct_eq fs f x :
  encodeValue mapKeys (TStruct fs) f x
  = encode_fields mapKeys f fs (Fields x) [].
Proof.
  cbn [encodeValue]. generalize (Fields x) (@nil byte).
  induction fs as [|[fd ft] fs IH]; intros xs buf; [reflexivity|].
  destruct xs as [|y xs]; [reflexivity|]. cbn [encode_fields].
  destruct (negb (CanInterface (Field_flags f fd))); [apply IH|].
  destruct (encodeValue mapKeys ft (Field_flags f fd) y); try reflexivity. apply IH.
Qed.

Lemma encodeValue_slice_eq e f x :
  encodeValue mapKeys (TSlice e) f x
  = encode_elems mapKeys e (SliceIndex_flags f) (Elems x)
      (PutUint64 (to_uint64 (Z.of_nat (length (Elems x))))).
Proof.
  cbn [encodeValue].
  generalize (PutUint64 (to_uint64 (Z.of_nat (length (Elems x))))).
  induction (Elems x) as [|y xs IH]; intros buf; [reflexivity|].
  cbn [encode_elems].
  destruct (encodeValue mapKeys e (SliceIndex_flags f) y); try reflexivity. apply IH.
Qed.

Lemma encodeValue_array_eq n e f x :
  encodeValue mapKeys (TArray n e) f x
  = encode_elems mapKeys e (ArrayIndex_flags f) (Elems x) [].
Proof.
  cbn [encodeValue]. generalize (@nil byte).
  induction (Elems x) as [|y xs IH]; intros buf; [reflexivity|].
  cbn [encode_elems].
  destruct (encodeValue mapKeys e (ArrayIndex_flags f) y); try reflexivity. apply IH.
Qed.

Lemma encodeValue_map_eq kt et f x :
  encodeValue mapKeys (TMap kt et) f x
  = encode_pairs mapKeys kt et f (Entries x) (mapKeys (map fst (Entries x)))
      (PutUint64 (to_uint64 (Z.of_nat (length (Entries x))))).
Proof.
  cbn [encodeValue].
  generalize (PutUint64 (to_uint64 (Z.of_nat (length (Entries x))))).
  induction (mapKeys (map fst (Entries x))) as [|key keys IH]; intros buf;
    [reflexivity|].
  cbn [encode_pairs].
  destruct (encodeValue mapKeys kt (MapKey_flags f) key); try reflexivity.
  destruct (MapIndex kt (Entries x) key); try reflexivity.
  destruct (encodeValue mapKeys et (MapIndex_flags f) v); try reflexivity. apply IH.
Qed.

Lemma decode_fields_eq f fs xs r :
  (fix fields (fs : list (field * type)) (xs : list value) (r : reader)
     {struct fs} : list value * reader * result unit :=
     match fs, xs with
     | (fd, ft) :: fs', y :: xs' =>
         if negb (CanInterface (Field_flags f fd)) then
           let '(ys, r', res) := fields fs' xs' r in (y :: ys, r', res)
         else
           match decodeValue can_alloc ft (Field_flags f fd) y r with
           | (y', r1, Ok _) =>
               let '(ys, r', res) := fields fs' xs' r1 in (y' :: ys, r', res)
           | (y', r1, res) => (y' :: xs', r1, res)
           end
     | _, _ => (xs, r, Ok tt)
     end) fs xs r
  = decode_fields can_alloc f fs xs r.
Proof.
  revert xs r. induction fs as [|[fd ft] fs IH]; intros xs r; [reflexivity|].
  destruct xs as [|y xs]; [reflexivity|]. cbn [decode_fields].
  destruct (negb (CanInterface (Field_flags f fd))).
  - rewrite IH. reflexivity.
  - destruct (decodeValue can_alloc ft (Field_flags f fd) y r) as [[y' r1] [[]|?|?]];
      try reflexivity.
    rewrite IH. reflexivity.
Qed.

Lemma decodeValue_struct_eq fs f x r :
  decodeValue can_alloc (TStruct fs) f x r
  = let '(xs', r', res) := decode_fields can_alloc f fs (Fields x) r in
    (VStruct xs', r', res).
Proof.
  cbn [decodeValue]. rewrite decode_fields_eq. reflexivity.
Qed.

Lemma decode_elems_eq e f xs r :
  (fix elems (xs : list value) (r : reader) {struct xs}
     : list value * reader * result unit :=
     match xs with
     | [] => ([], r, Ok tt)
     | y :: xs' =>
         match decodeValue can_alloc e f y r with
         | (y', r1, Ok _) =>
             let '(ys, r', res) := elems xs' r1 in (y' :: ys, r', res)
         | (y', r1, res) => (y' :: xs', r1, res)
         end
     end) xs r
  = decode_elems can_alloc e f xs r.
Proof.
  revert r. induction xs as [|y xs IH]; intros r; [reflexivity|].
  cbn [decode_elems].
  destruct (decodeValue can_alloc e f y r) as [[y' r1] [[]|?|?]]; try reflexivity.
  rewrite IH. reflexivity.
Qed.

Lemma decodeValue_array_eq n e f x r :
  decodeValue can_alloc (TArray n e) f x r
  = let '(ys, r', res) :=
      decode_elems can_alloc e (ArrayIndex_flags f) (Elems x) r in
    (VArray ys, r', res).
Proof.
  cbn [decodeValue]. rewrite decode_elems_eq. reflexivity.
Qed.

Lemma decodeValue_slice_eq e f x r :
  decodeValue can_alloc (TSlice e) f x r
  = match ReadFull r 8 with
    | (_, r1, Some err) => (x, r1, Err err)
    | (l, r1, None) =>
        let cleared := map (fun _ => zero e) (Elems x) in
        match Grow can_alloc e f cleared (Spare x) (to_int (Uint64 l)) with
        | Err err => (with_cells x cleared (Spare x), r1, Err err)
        | Panic p => (with_cells x cleared (Spare x), r1, Panic p)
        | Ok cells =>
            let n := Z.to_nat (to_int (Uint64 l)) in
            let '(ys, r', res) :=
              decode_elems can_alloc e (SliceIndex_flags f) (firstn n cells) r1 in
            (with_cells x ys (skipn n cells), r', res)
        end
    end.
Proof.
  cbn [decodeValue].
  destruct (ReadFull r 8) as [[l r1] [err|]]; [reflexivity|].
  cbv zeta.
  destruct (Grow can_alloc e f (map (fun _ => zero e) (Elems x)) (Spare x)
              (to_int (Uint64 l))); try reflexivity.
  rewrite decode_elems_eq. reflexivity.
Qed.

Lemma decode_pairs_eq kt et f n es r :
  (fix pairs (n : nat) (es : list (value * value)) (r : reader) {struct n}
     : list (value * value) * reader * result unit :=
     match n with
     | O => (es, r, Ok tt)
     | S n' =>
         match decodeValue can_alloc kt New_Elem_flags (zero kt) r with
         | (key, r1, Ok _) =>
             match decodeValue can_alloc et New_Elem_flags (zero et) r1 with
             | (value, r2, Ok _) =>
                 if ro f then (es, r2, Panic PanicNotExported)
                 else pairs n' (SetMapIndex kt es key value) r2
             | (_, r2, res) => (es, r2, res)
             end
         | (_, r1, res) => (es, r1, res)
         end
     end) n es r
  = decode_pairs can_alloc kt et f n es r.
Proof.
  revert es r. induction n as [|n IH]; intros es r; [reflexivity|].
  cbn [decode_pairs].
  destruct (decodeValue can_alloc kt New_Elem_flags (zero kt) r)
    as [[key r3] [[]|?|?]]; try reflexivity.
  destruct (decodeValue can_alloc et New_Elem_flags (zero et) r3)
    as [[value r4] [[]|?|?]]; try reflexivity.
  destruct (ro f); [reflexivity|]. apply IH.
Qed.

Lemma decodeValue_map_eq kt et f x r :
  decodeValue can_alloc (TMap kt et) f x r
  = match ReadFull r 8 with
    | (_, r1, Some err) => (x, r1, Err err)
    | (l, r1, None) =>
        if IsNil x && negb (CanSet f) then (x, r1, Panic PanicNotAssignable)
        else
          let '(es, r', res) :=
            decode_pairs can_alloc kt et f (Z.to_nat (Uint64 l)) [] r1 in
          (VMap (Some es), r', res)
    end.
Proof.
  cbn [decodeValue].
  destruct (ReadFull r 8) as [[l r1] [err|]]; [reflexivity|].
  destruct (IsNil x && negb (CanSet f)); [reflexivity|]. cbv zeta.
  rewrite decode_pairs_eq. reflexivity.
Qed.

(** [reflect.New(t)] is a pointer to fresh zeroed storage, and DecodeValue
    on it decodes into its [Elem]: the form the map loop of [decodeValue]
    uses. *)
Lemma decodeValue_New t a r :
  decodeValue can_alloc (TPointer t) ValueOf_flags (VPointer (Some (a, zero t))) r
  = let '(y, r', res) := decodeValue can_alloc t New_Elem_flags (zero t) r in
    (VPointer (Some (a, y)), r', res).
Proof. reflexivity. Qed.

(** The buffer only grows: a loop started on [buf] appends to it what it
    would have written to an empty buffer. *)
Lemma encode_fields_buf f fs xs buf :
  encode_fields mapKeys f fs xs buf
  = do b <- encode_fields mapKeys f fs xs []; Ok (buf ++ b).
Proof.
  revert xs buf. induction fs as [|[fd ft] fs IH]; intros xs buf.
  - simpl. now rewrite app_nil_r.
  - destruct xs as [|y xs]; [simpl; now rewrite app_nil_r|].
    cbn [encode_fields].
    destruct (negb (CanInterface (Field_flags f fd))); [apply IH|].
    destruct (encodeValue mapKeys ft (Field_flags f fd) y) as [b| |]; try reflexivity.
    rewrite (IH xs (buf ++ b)), (IH xs ([] ++ b)).
    destruct (encode_fields mapKeys f fs xs []); try reflexivity.
    simpl. now rewrite app_assoc.
Qed.

Lemma encode_elems_buf e f xs buf :
  encode_elems mapKeys e f xs buf
  = do b <- encode_elems mapKeys e f xs []; Ok (buf ++ b).
Proof.
  revert buf. induction xs as [|y xs IH]; intros buf.
  - simpl. now rewrite app_nil_r.
  - cbn [encode_elems].
    destruct (encodeValue mapKeys e f y) as [b| |]; try reflexivity.
    rewrite (IH (buf ++ b)), (IH ([] ++ b)).
    destruct (encode_elems mapKeys e f xs []); try reflexivity.
    simpl. now rewrite app_assoc.
Qed.

Lemma encode_pairs_buf kt et f es keys buf :
  encode_pairs mapKeys kt et f es keys buf
  = do b <- encode_pairs mapKeys kt et f es keys []; Ok (buf ++ b).
Proof.
  revert buf. induction keys as [|key keys IH]; intros buf.
  - simpl. now rewrite app_nil_r.
  - cbn [encode_pairs].
    destruct (encodeValue mapKeys kt (MapKey_flags f) key) as [b| |]; try reflexivity.
    destruct (MapIndex kt es key) as [y|]; try reflexivity.
    destruct (encodeValue mapKeys et (MapIndex_flags f) y) as [b'| |]; try reflexivity.
    rewrite (IH ((buf ++ b) ++ b')), (IH (([] ++ b) ++ b')).
    destruct (encode_pairs mapKeys kt et f es keys []); try reflexivity.
    simpl. now rewrite !app_assoc.
Qed.

End LoopEquations.

(** ** Records *)

Section Records.

Variable mapKeys : list value -> list value.
Variable can_alloc : type -> Z -> bool.

(** The encoding of a struct is the concatenation, in declaration order, of
    the encodings of its introspectable fields. *)
Lemma encode_fields_visible f fs xs :
  encode_fields mapKeys f fs xs []
  = concat_results
      (map (fun p => encodeValue mapKeys (snd (fst p))
                       (Field_flags f (fst (fst p))) (snd p))
           (visible f fs xs)).
Proof.
  revert xs. induction fs as [|[fd ft] fs IH]; intros xs; [reflexivity|].
  destruct xs as [|y xs]; [reflexivity|].
  cbn [encode_fields]. unfold visible. cbn [combine filter fst snd].
  fold (visible f fs xs). unfold introspectable at 1.
  destruct (CanInterface (Field_flags f fd)); cbn [negb]; [|apply IH].
  cbn [map concat_results fst snd].
  destruct (encodeValue mapKeys ft (Field_flags f fd) y) as [b| |]; try reflexivity.
  rewrite encode_fields_buf, IH. reflexivity.
Qed.

Lemma combine_fst_snd (A B : Type) (l : list (A * B)) :
  combine (map fst l) (map snd l) = l.
Proof.
  induction l as [|[a b] l IH]; [reflexivity|]. simpl. now rewrite IH.
Qed.

Lemma filter_idem (A : Type) (p : A -> bool) (l : list A) :
  filter p (filter p l) = filter p l.
Proof.
  induction l as [|a l IH]; [reflexivity|]. simpl.
  destruct (p a) eqn:E; [|exact IH]. simpl. now rewrite E, IH.
Qed.

Lemma visible_visible f fs xs :
  visible f (map fst (visible f fs xs)) (map snd (visible f fs xs))
  = visible f fs xs.
Proof.
  unfold visible at 1. rewrite combine_fst_snd. unfold visible. apply filter_idem.
Qed.

(** Decoding a struct reads for its introspectable fields only and leaves
    the others as they were. *)
Lemma decode_fields_visible f fs xs r :
  let '(ys, r1, res) := decode_fields can_alloc f fs xs r in
  let '(ys', r1', res') :=
    decode_fields can_alloc f (map fst (visible f fs xs))
      (map snd (visible f fs xs)) r in
  r1 = r1' /\ res = res'
  /\ map snd (visible f fs ys) = ys'
  /\ hidden f fs ys = hidden f fs xs.
Proof.
  revert xs r. induction fs as [|[fd ft] fs IH]; intros xs r.
  - simpl. auto.
  - destruct xs as [|y xs]; [simpl; auto|].
    cbn [decode_fields]. unfold visible at 1 2. cbn [combine filter fst snd].
    fold (visible f fs xs). unfold introspectable at 1 2.
    destruct (CanInterface (Field_flags f fd)) eqn:E; cbn [negb].
    + cbn [map fst snd decode_fields]. rewrite E. cbn [negb].
      destruct (decodeValue can_alloc ft (Field_flags f fd) y r)
        as [[y' r1] [[]|e|p]].
      * specialize (IH xs r1).
        destruct (decode_fields can_alloc f fs xs r1) as [[ys r2] res].
        destruct (decode_fields can_alloc f (map fst (visible f fs xs))
                    (map snd (visible f fs xs)) r1) as [[ys' r2'] res'].
        destruct IH as (-> & -> & <- & Hh).
        unfold visible, hidden, introspectable. cbn [combine filter fst snd].
        rewrite E. cbn [negb map snd]. repeat split; try reflexivity. exact Hh.
      * unfold visible, hidden, introspectable. cbn [combine filter fst snd].
        rewrite E. cbn [negb map snd]. repeat split; reflexivity.
      * unfold visible, hidden, introspectable. cbn [combine filter fst snd].
        rewrite E. cbn [negb map snd]. repeat split; reflexivity.
    + specialize (IH xs r).
      destruct (decode_fields can_alloc f fs xs r) as [[ys r2] res].
      destruct (decode_fields can_alloc f (map fst (visible f fs xs))
                  (map snd (visible f fs xs)) r) as [[ys' r2'] res'].
      destruct IH as (-> & -> & <- & Hh).
      unfold visible, hidden, introspectable. cbn [combine filter fst snd].
      rewrite E. cbn [negb map snd]. repeat split; try reflexivity.
      f_equal. exact Hh.
Qed.

Lemma unexported_not_introspectable f fd :
  fexported fd = false -> introspectable f fd = false.
Proof.
  intros H. unfold introspectable, CanInterface, flagRO, Field_flags. simpl.
  rewrite H. simpl. destruct (fembedded fd), (flagStickyRO f); reflexivity.
Qed.

End Records.

Section RecordsInOrder.

Variable can_alloc : type -> Z -> bool.

Lemma decode_fields_length f fs xs r :
  length (fst (fst (decode_fields can_alloc f fs xs r))) = length xs.
Proof.
  revert xs r. induction fs as [|[fd ft] fs IH]; intros xs r; [reflexivity|].
  destruct xs as [|y xs]; [reflexivity|]. cbn [decode_fields].
  destruct (negb (CanInterface (Field_flags f fd))).
  - specialize (IH xs r).
    destruct (decode_fields can_alloc f fs xs r) as [[ys r'] res].
    cbn [fst length] in *. now rewrite IH.
  - destruct (decodeValue can_alloc ft (Field_flags f fd) y r)
      as [[y' r1] [[]|e|p]]; try reflexivity.
    specialize (IH xs r1).
    destruct (decode_fields can_alloc f fs xs r1) as [[ys r'] res].
    cbn [fst length] in *. now rewrite IH.
Qed.

(** Decoding a struct is decoding its introspectable fields one after the
    other; the other fields are left as they were. *)
Lemma decode_fields_in_order f fs xs r :
  let '(ys, r1, res) := decode_fields can_alloc f fs xs r in
  let '(ys', r1', res') := decode_in_order can_alloc f (visible f fs xs) r in
  r1 = r1' /\ res = res'
  /\ map snd (visible f fs ys) = ys'
  /\ hidden f fs ys = hidden f fs xs.
Proof.
  revert xs r. induction fs as [|[fd ft] fs IH]; intros xs r.
  - simpl. auto.
  - destruct xs as [|y xs]; [simpl; auto|].
    cbn [decode_fields]. unfold visible at 1. cbn [combine filter fst snd].
    fold (visible f fs xs). unfold introspectable at 1.
    destruct (CanInterface (Field_flags f fd)) eqn:E; cbn [negb].
    + cbn [decode_in_order].
      destruct (decodeValue can_alloc ft (Field_flags f fd) y r)
        as [[y' r1] [[]|e|p]].
      * specialize (IH xs r1).
        destruct (decode_fields can_alloc f fs xs r1) as [[ys r2] res].
        destruct (decode_in_order can_alloc f (visible f fs xs) r1)
          as [[ys' r2'] res'].
        destruct IH as (-> & -> & <- & Hh).
        unfold visible, hidden, introspectable. cbn [combine filter fst snd].
        rewrite E. cbn [negb map snd]. repeat split; try reflexivity. exact Hh.
      * unfold visible, hidden, introspectable. cbn [combine filter fst snd].
        rewrite E. cbn [negb map snd]. repeat split; reflexivity.
      * unfold visible, hidden, introspectable. cbn [combine filter fst snd].
        rewrite E. cbn [negb map snd]. repeat split; reflexivity.
    + specialize (IH xs r).
      destruct (decode_fields can_alloc f fs xs r) as [[ys r2] res].
      destruct (decode_in_order can_alloc f (visible f fs xs) r)
        as [[ys' r2'] res'].
      destruct IH as (-> & -> & <- & Hh).
      unfold visible, hidden, introspectable. cbn [combine filter fst snd].
      rewrite E. cbn [negb map snd]. repeat split; try reflexivity.
      f_equal. exact Hh.
Qed.

End RecordsInOrder.

(** An exported field of a settable struct is introspectable and settable. *)
Lemma exported_field_settable (f : flag) (fd : field) :
  CanSet f = true -> fexported fd = true ->
  CanInterface (Field_flags f fd) = true /\ CanSet (Field_flags f fd) = true.
Proof.
  intros Hs He. destruct f as [[|] [|] [|]]; try discriminate Hs.
  unfold CanInterface, CanSet, flagRO, Field_flags. cbn. now rewrite He.
Qed.

(** C6. Encoding a record visits the declared fields in order and skips
    every non-introspectable field: the bytes are the concatenation of the
    encodings of the introspectable fields, the same as for the record made
    of those fields only. The decoder skips the same fields: decoding a
    record is decoding its introspectable fields one after the other, in
    declaration order, each from where the previous one stopped and as far
    as the first failure; the other fields are neither read for nor written
    to, and the record keeps its number of fields. So the decoder consumes
    the same bytes, returns the same outcome and stores the same values as
    for the record made of the introspectable fields. A record with the
    exported field X int32 = 7 and one unexported field encodes to the 8
    bytes of 7, as the record with X alone; decoding these 8 bytes into a
    settable record of that type sets X to 7, consumes exactly the 8 bytes
    and leaves the unexported field as it was. *)
Theorem struct_skips_unexported (mapKeys : list value -> list value)
    (can_alloc : type -> Z -> bool) (f fd : flag) (fs : list (field * type))
    (xs : list value) (r : reader) (hd : field) (ht : type) (x0 hx : value)
    (rest : list byte) :
  fexported hd = false ->
  CanSet fd = true ->
  let vis := visible f fs xs in
  let X := mkField "X" true false in
  let seven := [x07; x00; x00; x00; x00; x00; x00; x00] in
  encodeValue mapKeys (TStruct fs) f (VStruct xs)
  = concat_results
      (map (fun p => encodeValue mapKeys (snd (fst p))
                       (Field_flags f (fst (fst p))) (snd p)) vis)
  /\ encodeValue mapKeys (TStruct fs) f (VStruct xs)
     = encodeValue mapKeys (TStruct (map fst vis)) f (VStruct (map snd vis))
  /\ (let '(y, r1, res) := decodeValue can_alloc (TStruct fs) f (VStruct xs) r in
      let '(ys', r1', res') := decode_in_order can_alloc f vis r in
      r1 = r1' /\ res = res'
      /\ map snd (visible f fs (Fields y)) = ys'
      /\ hidden f fs (Fields y) = hidden f fs xs
      /\ length (Fields y) = length xs)
  /\ (let '(y, r1, res) := decodeValue can_alloc (TStruct fs) f (VStruct xs) r in
      let '(y', r1', res') :=
        decodeValue can_alloc (TStruct (map fst vis)) f (VStruct (map snd vis)) r in
      r1 = r1' /\ res = res'
      /\ map snd (visible f fs (Fields y)) = Fields y'
      /\ hidden f fs (Fields y) = hidden f fs xs)
  /\ Encode mapKeys
       (Some (TStruct [(X, TInt KInt32); (hd, ht)], VStruct [VInt 7; hx]))
     = Ok seven
  /\ Encode mapKeys (Some (TStruct [(X, TInt KInt32)], VStruct [VInt 7]))
     = Ok seven
  /\ decodeValue can_alloc (TStruct [(X, TInt KInt32); (hd, ht)]) fd
       (VStruct [x0; hx]) (seven ++ rest)
     = (VStruct [VInt 7; hx], rest, Ok tt)
  /\ decodeValue can_alloc (TStruct [(X, TInt KInt32)]) fd
       (VStruct [x0]) (seven ++ rest)
     = (VStruct [VInt 7], rest, Ok tt).
Proof.
  intros Hhd Hfd vis X seven.
  assert (E : encodeValue mapKeys (TStruct fs) f (VStruct xs)
              = concat_results
                  (map (fun p => encodeValue mapKeys (snd (fst p))
                                   (Field_flags f (fst (fst p))) (snd p)) vis)).
  { rewrite encodeValue_struct_eq. apply encode_fields_visible. }
  destruct (@exported_field_settable fd X Hfd eq_refl) as [HiX HsX].
  assert (HX : forall tail,
             decodeValue can_alloc (TInt KInt32) (Field_flags fd X) x0 (seven ++ tail)
             = (VInt 7, tail, Ok tt)).
  { intros tail. cbn [decodeValue]. rewrite HsX. cbn [negb].
    change seven with (PutUint64 7). rewrite ReadFull_PutUint64.
    cbv iota beta. f_equal. }
  split; [exact E|]. split; [|split; [|split; [|split; [|split; [|split]]]]].
  - rewrite E, encodeValue_struct_eq, encode_fields_visible.
    cbn [Fields]. unfold vis. rewrite visible_visible. reflexivity.
  - rewrite decodeValue_struct_eq. cbn [Fields].
    pose proof (decode_fields_in_order can_alloc f fs xs r) as H.
    pose proof (decode_fields_length can_alloc f fs xs r) as L.
    fold vis in H.
    destruct (decode_fields can_alloc f fs xs r) as [[ys r1] res].
    destruct (decode_in_order can_alloc f vis r) as [[ys' r1'] res'].
    cbn [Fields fst] in *. destruct H as (H1 & H2 & H3 & H4). auto.
  - rewrite !decodeValue_struct_eq. cbn [Fields].
    pose proof (decode_fields_visible can_alloc f fs xs r) as H.
    fold vis in H.
    destruct (decode_fields can_alloc f fs xs r) as [[ys r1] res].
    destruct (decode_fields can_alloc f (map fst vis) (map snd vis) r)
      as [[ys' r1'] res'].
    exact H.
  - unfold Encode, ValueOf, EncodeValue. cbn [typ flags val].
    rewrite encodeValue_struct_eq, encode_fields_visible.
    unfold visible. cbn [Fields combine filter fst snd].
    rewrite (unexported_not_introspectable ValueOf_flags hd Hhd).
    vm_compute. reflexivity.
  - vm_compute. reflexivity.
  - rewrite decodeValue_struct_eq. cbn [Fields decode_fields].
    rewrite HiX. cbn [negb]. rewrite HX.
    pose proof (unexported_not_introspectable fd hd Hhd) as Hh.
    unfold introspectable in Hh. rewrite Hh. reflexivity.
  - rewrite decodeValue_struct_eq. cbn [Fields decode_fields].
    rewrite HiX. cbn [negb]. rewrite HX. reflexivity.
Qed.

Lemma struct_skips_unexported_witness :
  let f := Elem_flags ValueOf_flags in
  let fd := Elem_flags ValueOf_flags in
  let hd := mkField "y" false false in
  let fs := [(mkField "X" true false, TInt KInt32); (hd, TString)] in
  let xs := [VInt 0; VString [x61]] in
  let r := [x09; x00; x00; x00; x00; x00; x00; x00; x2a] in
  let mapKeys := fun ks : list value => ks in
  let can_alloc := fun (_ : type) n => n <=? 2 ^ 48 in
  let vis := visible f fs xs in
  let X := mkField "X" true false in
  let seven := [x07; x00; x00; x00; x00; x00; x00; x00] in
  encodeValue mapKeys (TStruct fs) f (VStruct xs)
  = concat_results
      (map (fun p => encodeValue mapKeys (snd (fst p))
                       (Field_flags f (fst (fst p))) (snd p)) vis)
  /\ encodeValue mapKeys (TStruct fs) f (VStruct xs)
     = encodeValue mapKeys (TStruct (map fst vis)) f (VStruct (map snd vis))
  /\ (let '(y, r1, res) := decodeValue can_alloc (TStruct fs) f (VStruct xs) r in
      let '(ys', r1', res') := decode_in_order can_alloc f vis r in
      r1 = r1' /\ res = res'
      /\ map snd (visible f fs (Fields y)) = ys'
      /\ hidden f fs (Fields y) = hidden f fs xs
      /\ length (Fields y) = length xs)
  /\ (let '(y, r1, res) := decodeValue can_alloc (TStruct fs) f (VStruct xs) r in
      let '(y', r1', res') :=
        decodeValue can_alloc (TStruct (map fst vis)) f (VStruct (map snd vis)) r in
      r1 = r1' /\ res = res'
      /\ map snd (visible f fs (Fields y)) = Fields y'
      /\ hidden f fs (Fields y) = hidden f fs xs)
  /\ Encode mapKeys
       (Some (TStruct [(X, TInt KInt32); (hd, TString)],
              VStruct [VInt 7; VString [x61]]))
     = Ok seven
  /\ Encode mapKeys (Some (TStruct [(X, TInt KInt32)], VStruct [VInt 7]))
     = Ok seven
  /\ decodeValue can_alloc (TStruct [(X, TInt KInt32); (hd, TString)]) fd
       (VStruct [VInt 0; VString [x61]]) (seven ++ [x2a])
     = (VStruct [VInt 7; VString [x61]], [x2a], Ok tt)
  /\ decodeValue can_alloc (TStruct [(X, TInt KInt32)]) fd
       (VStruct [VInt 0]) (seven ++ [x2a])
     = (VStruct [VInt 7], [x2a], Ok tt).
Proof.
  intros f fd hd fs xs r mapKeys can_alloc.
  apply (@struct_skips_unexported mapKeys can_alloc f fd fs xs r hd TString
           (VInt 0) (VString [x61]) [x2a]).
  - reflexivity.
  - reflexivity.
Defined.

(** ** Induction on types *)

Section TypeInduction.

Variable P : type -> Prop.
Hypothesis HString : P TString.
Hypothesis HStruct : forall fs, Forall (fun p => P (snd p)) fs -> P (TStruct fs).
Hypothesis HSlice : forall e, P e -> P (TSlice e).
Hypothesis HArray : forall n e, P e -> P (TArray n e).
Hypothesis HMap : forall kt et, P kt -> P et -> P (TMap kt et).
Hypothesis HInt : forall k, P (TInt k).
Hypothesis HUint : forall k, P (TUint k).
Hypothesis HPointer : forall e, P e -> P (TPointer e).
Hypothesis HOther : forall k named, P (TOther k named).

Fixpoint type_induction (t : type) : P t :=
  match t with
  | TString => HString
  | TStruct fs =>
      HStruct
        ((fix each (fs : list (field * type)) : Forall (fun p => P (snd p)) fs :=
            match fs with
            | [] => Forall_nil _
            | p :: fs' => Forall_cons p (type_induction (snd p)) (each fs')
            end) fs)
  | TSlice e => HSlice (type_induction e)
  | TArray n e => HArray n (type_induction e)
  | TMap kt et => HMap (type_induction kt) (type_induction et)
  | TInt k => HInt k
  | TUint k => HUint k
  | TPointer e => HPointer (type_induction e)
  | TOther k named => HOther k named
  end.

End TypeInduction.

(** ** Determinism of the encoder *)

Section Determinism.

Variables mapKeys1 mapKeys2 : list value -> list value.

Lemma encodeValue_order_irrelevant t :
  forall f x, no_mapping t x = true ->
  encodeValue mapKeys1 t f x = encodeValue mapKeys2 t f x.
Proof.
  induction t as [|fs IH|e IH|n e IH|kt et _ _|k|k|e _|k named] using type_induction;
    intros f x Hx; try reflexivity.
  - rewrite !encodeValue_struct_eq. cbn [no_mapping] in Hx.
    revert Hx. generalize (Fields x) (@nil byte).
    induction IH as [|[fd ft] fs Hft _ IHfs]; intros xs buf Hx; [reflexivity|].
    destruct xs as [|y xs]; [reflexivity|].
    apply andb_prop in Hx. destruct Hx as [Hy Hxs].
    cbn [encode_fields]. cbn [snd] in Hft. rewrite (Hft _ y Hy).
    destruct (negb (CanInterface (Field_flags f fd))); [now apply IHfs|].
    destruct (encodeValue mapKeys2 ft (Field_flags f fd) y); try reflexivity.
    now apply IHfs.
  - rewrite !encodeValue_slice_eq. cbn [no_mapping] in Hx.
    revert Hx.
    generalize (PutUint64 (to_uint64 (Z.of_nat (length (Elems x))))).
    induction (Elems x) as [|y xs IHxs]; intros buf Hx; [reflexivity|].
    cbn [forallb] in Hx. apply andb_prop in Hx. destruct Hx as [Hy Hxs].
    cbn [encode_elems]. rewrite (IH _ y Hy).
    destruct (encodeValue mapKeys2 e (SliceIndex_flags f) y); try reflexivity.
    now apply IHxs.
  - rewrite !encodeValue_array_eq. cbn [no_mapping] in Hx.
    revert Hx. generalize (@nil byte).
    induction (Elems x) as [|y xs IHxs]; intros buf Hx; [reflexivity|].
    cbn [forallb] in Hx. apply andb_prop in Hx. destruct Hx as [Hy Hxs].
    cbn [encode_elems]. rewrite (IH _ y Hy).
    destruct (encodeValue mapKeys2 e (ArrayIndex_flags f) y); try reflexivity.
    now apply IHxs.
  - discriminate Hx.
Qed.

End Determinism.

(** C9. Encoding is deterministic on every value that contains no mapping:
    whatever order the runtime lists map keys in during either call, two
    calls on the same value return the same bytes (and the same outcome). *)
Theorem Encode_deterministic (mapKeys1 mapKeys2 : list value -> list value)
    (t : type) (x : value) (f : flag) :
  no_mapping t x = true ->
  Encode mapKeys1 (Some (t, x)) = Encode mapKeys2 (Some (t, x))
  /\ EncodeValue mapKeys1 (Some (mkValue t f x))
     = EncodeValue mapKeys2 (Some (mkValue t f x)).
Proof.
  intros H. split; apply encodeValue_order_irrelevant; exact H.
Qed.

Lemma Encode_deterministic_witness :
  let t := TSlice (TStruct [(mkField "X" true false, TInt KInt32);
                            (mkField "S" true false, TString)]) in
  let x := VSlice [VStruct [VInt 1; VString [x61]]; VStruct [VInt 2; VString []]] [] in
  Encode (fun ks => ks) (Some (t, x)) = Encode (@rev value) (Some (t, x))
  /\ EncodeValue (fun ks => ks) (Some (mkValue t ValueOf_flags x))
     = EncodeValue (@rev value) (Some (mkValue t ValueOf_flags x)).
Proof.
  intros t x.
  apply (@Encode_deterministic (fun ks => ks) (@rev value) t x ValueOf_flags).
  reflexivity.
Defined.

(** The exception: a map of two entries is encoded in the order the runtime
    lists its keys in. *)
Example Encode_map_order_matters :
  let t := TMap (TUint KUint8) (TUint KUint8) in
  let x := VMap (Some [(VUint 1, VUint 10); (VUint 2, VUint 20)]) in
  Encode (fun ks => ks) (Some (t, x)) <> Encode (@rev value) (Some (t, x)).
Proof. vm_compute. discriminate. Qed.

(** ** Errors of the encoder *)

Lemma bytes_eqb_refl (s : list byte) : bytes_eqb s s = true.
Proof. unfold bytes_eqb. destruct (list_eq_dec Byte.byte_eq_dec s s); congruence. Qed.

Lemma bytes_eqb_eq (s s' : list byte) : bytes_eqb s s' = true -> s = s'.
Proof.
  unfold bytes_eqb. destruct (list_eq_dec Byte.byte_eq_dec s s'); congruence.
Qed.

(** On the handled kinds a key equals itself. *)
Lemma go_eqb_refl t :
  handled_kinds t = true -> comparable t = true ->
  forall x, go_eqb t x x = true.
Proof.
  induction t as [|fs IH|e IH|n e IH|kt et _ _|k|k|e _|k named] using type_induction;
    intros Ht Hc x; try discriminate; cbn [go_eqb].
  - apply bytes_eqb_refl.
  - cbn [handled_kinds comparable] in Ht, Hc. revert Ht Hc. generalize (Fields x).
    induction IH as [|[fd ft] fs Hft _ IHfs]; intros xs Ht Hc; [reflexivity|].
    destruct xs as [|y xs]; [reflexivity|].
    apply andb_prop in Ht. destruct Ht as [Ht1 Ht2].
    apply andb_prop in Hc. destruct Hc as [Hc1 Hc2].
    cbn [snd] in Hft. rewrite (Hft Ht1 Hc1 y), orb_true_r. cbn [andb].
    now apply IHfs.
  - cbn [handled_kinds comparable] in Ht, Hc.
    induction (Elems x) as [|y xs IHxs]; [reflexivity|].
    rewrite (IH Ht Hc y). exact IHxs.
  - apply Z.eqb_refl.
  - apply Z.eqb_refl.
Qed.

Lemma MapIndex_found kt es key :
  (forall x, go_eqb kt x x = true) ->
  In key (map fst es) -> exists y, MapIndex kt es key = Some y.
Proof.
  intros Hrefl. induction es as [|[k e] es IH]; intros Hin; [destruct Hin|].
  cbn [MapIndex]. destruct (go_eqb kt k key) eqn:E; [eauto|].
  destruct Hin as [<-|Hin]; [|auto].
  cbn [fst] in E. rewrite Hrefl in E. discriminate.
Qed.

Section EncoderErrors.

Variable mapKeys : list value -> list value.

Lemma reflect_Write_error t x e : reflect_Write t x = Err e -> e = ErrBinaryWrite.
Proof.
  unfold reflect_Write. destruct (Indirect t x) as [[t' x']|]; [|congruence].
  destruct (dataSize t' x'); congruence.
Qed.

Lemma binary_Write_error t x e : binary_Write t x = Err e -> e = ErrBinaryWrite.
Proof.
  unfold binary_Write. destruct (fast_path t); [discriminate|].
  destruct t as [| | | | | | |pt|]; try apply reflect_Write_error.
  destruct (fast_path pt); [|apply reflect_Write_error].
  destruct x as [| | | | | | |[[a y]|]| | | |]; discriminate.
Qed.

(** Every error the encoder returns comes from binary.Write in the default
    branch. *)
Lemma encodeValue_error t :
  forall f x e, encodeValue mapKeys t f x = Err e -> e = ErrBinaryWrite.
Proof.
  induction t as [|fs IH|e IH|n e IH|kt et IHk IHe|k|k|e _|k named] using type_induction;
    intros f x err; try discriminate.
  - rewrite encodeValue_struct_eq. generalize (Fields x) (@nil byte).
    induction IH as [|[fd ft] fs Hft _ IHfs]; intros xs buf; [discriminate|].
    destruct xs as [|y xs]; [discriminate|]. cbn [encode_fields].
    destruct (negb (CanInterface (Field_flags f fd))); [apply IHfs|].
    destruct (encodeValue mapKeys ft (Field_flags f fd) y) eqn:E;
      [apply IHfs| |discriminate].
    intros H. injection H as <-. cbn [snd] in Hft. eapply Hft, E.
  - rewrite encodeValue_slice_eq.
    generalize (PutUint64 (to_uint64 (Z.of_nat (length (Elems x))))).
    induction (Elems x) as [|y xs IHxs]; intros buf; [discriminate|].
    cbn [encode_elems].
    destruct (encodeValue mapKeys e (SliceIndex_flags f) y) eqn:E;
      [apply IHxs| |discriminate].
    intros H. injection H as <-. eapply IH, E.
  - rewrite encodeValue_array_eq. generalize (@nil byte).
    induction (Elems x) as [|y xs IHxs]; intros buf; [discriminate|].
    cbn [encode_elems].
    destruct (encodeValue mapKeys e (ArrayIndex_flags f) y) eqn:E;
      [apply IHxs| |discriminate].
    intros H. injection H as <-. eapply IH, E.
  - rewrite encodeValue_map_eq.
    generalize (PutUint64 (to_uint64 (Z.of_nat (length (Entries x))))).
    induction (mapKeys (map fst (Entries x))) as [|key keys IHkeys]; intros buf;
      [discriminate|].
    cbn [encode_pairs].
    destruct (encodeValue mapKeys kt (MapKey_flags f) key) eqn:E; [| |discriminate].
    + destruct (MapIndex kt (Entries x) key) as [y|]; [|discriminate].
      destruct (encodeValue mapKeys et (MapIndex_flags f) y) eqn:E';
        [apply IHkeys| |discriminate].
      intros H. injection H as <-. eapply IHe, E'.
    + intros H. injection H as <-. eapply IHk, E.
  - cbn [encodeValue]. destruct (CanInterface f); [apply binary_Write_error|discriminate].
  - cbn [encodeValue]. destruct (CanInterface f); [apply binary_Write_error|discriminate].
Qed.

Hypothesis mapKeys_ok : lists_the_keys mapKeys.

(** On a value of the handled kinds the encoder returns bytes. *)
Lemma encodeValue_handled t :
  handled_kinds t = true ->
  forall f x, exists b, encodeValue mapKeys t f x = Ok b.
Proof.
  induction t as [|fs IH|e IH|n e IH|kt et IHk IHe|k|k|e _|k named] using type_induction;
    intros Ht f x; try discriminate; try (eexists; reflexivity).
  - rewrite encodeValue_struct_eq. cbn [handled_kinds] in Ht.
    revert Ht. generalize (Fields x) (@nil byte).
    induction IH as [|[fd ft] fs Hft _ IHfs]; intros xs buf Ht; [eexists; reflexivity|].
    destruct xs as [|y xs]; [eexists; reflexivity|].
    apply andb_prop in Ht. destruct Ht as [Ht1 Ht2]. cbn [encode_fields].
    destruct (negb (CanInterface (Field_flags f fd))); [now apply IHfs|].
    cbn [snd] in Hft. destruct (Hft Ht1 (Field_flags f fd) y) as [b ->].
    now apply IHfs.
  - rewrite encodeValue_slice_eq. cbn [handled_kinds] in Ht.
    generalize (PutUint64 (to_uint64 (Z.of_nat (length (Elems x))))).
    induction (Elems x) as [|y xs IHxs]; intros buf; [eexists; reflexivity|].
    cbn [encode_elems]. destruct (IH Ht (SliceIndex_flags f) y) as [b ->].
    apply IHxs.
  - rewrite encodeValue_array_eq. cbn [handled_kinds] in Ht.
    generalize (@nil byte).
    induction (Elems x) as [|y xs IHxs]; intros buf; [eexists; reflexivity|].
    cbn [encode_elems]. destruct (IH Ht (ArrayIndex_flags f) y) as [b ->].
    apply IHxs.
  - rewrite encodeValue_map_eq. cbn [handled_kinds] in Ht.
    apply andb_prop in Ht. destruct Ht as [Ht Hte].
    apply andb_prop in Ht. destruct Ht as [Htk Hck].
    assert (Hin : forall key, In key (mapKeys (map fst (Entries x))) ->
                              In key (map fst (Entries x))).
    { intros key. apply Permutation_in, mapKeys_ok. }
    revert Hin.
    generalize (PutUint64 (to_uint64 (Z.of_nat (length (Entries x))))).
    induction (mapKeys (map fst (Entries x))) as [|key keys IHkeys]; intros buf Hin;
      [eexists; reflexivity|].
    cbn [encode_pairs]. destruct (IHk Htk (MapKey_flags f) key) as [b ->].
    destruct (@MapIndex_found kt (Entries x) key (go_eqb_refl kt Htk Hck)) as [y ->].
    { apply Hin. now left. }
    destruct (IHe Hte (MapIndex_flags f) y) as [b' ->].
    apply IHkeys. intros k' Hk'. apply Hin. now right.
Qed.

End EncoderErrors.

(** C10. Encode returns bytes and a nil error for every value built
    exclusively from the string, signed-integer, unsigned-integer, struct,
    slice, array and map kinds, at any depth. The only error the encoder
    ever returns, on any value, is the one binary.Write raises in the
    default branch, as it does for a uintptr. *)
Theorem Encode_no_error (mapKeys : list value -> list value) (t : type)
    (x : value) (f : flag) :
  lists_the_keys mapKeys ->
  handled_kinds t = true ->
  (exists b, Encode mapKeys (Some (t, x)) = Ok b)
  /\ (exists b, EncodeValue mapKeys (Some (mkValue t f x)) = Ok b)
  /\ (forall t' f' x' e,
         EncodeValue mapKeys (Some (mkValue t' f' x')) = Err e -> e = ErrBinaryWrite)
  /\ Encode mapKeys (Some (TOther KUintptr false, VBits 1)) = Err ErrBinaryWrite.
Proof.
  intros Hkeys Ht. split; [|split; [|split]].
  - now apply encodeValue_handled.
  - now apply encodeValue_handled.
  - intros t' f' x' e. apply encodeValue_error.
  - reflexivity.
Qed.

Lemma Encode_no_error_witness :
  let mapKeys := fun ks : list value => ks in
  let t := TMap TString (TSlice (TInt KInt16)) in
  let x := VMap (Some [(VString [x61], VSlice [VInt 3] [])]) in
  (exists b, Encode mapKeys (Some (t, x)) = Ok b)
  /\ (exists b, EncodeValue mapKeys (Some (mkValue t ValueOf_flags x)) = Ok b)
  /\ (forall t' f' x' e,
         EncodeValue mapKeys (Some (mkValue t' f' x')) = Err e -> e = ErrBinaryWrite)
  /\ Encode mapKeys (Some (TOther KUintptr false, VBits 1)) = Err ErrBinaryWrite.
Proof.
  intros mapKeys t x.
  apply (@Encode_no_error mapKeys t x ValueOf_flags).
  - intros ks. apply Permutation_refl.
  - reflexivity.
Defined.

(** ** Mappings *)

Lemma lists_the_keys_singleton mapKeys (k : value) :
  lists_the_keys mapKeys -> mapKeys [k] = [k].
Proof.
  intros H. specialize (H [k]). apply Permutation_sym in H.
  now apply Permutation_length_1_inv in H.
Qed.

(** C7. The mapping with the single pair "k" -> 1 encodes as the count 1 in
    8 little-endian bytes, then the encoding of the key "k", then the
    encoding of the value 1. Decoding these bytes into a settable mapping
    target, whether it is nil or already holds entries, leaves a mapping
    with exactly that pair and consumes all the bytes. *)
Theorem map_single_pair (mapKeys : list value -> list value)
    (can_alloc : type -> Z -> bool) (f : flag)
    (m0 : option (list (value * value))) :
  lists_the_keys mapKeys ->
  can_alloc (TUint KUint8) 1 = true ->
  CanSet f = true ->
  let t := TMap TString (TInt KInt) in
  let m := VMap (Some [(VString [x6b], VInt 1)]) in
  let wire := [x01; x00; x00; x00; x00; x00; x00; x00;
               x01; x00; x00; x00; x00; x00; x00; x00; x6b;
               x01; x00; x00; x00; x00; x00; x00; x00] in
  Encode mapKeys (Some (t, m)) = Ok wire
  /\ (exists bk bv,
         Encode mapKeys (Some (TString, VString [x6b])) = Ok bk
         /\ Encode mapKeys (Some (TInt KInt, VInt 1)) = Ok bv
         /\ wire = PutUint64 1 ++ bk ++ bv)
  /\ DecodeValue can_alloc wire (Some (mkValue t f (VMap m0)))
     = (Some (mkValue t f m), [], Ok tt).
Proof.
  intros Hkeys Halloc Hset t m wire. split; [|split].
  - unfold Encode, ValueOf, EncodeValue. cbn [typ flags val].
    unfold t. rewrite encodeValue_map_eq. unfold m. cbn [Entries map fst].
    rewrite (lists_the_keys_singleton (VString [x6b]) Hkeys).
    vm_compute. reflexivity.
  - exists [x01; x00; x00; x00; x00; x00; x00; x00; x6b],
           [x01; x00; x00; x00; x00; x00; x00; x00].
    repeat split; vm_compute; reflexivity.
  - unfold DecodeValue. cbn [typ flags val]. unfold t.
    rewrite decodeValue_map_eq.
    assert (Hnil : IsNil (VMap m0) && negb (CanSet f) = false)
      by (rewrite Hset; apply andb_false_r).
    assert (Hro : ro f = false).
    { unfold CanSet in Hset. apply andb_prop in Hset. destruct Hset as [_ H].
      unfold ro. now destruct (flagRO f). }
    change (ReadFull wire 8)
      with ([x01; x00; x00; x00; x00; x00; x00; x00],
            [x01; x00; x00; x00; x00; x00; x00; x00; x6b;
             x01; x00; x00; x00; x00; x00; x00; x00], @None error).
    cbv iota beta. rewrite Hnil.
    change (Z.to_nat (Uint64 [x01; x00; x00; x00; x00; x00; x00; x00])) with 1%nat.
    cbn [decode_pairs decodeValue zero].
    change (CanSet New_Elem_flags) with true. cbn [negb].
    change (ReadFull [x01; x00; x00; x00; x00; x00; x00; x00; x6b;
                      x01; x00; x00; x00; x00; x00; x00; x00] 8)
      with ([x01; x00; x00; x00; x00; x00; x00; x00],
            [x6b; x01; x00; x00; x00; x00; x00; x00; x00], @None error).
    cbv iota beta zeta.
    change (Uint64 [x01; x00; x00; x00; x00; x00; x00; x00]) with 1.
    unfold make_bytes_ok. rewrite Halloc.
    change (1 <? 2 ^ 63) with true. cbn [andb negb].
    change (ReadFull [x6b; x01; x00; x00; x00; x00; x00; x00; x00] 1)
      with ([x6b], [x01; x00; x00; x00; x00; x00; x00; x00], @None error).
    cbv iota beta.
    change (ReadFull [x01; x00; x00; x00; x00; x00; x00; x00] 8)
      with ([x01; x00; x00; x00; x00; x00; x00; x00], @nil byte, @None error).
    cbv iota beta. rewrite Hro.
    change (SetInt KInt (to_int64 (Uint64 [x01; x00; x00; x00; x00; x00; x00; x00])))
      with (VInt 1).
    reflexivity.
Qed.

Lemma map_single_pair_witness :
  let mapKeys := fun ks : list value => ks in
  let can_alloc := fun (_ : type) n => n <=? 2 ^ 48 in
  let f := New_Elem_flags in
  let m0 := Some [(VString [x61], VInt 5); (VString [x6b], VInt 2)] in
  let t := TMap TString (TInt KInt) in
  let m := VMap (Some [(VString [x6b], VInt 1)]) in
  let wire := [x01; x00; x00; x00; x00; x00; x00; x00;
               x01; x00; x00; x00; x00; x00; x00; x00; x6b;
               x01; x00; x00; x00; x00; x00; x00; x00] in
  Encode mapKeys (Some (t, m)) = Ok wire
  /\ (exists bk bv,
         Encode mapKeys (Some (TString, VString [x6b])) = Ok bk
         /\ Encode mapKeys (Some (TInt KInt, VInt 1)) = Ok bv
         /\ wire = PutUint64 1 ++ bk ++ bv)
  /\ DecodeValue can_alloc wire (Some (mkValue t f (VMap m0)))
     = (Some (mkValue t f m), [], Ok tt).
Proof.
  intros mapKeys can_alloc f m0.
  apply (@map_single_pair mapKeys can_alloc f m0).
  - intros ks. apply Permutation_refl.
  - reflexivity.
  - reflexivity.
Defined.

(** ** The default branch of the decoder *)

Lemma ReadFull_error r n l r' e :
  ReadFull r n = (l, r', Some e) -> is_eof e = true /\ r' = [].
Proof.
  unfold ReadFull. destruct (n <=? 0); [discriminate|].
  destruct r as [|b r]; [intros H; injection H as <- <- <-; auto|].
  destruct (Z.of_nat (length (b :: r)) <? n); [|discriminate].
  intros H; injection H as <- <- <-; auto.
Qed.

(** Decoding into a settable target of a default kind never succeeds and
    never stores anything: binary.Read is handed a copy of the target, not a
    pointer to it, and rejects it, after reading the bytes of a predeclared
    bool, float32 or float64. *)
Lemma DecodeValue_other_rejected (can_alloc : type -> Z -> bool) (r : reader)
    (k : other_kind) (named : bool) (f : flag) (x : value) :
  CanSet f = true ->
  exists r' e,
    DecodeValue can_alloc r (Some (mkValue (TOther k named) f x))
    = (Some (mkValue (TOther k named) f x), r', Err e)
    /\ (e = ErrBinaryRead \/ is_eof e = true).
Proof.
  intros Hset. unfold DecodeValue. cbn [typ flags val decodeValue].
  rewrite Hset. cbn [negb].
  assert (Hi : CanInterface f = true).
  { unfold CanSet in Hset. apply andb_prop in Hset. apply Hset. }
  rewrite Hi. unfold binary_Read.
  destruct (intDataSize k named =? 0); [eauto|].
  destruct (ReadFull r (intDataSize k named)) as [[l r'] [e|]] eqn:E; [|eauto].
  apply ReadFull_error in E. destruct E as [E _]. eauto.
Qed.

(** C2. The settable float64 target and the 8 bytes of 1.0: the decoder
    consumes the bytes, returns the error of binary.Read instead of
    succeeding, and leaves the target at zero. *)
Theorem DecodeValue_float64_fails (can_alloc : type -> Z -> bool) :
  Encode (fun ks => ks) (Some (TOther KFloat64 false, VBits 4607182418800017408))
  = Ok [x00; x00; x00; x00; x00; x00; xf0; x3f]
  /\ DecodeValue can_alloc [x00; x00; x00; x00; x00; x00; xf0; x3f]
       (Some (mkValue (TOther KFloat64 false) New_Elem_flags (VBits 0)))
     = (Some (mkValue (TOther KFloat64 false) New_Elem_flags (VBits 0)), [],
        Err ErrBinaryRead)
  /\ Decode can_alloc [x00; x00; x00; x00; x00; x00; xf0; x3f]
       (Some (TPointer (TOther KFloat64 false), VPointer (Some (1, VBits 0))))
     = (Some (TPointer (TOther KFloat64 false), VPointer (Some (1, VBits 0))),
        Err ErrBinaryRead).
Proof. repeat split; vm_compute; reflexivity. Qed.

(** ** Length fields *)

(** A string whose length field claims 10 bytes when 3 remain: the decoder
    returns io.ErrUnexpectedEOF. *)
Lemma DecodeValue_string_short (can_alloc : type -> Z -> bool) :
  can_alloc (TUint KUint8) 10 = true ->
  DecodeValue can_alloc
    [x0a; x00; x00; x00; x00; x00; x00; x00; x61; x62; x63]
    (Some (mkValue TString New_Elem_flags (VString [])))
  = (Some (mkValue TString New_Elem_flags (VString [])), [], Err ErrUnexpectedEOF).
Proof.
  intros H. unfold DecodeValue. cbn [typ flags val decodeValue].
  change (CanSet New_Elem_flags) with true. cbn [negb].
  change (ReadFull [x0a; x00; x00; x00; x00; x00; x00; x00; x61; x62; x63] 8)
    with ([x0a; x00; x00; x00; x00; x00; x00; x00], [x61; x62; x63], @None error).
  cbv iota beta zeta.
  change (Uint64 [x0a; x00; x00; x00; x00; x00; x00; x00]) with 10.
  unfold make_bytes_ok. rewrite H. reflexivity.
Qed.

Lemma ReadFull_short (r : reader) (n : Z) :
  Z.of_nat (length r) < n ->
  exists l e, ReadFull r n = (l, [], Some e) /\ is_eof e = true.
Proof.
  intros H. unfold ReadFull.
  destruct (n <=? 0) eqn:E0; [apply Z.leb_le in E0; lia|].
  destruct r as [|b r]; [exists [], EOF; auto|].
  replace (Z.of_nat (length (b :: r)) <? n) with true
    by (symmetry; apply Z.ltb_lt; exact H).
  exists (b :: r), ErrUnexpectedEOF. auto.
Qed.

Lemma ReadFull_enough (r : reader) (n : Z) :
  0 <= n <= Z.of_nat (length r) ->
  ReadFull r n = (firstn (Z.to_nat n) r, skipn (Z.to_nat n) r, None).
Proof.
  intros H. unfold ReadFull.
  destruct (n <=? 0) eqn:E0.
  - apply Z.leb_le in E0. replace n with 0 by lia. reflexivity.
  - apply Z.leb_gt in E0. destruct r as [|b r]; [simpl in H; lia|].
    replace (Z.of_nat (length (b :: r)) <? n) with false
      by (symmetry; apply Z.ltb_ge; lia).
    reflexivity.
Qed.

(** Truncated input for a settable integer or string target: fewer than 8
    bytes, or fewer bytes after the length field than it announces (the
    length being one the runtime can allocate), gives an end-of-stream error
    and leaves the target as it was. *)
Lemma decodeValue_truncated (can_alloc : type -> Z -> bool) (f : flag)
    (x : value) (r : reader) :
  CanSet f = true ->
  (forall k, Z.of_nat (length r) < 8 ->
     exists e, decodeValue can_alloc (TInt k) f x r = (x, [], Err e)
               /\ is_eof e = true)
  /\ (forall k, Z.of_nat (length r) < 8 ->
     exists e, decodeValue can_alloc (TUint k) f x r = (x, [], Err e)
               /\ is_eof e = true)
  /\ (Z.of_nat (length r) < 8 ->
     exists e, decodeValue can_alloc TString f x r = (x, [], Err e)
               /\ is_eof e = true)
  /\ (8 <= Z.of_nat (length r) ->
      make_bytes_ok can_alloc (Uint64 r) = true ->
      Z.of_nat (length r) - 8 < Uint64 r ->
      exists e, decodeValue can_alloc TString f x r = (x, [], Err e)
                /\ is_eof e = true).
Proof.
  intros Hset. repeat split.
  - intros k Hr. destruct (@ReadFull_short r 8 Hr) as (l & e & E & He).
    exists e. cbn [decodeValue]. rewrite Hset, E. auto.
  - intros k Hr. destruct (@ReadFull_short r 8 Hr) as (l & e & E & He).
    exists e. cbn [decodeValue]. rewrite Hset, E. auto.
  - intros Hr. destruct (@ReadFull_short r 8 Hr) as (l & e & E & He).
    exists e. cbn [decodeValue]. rewrite Hset, E. auto.
  - intros Hr Hmake Hshort. cbn [decodeValue]. rewrite Hset. cbn [negb].
    rewrite (@ReadFull_enough r 8) by lia. cbv iota beta zeta.
    change (Z.to_nat 8) with 8%nat.
    assert (EU : Uint64 (firstn 8 r) = Uint64 r).
    { unfold Uint64. now rewrite firstn_firstn. }
    rewrite EU, Hmake. cbn [negb].
    destruct (@ReadFull_short (skipn 8 r) (Uint64 r)) as (l & e & E & He).
    { rewrite length_skipn. lia. }
    exists e. rewrite E. auto.
Qed.

(** C4. A length field of 2^64 - 1: decoding it into a settable slice
    panics in reflect.Value.Grow, and decoding it into a settable string
    panics in make, whatever the runtime can allocate. Neither returns an
    end-of-stream error. *)
Theorem DecodeValue_length_panics (can_alloc : type -> Z -> bool) :
  let wire := [xff; xff; xff; xff; xff; xff; xff; xff] in
  DecodeValue can_alloc wire
    (Some (mkValue (TSlice (TInt KInt64)) New_Elem_flags (VSlice [] [])))
  = (Some (mkValue (TSlice (TInt KInt64)) New_Elem_flags (VSlice [] [])), [],
     Panic PanicNegativeLen)
  /\ DecodeValue can_alloc wire
       (Some (mkValue TString New_Elem_flags (VString [])))
     = (Some (mkValue TString New_Elem_flags (VString [])), [],
        Panic PanicLenOutOfRange)
  /\ Decode can_alloc wire
       (Some (TPointer (TSlice (TInt KInt64)), VPointer (Some (1, VSlice [] []))))
     = (Some (TPointer (TSlice (TInt KInt64)), VPointer (Some (1, VSlice [] []))),
        Panic PanicNegativeLen).
Proof.
  intros wire. split; [|split].
  - vm_compute. reflexivity.
  - unfold DecodeValue. cbn [typ flags val decodeValue].
    change (CanSet New_Elem_flags) with true. cbn [negb].
    change (ReadFull wire 8) with (wire, @nil byte, @None error).
    cbv iota beta zeta. unfold make_bytes_ok.
    change (Uint64 wire <? 2 ^ 63) with false. reflexivity.
  - vm_compute. reflexivity.
Qed.

(** ** The round trip *)

Lemma to_int64_of_uint64 (n : Z) :
  - 2 ^ 63 <= n < 2 ^ 63 -> to_int64 (to_uint64 n mod 2 ^ 64) = n.
Proof.
  intros Hn. unfold to_int64, to_uint64, wrap_signed, wrap_unsigned.
  rewrite Z.mod_mod by lia. change (64 - 1) with 63.
  rewrite Z.add_mod_idemp_l by lia.
  change (2 ^ 64) with (2 * 2 ^ 63). rewrite Z.mod_small; lia.
Qed.

Lemma int_range_64 (k : int_kind) (n : Z) :
  - 2 ^ (int_bits k - 1) <= n < 2 ^ (int_bits k - 1) -> - 2 ^ 63 <= n < 2 ^ 63.
Proof. destruct k; simpl; lia. Qed.

Lemma uint_range_64 (k : uint_kind) (n : Z) :
  0 <= n < 2 ^ uint_bits k -> 0 <= n < 2 ^ 64.
Proof. destruct k; simpl; lia. Qed.

Lemma Fields_zero fs :
  Fields (zero (TStruct fs)) = map (fun p => zero (snd p)) fs.
Proof.
  cbn [zero Fields]. induction fs as [|[fd ft] fs IH]; [reflexivity|].
  cbn [map snd]. now rewrite IH.
Qed.

Lemma CanSet_flags f :
  CanSet f = true -> flagAddr f = true /\ flagRO f = false.
Proof.
  unfold CanSet. intros H. apply andb_prop in H. destruct H as [H1 H2].
  split; [exact H1|]. now destruct (flagRO f).
Qed.

Lemma CanInterface_flags f : CanInterface f = true -> flagRO f = false.
Proof. unfold CanInterface. now destruct (flagRO f). Qed.

Lemma flagRO_parts f :
  flagRO f = false -> flagStickyRO f = false /\ flagEmbedRO f = false.
Proof. unfold flagRO. now destruct (flagStickyRO f), (flagEmbedRO f). Qed.

(** An exported field of an accessible struct is accessible, and settable
    when the struct is. *)
Lemma Field_flags_exported f fd :
  fexported fd = true ->
  (CanInterface f = true -> CanInterface (Field_flags f fd) = true)
  /\ (CanSet f = true -> CanSet (Field_flags f fd) = true).
Proof.
  intros He. split; intros H.
  - apply CanInterface_flags, flagRO_parts in H. destruct H as [H1 H2].
    unfold CanInterface, flagRO, Field_flags. simpl. rewrite H1, He. reflexivity.
  - apply CanSet_flags in H. destruct H as [Ha H].
    apply flagRO_parts in H. destruct H as [H1 H2].
    unfold CanSet, flagRO, Field_flags. simpl. rewrite H1, He, Ha. reflexivity.
Qed.

Lemma Field_flags_unexported f fd :
  fexported fd = false -> CanInterface (Field_flags f fd) = false.
Proof. apply unexported_not_introspectable. Qed.

Lemma Index_flags_ok f :
  (CanInterface f = true ->
   CanInterface (SliceIndex_flags f) = true
   /\ CanInterface (ArrayIndex_flags f) = true
   /\ CanInterface (MapKey_flags f) = true
   /\ CanInterface (MapIndex_flags f) = true)
  /\ (CanSet f = true ->
      CanSet (SliceIndex_flags f) = true /\ CanSet (ArrayIndex_flags f) = true).
Proof.
  destruct f as [[|] [|] [|]]; split; intros H; try discriminate H;
    repeat split; reflexivity.
Qed.

(** On a plain key type, values equal field for field are equal. *)
Lemma same_fields_plain t :
  plain_key t = true ->
  forall x y, has_type t x -> same_fields t x y -> x = y.
Proof.
  induction t as [|fs IH|e IH|n e IH|kt et _ _|k|k|e _|k named] using type_induction;
    intros Hp x y Hx Hs; try discriminate Hp.
  - inversion Hs; reflexivity.
  - inversion Hx as [|fs' xs Hxs| | | | | | | | | | | | | | |]; subst.
    inversion Hs as [| | | |fs' xs' ys Hys| | | | | | | |]; subst.
    f_equal. cbn [plain_key] in Hp. clear Hx Hs.
    revert xs ys Hxs Hys Hp.
    induction IH as [|[fd ft] fs Hft _ IHfs]; intros xs ys Hxs Hys Hp.
    + inversion Hxs; subst. cbn [combine] in Hys. inversion Hys. reflexivity.
    + inversion Hxs as [|p x fs' xs' Hx Hxs']; subst.
      cbn [combine] in Hys.
      inversion Hys as [|q y ps ys' Hy Hys']; subst.
      apply andb_prop in Hp. destruct Hp as [Hp Hp'].
      apply andb_prop in Hp. destruct Hp as [Hp Hpt].
      apply andb_prop in Hp. destruct Hp as [Hexp _].
      cbn [fst snd] in *. f_equal.
      * apply (Hft Hpt x y Hx). exact (Hy Hexp).
      * now apply IHfs.
  - inversion Hx as [| | |n' e' xs Hlen Hxs| | | | | | | | | | | | |]; subst.
    inversion Hs as [| | | | | |n' e' xs' ys Hys| | | | | |]; subst.
    f_equal. cbn [plain_key] in Hp. clear Hx Hs.
    induction Hys as [|x y xs ys Hxy _ IHys]; [reflexivity|].
    inversion Hxs; subst. f_equal; [now apply IH|now apply IHys].
  - inversion Hs; reflexivity.
  - inversion Hs; reflexivity.
Qed.

(** On a plain key type, [==] holds between equal values only. *)
Lemma go_eqb_true_eq t :
  plain_key t = true ->
  forall a b, has_type t a -> has_type t b -> go_eqb t a b = true -> a = b.
Proof.
  induction t as [|fs IH|e IH|n e IH|kt et _ _|k|k|e _|k named] using type_induction;
    intros Hp a b Ha Hb Heq; try discriminate Hp.
  - inversion Ha; inversion Hb; subst. cbn [go_eqb String_] in Heq.
    f_equal. now apply bytes_eqb_eq.
  - inversion Ha as [|fs' xs Hxs| | | | | | | | | | | | | | |]; subst.
    inversion Hb as [|fs' ys Hys| | | | | | | | | | | | | | |]; subst.
    f_equal. cbn [go_eqb Fields] in Heq. cbn [plain_key] in Hp. clear Ha Hb.
    revert xs ys Hxs Hys Hp Heq.
    induction IH as [|[fd ft] fs Hft _ IHfs]; intros xs ys Hxs Hys Hp Heq.
    + inversion Hxs; inversion Hys; reflexivity.
    + inversion Hxs as [|p x fs' xs' Hx Hxs']; subst.
      inversion Hys as [|p y fs' ys' Hy Hys']; subst.
      apply andb_prop in Hp. destruct Hp as [Hp Hp'].
      apply andb_prop in Hp. destruct Hp as [Hp Hpt].
      apply andb_prop in Hp. destruct Hp as [_ Hnb].
      apply andb_prop in Heq. destruct Heq as [Hh Ht].
      destruct (blank fd); [discriminate Hnb|]. cbn [orb] in Hh.
      cbn [fst snd] in *. f_equal.
      * now apply Hft.
      * now apply IHfs.
  - inversion Ha as [| | |n' e' xs Hlx Hxs| | | | | | | | | | | | |]; subst.
    inversion Hb as [| | |n' e' ys Hly Hys| | | | | | | | | | | | |]; subst.
    f_equal. cbn [go_eqb Elems] in Heq. cbn [plain_key] in Hp. clear Ha Hb Hly.
    revert ys Hys Heq.
    induction Hxs as [|x xs Hx _ IHxs]; intros ys Hys Heq.
    + destruct ys; [reflexivity|discriminate Heq].
    + destruct ys as [|y ys]; [discriminate Heq|].
      apply andb_prop in Heq. destruct Heq as [Hh Ht].
      inversion Hys; subst. f_equal; [now apply IH|now apply IHxs].
  - inversion Ha as [| | | | | |k' n Hn| | | | | | | | | |]; subst.
    inversion Hb as [| | | | | |k' m Hm| | | | | | | | | |]; subst.
    cbn [go_eqb Int] in Heq.
    rewrite !wrap_signed_small in Heq by (pose proof (int_bits_pos k); lia).
    apply Z.eqb_eq in Heq. now subst.
  - inversion Ha as [| | | | | | |k' n Hn| | | | | | | | |]; subst.
    inversion Hb as [| | | | | | |k' m Hm| | | | | | | | |]; subst.
    cbn [go_eqb Uint] in Heq.
    rewrite !wrap_unsigned_small in Heq by lia.
    apply Z.eqb_eq in Heq. now subst.
Qed.

Lemma plain_key_handled t :
  plain_key t = true -> handled_kinds t = true /\ comparable t = true.
Proof.
  induction t as [|fs IH|e IH|n e IH|kt et _ _|k|k|e _|k named] using type_induction;
    intros Hp; try discriminate Hp; auto.
  cbn [plain_key handled_kinds comparable] in *.
  induction IH as [|[fd ft] fs Hft _ IHfs]; [auto|].
  apply andb_prop in Hp. destruct Hp as [Hp Hp'].
  apply andb_prop in Hp. destruct Hp as [_ Hpt].
  cbn [snd] in Hft. destruct (Hft Hpt) as [E1 E2]. destruct (IHfs Hp') as [E3 E4].
  split; apply andb_true_intro; split; assumption.
Qed.

Lemma plain_key_refl t :
  plain_key t = true -> forall x, go_eqb t x x = true.
Proof.
  intros Hp. destruct (plain_key_handled t Hp). now apply go_eqb_refl.
Qed.

(** With pairwise different keys, every entry is found under its key. *)
Lemma MapIndex_entry kt es k v :
  (forall x, go_eqb kt x x = true) ->
  distinct_keys kt (map fst es) ->
  In (k, v) es -> MapIndex kt es k = Some v.
Proof.
  intros Hrefl. induction es as [|[k0 v0] es IH]; intros Hd Hin; [destruct Hin|].
  cbn [map fst] in Hd. inversion Hd as [|a l Hall Hrest]; subst.
  cbn [MapIndex]. destruct Hin as [Heq|Hin].
  - injection Heq as -> ->. now rewrite Hrefl.
  - rewrite Forall_forall in Hall.
    rewrite (Hall k) by (apply in_map_iff; exists (k, v); auto).
    now apply IH.
Qed.

(** Assigning under a key different from all the keys present adds an entry
    after them. *)
Lemma SetMapIndex_fresh kt es k v :
  (forall k0, In k0 (map fst es) -> go_eqb kt k0 k = false) ->
  SetMapIndex kt es k v = es ++ [(k, v)].
Proof.
  induction es as [|[k0 v0] es IH]; intros H; [reflexivity|].
  cbn [SetMapIndex]. rewrite (H k0) by now left.
  cbn [app]. f_equal. apply IH. intros k1 Hk1. apply H. now right.
Qed.

Section RoundTrip.

Variable mapKeys : list value -> list value.
Variable can_alloc : type -> Z -> bool.
Hypothesis mapKeys_ok : lists_the_keys mapKeys.

Lemma round_trip_string : round_trips mapKeys can_alloc TString.
Proof.
  intros x fe fd Hx Ha _ Hset.
  inversion Hx as [s Hs| | | | | | | | | | | | | | | |]; subst.
  cbn [allocatable String_] in Ha.
  exists (PutUint64 (to_uint64 (Z.of_nat (length s))) ++ s), (VString s).
  split; [reflexivity|]. split; [|constructor].
  intros rest. cbn [decodeValue zero]. rewrite Hset. cbn [negb].
  rewrite <- app_assoc, ReadFull_PutUint64. cbv iota beta zeta.
  rewrite Uint64_PutUint64_exact.
  unfold to_uint64, wrap_unsigned. rewrite Z.mod_mod by lia.
  rewrite Z.mod_small by lia.
  unfold make_bytes_ok. rewrite Ha.
  replace (Z.of_nat (length s) <? 2 ^ 63) with true by (symmetry; apply Z.ltb_lt; lia).
  cbn [andb negb]. rewrite ReadFull_app. reflexivity.
Qed.

Lemma round_trip_int k : round_trips mapKeys can_alloc (TInt k).
Proof.
  intros x fe fd Hx _ _ Hset.
  inversion Hx as [| | | | | |k' n Hn| | | | | | | | | |]; subst.
  exists (PutUint64 (to_uint64 (Int k (VInt n)))), (VInt n).
  split; [reflexivity|]. split; [|constructor].
  intros rest. cbn [decodeValue zero]. rewrite Hset. cbn [negb].
  rewrite ReadFull_PutUint64. cbv iota beta.
  rewrite Uint64_PutUint64_exact. unfold Int.
  pose proof (int_bits_pos k).
  rewrite wrap_signed_small by lia.
  unfold SetInt.
  replace (to_int64 (to_uint64 n mod 2 ^ 64)) with n
    by (symmetry; apply to_int64_of_uint64; now apply (int_range_64 k)).
  rewrite wrap_signed_small by lia. reflexivity.
Qed.

Lemma round_trip_uint k : round_trips mapKeys can_alloc (TUint k).
Proof.
  intros x fe fd Hx _ _ Hset.
  inversion Hx as [| | | | | | |k' n Hn| | | | | | | | |]; subst.
  exists (PutUint64 (Uint k (VUint n))), (VUint n).
  split; [reflexivity|]. split; [|constructor].
  intros rest. cbn [decodeValue zero]. rewrite Hset. cbn [negb].
  rewrite ReadFull_PutUint64. cbv iota beta.
  rewrite Uint64_PutUint64_exact. unfold Uint, SetUint.
  rewrite (@wrap_unsigned_small (uint_bits k) n) by lia.
  pose proof (uint_range_64 k Hn).
  rewrite Z.mod_small by lia.
  rewrite wrap_unsigned_small by lia. reflexivity.
Qed.

(** The elements of a slice or of an array, decoded into zeroed cells. *)
Lemma round_trip_elems e fe fd :
  round_trips mapKeys can_alloc e ->
  CanInterface fe = true -> CanSet fd = true ->
  forall xs,
    Forall (has_type e) xs ->
    forallb (allocatable can_alloc e) xs = true ->
    exists b ys,
      encode_elems mapKeys e fe xs [] = Ok b
      /\ (forall rest,
             decode_elems can_alloc e fd (repeat (zero e) (length xs)) (b ++ rest)
             = (ys, rest, Ok tt))
      /\ Forall2 (same_fields e) xs ys.
Proof.
  intros He Hfe Hfd xs Hxs. induction Hxs as [|x xs Hx _ IH]; intros Ha.
  - exists [], []. repeat split. constructor.
  - cbn [forallb] in Ha. apply andb_prop in Ha. destruct Ha as [Hax Haxs].
    destruct (He x fe fd Hx Hax Hfe Hfd) as (b1 & y & E1 & D1 & S1).
    destruct (IH Haxs) as (b2 & ys & E2 & D2 & S2).
    exists (b1 ++ b2), (y :: ys). split; [|split].
    + cbn [encode_elems]. rewrite E1, encode_elems_buf, E2. reflexivity.
    + intros rest. cbn [length repeat decode_elems].
      rewrite <- app_assoc, D1, D2. reflexivity.
    + now constructor.
Qed.

(** The fields of a struct, decoded into zeroed fields. *)
Lemma round_trip_fields fe fd :
  CanInterface fe = true -> CanSet fd = true ->
  forall fs,
    Forall (fun p => round_trip_shape (snd p) = true ->
                     round_trips mapKeys can_alloc (snd p)) fs ->
    round_trip_shape (TStruct fs) = true ->
    forall xs,
      Forall2 (fun p x => has_type (snd p) x) fs xs ->
      allocatable can_alloc (TStruct fs) (VStruct xs) = true ->
      exists b ys,
        encode_fields mapKeys fe fs xs [] = Ok b
        /\ (forall rest,
               decode_fields can_alloc fd fs (map (fun p => zero (snd p)) fs)
                 (b ++ rest) = (ys, rest, Ok tt))
        /\ Forall2 (fun p y => fexported (fst (fst p)) = true ->
                               same_fields (snd (fst p)) (snd p) y)
                   (combine fs xs) ys.
Proof.
  intros Hfe Hfd fs IH. cbn [round_trip_shape allocatable Fields].
  induction IH as [|[fld ft] fs Hft _ IHfs]; intros Hs xs Hxs Ha.
  - inversion Hxs; subst. exists [], []. repeat split. constructor.
  - inversion Hxs as [|p x fs' xs' Hx Hxs']; subst.
    apply andb_prop in Hs. destruct Hs as [Hs1 Hs2].
    apply andb_prop in Ha. destruct Ha as [Ha1 Ha2].
    destruct (IHfs Hs2 xs' Hxs' Ha2) as (b2 & ys & E2 & D2 & S2).
    cbn [fst snd] in *.
    destruct (fexported fld) eqn:Hexp; cbn [negb orb] in Hs1, Ha1.
    + destruct (Field_flags_exported fe fld Hexp) as [Hi _].
      destruct (Field_flags_exported fd fld Hexp) as [Hi' Hset'].
      assert (Hfd' : CanInterface fd = true).
      { apply CanSet_flags in Hfd. unfold CanInterface. now rewrite (proj2 Hfd). }
      destruct (Hft Hs1 x (Field_flags fe fld) (Field_flags fd fld) Hx Ha1
                  (Hi Hfe) (Hset' Hfd)) as (b1 & y & E1 & D1 & S1).
      exists (b1 ++ b2), (y :: ys). split; [|split].
      * cbn [encode_fields]. rewrite (Hi Hfe). cbn [negb].
        rewrite E1, encode_fields_buf, E2. reflexivity.
      * intros rest. cbn [map snd decode_fields]. rewrite (Hi' Hfd'). cbn [negb].
        rewrite <- app_assoc, D1, D2. reflexivity.
      * cbn [combine]. constructor; [intros _; exact S1|exact S2].
    + exists b2, (zero ft :: ys). split; [|split].
      * cbn [encode_fields]. rewrite (Field_flags_unexported fe fld Hexp). exact E2.
      * intros rest. cbn [map snd decode_fields].
        rewrite (Field_flags_unexported fd fld Hexp). cbn [negb].
        rewrite D2. reflexivity.
      * cbn [combine]. constructor; [|exact S2].
        cbn [fst snd]. intros H. rewrite Hexp in H. discriminate H.
Qed.

Lemma distinct_keys_NoDup kt ks :
  (forall x, go_eqb kt x x = true) -> distinct_keys kt ks -> NoDup ks.
Proof.
  intros Hrefl Hd. induction Hd as [|a l Hall _ IH]; constructor; [|exact IH].
  intros Hin. rewrite Forall_forall in Hall. specialize (Hall a Hin).
  rewrite Hrefl in Hall. discriminate Hall.
Qed.

(** A map with pairwise different keys is the list of its keys, each with
    the element found under it. *)
Lemma entries_by_key kt es :
  (forall x, go_eqb kt x x = true) ->
  distinct_keys kt (map fst es) ->
  map (fun k => (k, match MapIndex kt es k with Some v => v | None => VBool false end))
      (map fst es) = es.
Proof.
  intros Hrefl Hd. rewrite map_map.
  transitivity (map (fun p : value * value => p) es); [|apply map_id].
  apply map_ext_in. intros [k v] Hin. cbn [fst].
  now rewrite (@MapIndex_entry kt es k v Hrefl Hd Hin).
Qed.

(** The entries of a map, in the order of [keys], decoded one pair after the
    other into a map that holds none of these keys. *)
Lemma round_trip_pairs kt et fe fd es :
  plain_key kt = true ->
  round_trips mapKeys can_alloc kt ->
  round_trips mapKeys can_alloc et ->
  CanInterface fe = true -> ro fd = false ->
  Forall (fun p => has_type kt (fst p) /\ has_type et (snd p)) es ->
  distinct_keys kt (map fst es) ->
  forallb (fun p => allocatable can_alloc kt (fst p)
                    && allocatable can_alloc et (snd p)) es = true ->
  forall keys,
    NoDup keys ->
    (forall k, In k keys -> In k (map fst es)) ->
    forall acc,
      (forall k0 k, In k0 (map fst acc) -> In k keys -> go_eqb kt k0 k = false) ->
      exists b news,
        encode_pairs mapKeys kt et fe es keys [] = Ok b
        /\ (forall rest,
               decode_pairs can_alloc kt et fd (length keys) acc (b ++ rest)
               = (acc ++ news, rest, Ok tt))
        /\ Forall2 (fun k q =>
                      fst q = k
                      /\ same_fields et
                           (match MapIndex kt es k with
                            | Some v => v
                            | None => VBool false
                            end) (snd q))
                   keys news.
Proof.
  intros Hplain Hk He Hfe Hro Hty Hd Hal.
  pose proof (@plain_key_refl kt Hplain) as Hrefl.
  assert (Hkeyty : forall k, In k (map fst es) -> has_type kt k).
  { intros k Hin. apply in_map_iff in Hin. destruct Hin as ([k' v] & <- & Hin).
    rewrite Forall_forall in Hty. apply (Hty _ Hin). }
  induction keys as [|key keys IH]; intros Hnd Hsub acc Hacc.
  - exists [], []. split; [reflexivity|]. split; [|constructor].
    intros rest. cbn [length decode_pairs app]. now rewrite app_nil_r.
  - inversion Hnd as [|key' keys' Hnotin Hnd']; subst.
    assert (Hin : In key (map fst es)) by (apply Hsub; now left).
    apply in_map_iff in Hin. destruct Hin as ([k v] & Hfst & Hin).
    cbn [fst] in Hfst. subst k.
    pose proof (@MapIndex_entry kt es key v Hrefl Hd Hin) as Hidx.
    rewrite Forall_forall in Hty. destruct (Hty _ Hin) as [Htk Htv].
    rewrite forallb_forall in Hal. specialize (Hal _ Hin).
    apply andb_prop in Hal. destruct Hal as [Hak Hav]. cbn [fst snd] in *.
    destruct (Index_flags_ok fe) as [Hidxf _].
    destruct (Hidxf Hfe) as (_ & _ & Hfk & Hfv).
    destruct (Hk key (MapKey_flags fe) New_Elem_flags Htk Hak Hfk eq_refl)
      as (bk & key' & Ek & Dk & Sk).
    apply (@same_fields_plain kt Hplain key key' Htk) in Sk. subst key'.
    destruct (He v (MapIndex_flags fe) New_Elem_flags Htv Hav Hfv eq_refl)
      as (bv & v' & Ev & Dv & Sv).
    destruct (IH Hnd' (fun k Hk' => Hsub k (or_intror Hk')) (acc ++ [(key, v')]))
      as (b' & news & E' & D' & S').
    { intros k0 k Hk0 Hk'. rewrite map_app in Hk0. apply in_app_or in Hk0.
      destruct Hk0 as [Hk0|Hk0].
      - apply Hacc; [exact Hk0|now right].
      - cbn [map fst] in Hk0. destruct Hk0 as [<-|[]].
        destruct (go_eqb kt key k) eqn:Eq; [|reflexivity].
        apply (@go_eqb_true_eq kt Hplain key k Htk) in Eq.
        + subst k. contradiction.
        + apply Hkeyty, Hsub. now right. }
    exists ((bk ++ bv) ++ b'), ((key, v') :: news). split; [|split].
    + cbn [encode_pairs]. rewrite Ek, Hidx, Ev, encode_pairs_buf, E'. reflexivity.
    + intros rest. cbn [length decode_pairs].
      rewrite <- !app_assoc, Dk, Dv, Hro.
      rewrite SetMapIndex_fresh.
      * rewrite D'. rewrite <- app_assoc. reflexivity.
      * intros k0 Hk0. apply Hacc; [exact Hk0|now left].
    + constructor; [|exact S']. cbn [fst snd]. rewrite Hidx. auto.
Qed.

Lemma Elems_with_cells x es sp : Elems (with_cells x es sp) = es.
Proof. destruct x, es, sp; reflexivity. Qed.

(** [v.Grow(n)] on an empty slice without capacity gives [n] zeroed cells. *)
Lemma Grow_fresh e fd (n : nat) :
  CanSet fd = true ->
  ((n =? 0)%nat || can_alloc e (Z.of_nat n)) = true ->
  Z.of_nat n < 2 ^ 63 ->
  Grow can_alloc e fd [] [] (Z.of_nat n) = Ok (repeat (zero e) n).
Proof.
  intros Hfd Ha Hn. unfold Grow. rewrite Hfd. cbn [negb length].
  replace (Z.of_nat n <? 0) with false by (symmetry; apply Z.ltb_ge; lia).
  change (Z.of_nat 0) with 0. cbn [Z.add].
  replace (2 ^ 63 <=? Z.of_nat n) with false by (symmetry; apply Z.leb_gt; lia).
  destruct n as [|n].
  - reflexivity.
  - cbn [Nat.eqb orb] in Ha. rewrite Ha.
    replace (0 <? Z.of_nat (S n)) with true by (symmetry; apply Z.ltb_lt; lia).
    rewrite Z.sub_0_r, Nat2Z.id. reflexivity.
Qed.

Lemma has_type_map kt et x :
  has_type (TMap kt et) x ->
  (exists m, x = VMap m)
  /\ Forall (fun p => has_type kt (fst p) /\ has_type et (snd p)) (Entries x)
  /\ distinct_keys kt (map fst (Entries x))
  /\ Z.of_nat (length (Entries x)) < 2 ^ 63.
Proof.
  intros H. inversion H; subst; cbn [Entries map length].
  - split; [eauto|]. split; [constructor|]. split; [constructor|]. simpl; lia.
  - split; [eauto|]. auto.
Qed.

Lemma has_type_slice e x :
  has_type (TSlice e) x ->
  Forall (has_type e) (Elems x)
  /\ Forall (has_type e) (Spare x)
  /\ Z.of_nat (length (Elems x)) + Z.of_nat (length (Spare x)) < 2 ^ 63.
Proof.
  intros H. inversion H; subst; cbn [Elems Spare length].
  - repeat split; try assumption. lia.
  - repeat split; try constructor.
Qed.

(** A slice that holds the elements of [x], field for field, is equal to [x]
    field for field, whether one of the two is nil or not. *)
Lemma same_fields_slice e x y0 ys sp :
  has_type (TSlice e) x ->
  Forall2 (same_fields e) (Elems x) ys ->
  same_fields (TSlice e) x (with_cells y0 ys sp).
Proof.
  intros Hx S. inversion Hx; subst; cbn [Elems] in S.
  - destruct y0, ys, sp; cbn [with_cells]; try (now constructor).
    inversion S; subst. constructor.
  - inversion S; subst.
    destruct y0, sp; cbn [with_cells]; constructor.
Qed.

(** The round trip holds at every shape of the round trip. *)
Lemma round_trip_all t :
  round_trip_shape t = true -> round_trips mapKeys can_alloc t.
Proof.
  induction t as [|fs IH|e IH|n e IH|kt et IHk IHe|k|k|e _|k named] using type_induction;
    intros Hs; try discriminate Hs.
  - apply round_trip_string.
  - intros x fe fd Hx Ha Hfe Hfd.
    inversion Hx as [|fs' xs Hxs| | | | | | | | | | | | | | |]; subst.
    destruct (@round_trip_fields fe fd Hfe Hfd fs IH Hs xs Hxs Ha)
      as (b & ys & E & D & S).
    exists b, (VStruct ys). split; [|split].
    + rewrite encodeValue_struct_eq. exact E.
    + intros rest. rewrite decodeValue_struct_eq, Fields_zero, D. reflexivity.
    + constructor. exact S.
  - intros x fe fd Hx Ha Hfe Hfd. cbn [round_trip_shape] in Hs.
    destruct (has_type_slice Hx) as (Hxs & _ & Hlen).
    cbn [allocatable] in Ha. apply andb_prop in Ha. destruct Ha as [Hal Ha].
    destruct (Index_flags_ok fe) as [Hife _]. destruct (Hife Hfe) as (Hfe' & _).
    destruct (Index_flags_ok fd) as [_ Hifd]. destruct (Hifd Hfd) as (Hfd' & _).
    destruct (@round_trip_elems e (SliceIndex_flags fe) (SliceIndex_flags fd)
                (IH Hs) Hfe' Hfd' (Elems x) Hxs Ha) as (b & ys & E & D & S).
    exists (PutUint64 (to_uint64 (Z.of_nat (length (Elems x)))) ++ b),
           (with_cells VNilSlice ys []).
    split; [|split].
    + rewrite encodeValue_slice_eq.
      rewrite encode_elems_buf, E. reflexivity.
    + intros rest. rewrite decodeValue_slice_eq. cbn [zero Elems Spare map].
      rewrite <- app_assoc, ReadFull_PutUint64. cbv iota beta zeta.
      rewrite Uint64_PutUint64_exact.
      assert (Hn : Z.of_nat (length (Elems x)) < 2 ^ 63) by lia.
      unfold to_uint64, wrap_unsigned. rewrite Z.mod_mod by lia.
      rewrite Z.mod_small by lia.
      unfold to_int. rewrite wrap_signed_small by lia.
      rewrite (@Grow_fresh e fd (length (Elems x)) Hfd Hal Hn).
      rewrite Nat2Z.id.
      rewrite firstn_all2 by (rewrite repeat_length; lia).
      rewrite skipn_all2 by (rewrite repeat_length; lia).
      rewrite D. reflexivity.
    + now apply same_fields_slice.
  - intros x fe fd Hx Ha Hfe Hfd. cbn [round_trip_shape] in Hs.
    inversion Hx as [| | |n' e' xs Hlen Hxs| | | | | | | | | | | | |]; subst.
    cbn [allocatable Elems] in Ha.
    destruct (Index_flags_ok fe) as [Hife _]. destruct (Hife Hfe) as (_ & Hfe' & _).
    destruct (Index_flags_ok fd) as [_ Hifd]. destruct (Hifd Hfd) as (_ & Hfd').
    destruct (@round_trip_elems e (ArrayIndex_flags fe) (ArrayIndex_flags fd)
                (IH Hs) Hfe' Hfd' xs Hxs Ha) as (b & ys & E & D & S).
    exists b, (VArray ys). split; [|split].
    + rewrite encodeValue_array_eq. exact E.
    + intros rest. rewrite decodeValue_array_eq. cbn [zero Elems].
      rewrite D. reflexivity.
    + constructor. exact S.
  - intros x fe fd Hx Ha Hfe Hfd. cbn [round_trip_shape] in Hs.
    apply andb_prop in Hs. destruct Hs as [Hplain Hse].
    destruct (has_type_map Hx) as ([m ->] & Hty & Hd & Hlen).
    cbn [allocatable] in Ha.
    pose proof (@plain_key_refl kt Hplain) as Hrefl.
    destruct (plain_key_handled kt Hplain) as [Hhk _].
    assert (Hshape : round_trip_shape kt = true).
    { clear - Hplain. revert Hplain.
      induction kt as [|fs IH|e IH|n e IH|kt' et' _ _|k|k|e _|k named]
        using type_induction; intros Hp; try discriminate Hp; auto.
      cbn [plain_key round_trip_shape] in *.
      induction IH as [|[fd ft] fs Hft _ IHfs]; [reflexivity|].
      apply andb_prop in Hp. destruct Hp as [Hp Hp'].
      apply andb_prop in Hp. destruct Hp as [_ Hpt].
      cbn [snd] in Hft. apply andb_true_intro. split; [|now apply IHfs].
      rewrite (Hft Hpt). apply orb_true_r. }
    pose proof (mapKeys_ok (map fst (Entries (VMap m)))) as Hperm.
    assert (Hro : ro fd = false) by (apply CanSet_flags in Hfd; apply Hfd).
    destruct (@round_trip_pairs kt et fe fd (Entries (VMap m)) Hplain
                (IHk Hshape) (IHe Hse) Hfe Hro Hty Hd Ha
                (mapKeys (map fst (Entries (VMap m)))))
      with (acc := @nil (value * value)) as (b & news & E & D & S).
    { apply (Permutation_NoDup (Permutation_sym Hperm)).
      now apply (@distinct_keys_NoDup kt). }
    { intros k. apply Permutation_in, Hperm. }
    { intros k0 k []. }
    exists (PutUint64 (to_uint64 (Z.of_nat (length (Entries (VMap m))))) ++ b),
           (VMap (Some news)).
    split; [|split].
    + rewrite encodeValue_map_eq, encode_pairs_buf, E. reflexivity.
    + intros rest. rewrite decodeValue_map_eq. cbn [zero].
      rewrite <- app_assoc, ReadFull_PutUint64. cbv iota beta.
      rewrite Hfd. cbn [IsNil negb andb].
      rewrite Uint64_PutUint64_exact.
      unfold to_uint64, wrap_unsigned. rewrite Z.mod_mod by lia.
      rewrite Z.mod_small by lia. rewrite Nat2Z.id.
      replace (length (Entries (VMap m)))
        with (length (mapKeys (map fst (Entries (VMap m))))).
      * rewrite D. reflexivity.
      * rewrite (Permutation_length Hperm). apply length_map.
    + apply S_Map
        with (es := map (fun k => (k, match MapIndex kt (Entries (VMap m)) k with
                                      | Some v => v
                                      | None => VBool false
                                      end))
                        (mapKeys (map fst (Entries (VMap m))))).
      * rewrite <- (@entries_by_key kt (Entries (VMap m)) Hrefl Hd) at 1.
        apply Permutation_map, Permutation_sym, Hperm.
      * change (Entries (VMap (Some news))) with news.
        clear D. revert S. generalize (mapKeys (map fst (Entries (VMap m)))).
        intros keys S.
        induction S as [|k q keys news' [Hk Hv] _ IH]; cbn [map]; constructor.
        -- cbn [fst snd]. split; [symmetry; exact Hk|exact Hv].
        -- exact IH.
  - apply round_trip_int.
  - apply round_trip_uint.
Qed.

End RoundTrip.

(** ** Unexported fields of a fresh target *)

Lemma zero_struct fs :
  zero (TStruct fs) = VStruct (map (fun p => zero (snd p)) fs).
Proof. rewrite <- Fields_zero. reflexivity. Qed.

Lemma unexported_zero_cons fd ft fs y ys :
  (if fexported fd then unexported_zero ft y else y = zero ft) ->
  unexported_zero (TStruct fs) (VStruct ys) ->
  unexported_zero (TStruct ((fd, ft) :: fs)) (VStruct (y :: ys)).
Proof. intros H1 H2. cbn [unexported_zero Fields] in *. now split. Qed.

Lemma unexported_zero_zero t : unexported_zero t (zero t).
Proof.
  induction t as [|fs IH|e IH|n e IH|kt et _ _|k|k|e _|k named] using type_induction;
    try exact I.
  - rewrite zero_struct.
    induction IH as [|[fd ft] fs Hft _ IHfs]; [exact I|].
    cbn [map snd]. apply unexported_zero_cons; [|exact IHfs].
    destruct (fexported fd); [exact Hft|reflexivity].
  - constructor.
  - cbn [unexported_zero zero Elems]. apply Forall_forall.
    intros y Hy. apply repeat_spec in Hy. now subst.
  - constructor.
Qed.

Lemma Forall_firstn (A : Type) (P : A -> Prop) (n : nat) (l : list A) :
  Forall P l -> Forall P (firstn n l).
Proof.
  revert n. induction l as [|a l IH]; intros n H; destruct n; try constructor;
    inversion H; subst; auto.
Qed.

Lemma SetMapIndex_Forall (P : value * value -> Prop) kt es k v :
  Forall P es -> P (k, v) -> Forall P (SetMapIndex kt es k v).
Proof.
  intros Hes Hkv. induction Hes as [|[k0 v0] es H0 Hes IH]; cbn [SetMapIndex].
  - now constructor.
  - destruct (go_eqb kt k0 k); constructor; assumption.
Qed.

Section FreshTarget.

Variable can_alloc : type -> Z -> bool.

(** The cells [v.Grow(n)] gives a slice without cells are zeroed. *)
Lemma Grow_fresh_cells e f n cells :
  Grow can_alloc e f [] [] n = Ok cells -> Forall (fun c => c = zero e) cells.
Proof.
  unfold Grow. destruct (negb (CanSet f)); [discriminate|].
  destruct (n <? 0); [discriminate|]. cbn [length app].
  destruct (2 ^ 63 <=? Z.of_nat 0 + n); [discriminate|].
  destruct (Z.of_nat 0 + Z.of_nat 0 <? Z.of_nat 0 + n).
  - destruct (can_alloc e (Z.of_nat 0 + n)); [|discriminate].
    intros H. injection H as <-. apply Forall_forall.
    intros c Hc. now apply repeat_spec in Hc.
  - intros H. injection H as <-. constructor.
Qed.

Lemma decode_elems_unexported e f :
  (forall f r, unexported_zero e (fst (fst (decodeValue can_alloc e f (zero e) r)))) ->
  forall xs r,
    Forall (fun c => c = zero e) xs ->
    Forall (unexported_zero e) (fst (fst (decode_elems can_alloc e f xs r))).
Proof.
  intros IH xs. induction xs as [|c xs IHxs]; intros r Hxs; [constructor|].
  inversion Hxs as [|c' xs' Hc Hxs']; subst. cbn [decode_elems].
  pose proof (IH f r) as H1.
  assert (Hrest : Forall (unexported_zero e) xs).
  { eapply Forall_impl; [|exact Hxs']. intros c ->. apply unexported_zero_zero. }
  destruct (decodeValue can_alloc e f (zero e) r) as [[y' r1] [[]|err|p]];
    cbn [fst] in *; try (constructor; assumption).
  specialize (IHxs r1 Hxs').
  destruct (decode_elems can_alloc e f xs r1) as [[ys r'] res].
  cbn [fst] in *. constructor; assumption.
Qed.

(** Whatever the input and the outcome, decoding into a zeroed target
    leaves every unexported field at zero. *)
Lemma decodeValue_fresh_unexported t :
  forall f r,
    unexported_zero t (fst (fst (decodeValue can_alloc t f (zero t) r))).
Proof.
  induction t as [|fs IH|e IH|n e IH|kt et IHk IHe|k|k|e _|k named] using type_induction;
    intros f r; try exact I.
  - rewrite decodeValue_struct_eq, Fields_zero.
    assert (H : forall r,
               unexported_zero (TStruct fs)
                 (VStruct (fst (fst (decode_fields can_alloc f fs
                                       (map (fun p => zero (snd p)) fs) r))))).
    { clear r. induction IH as [|[fd ft] fs Hft _ IHfs]; intros r; [exact I|].
      cbn [map snd decode_fields] in *.
      pose proof (unexported_zero_zero (TStruct fs)) as Hz.
      rewrite zero_struct in Hz.
      destruct (CanInterface (Field_flags f fd)) eqn:Hi; cbn [negb].
      - destruct (fexported fd) eqn:Hexp.
        + pose proof (Hft (Field_flags f fd) r) as H1.
          destruct (decodeValue can_alloc ft (Field_flags f fd) (zero ft) r)
            as [[y' r1] [[]|err|p]]; cbn [fst] in *;
            try (apply unexported_zero_cons; [now rewrite Hexp|exact Hz]).
          specialize (IHfs r1).
          destruct (decode_fields can_alloc f fs (map (fun p => zero (snd p)) fs) r1)
            as [[ys r'] res].
          cbn [fst] in *. apply unexported_zero_cons; [now rewrite Hexp|exact IHfs].
        + pose proof (unexported_not_introspectable f fd Hexp) as Hn.
          unfold introspectable in Hn. rewrite Hn in Hi. discriminate Hi.
      - specialize (IHfs r).
        destruct (decode_fields can_alloc f fs (map (fun p => zero (snd p)) fs) r)
          as [[ys r'] res].
        cbn [fst] in *. apply unexported_zero_cons; [|exact IHfs].
        destruct (fexported fd); [apply unexported_zero_zero|reflexivity]. }
    specialize (H r).
    destruct (decode_fields can_alloc f fs (map (fun p => zero (snd p)) fs) r)
      as [[ys r'] res].
    exact H.
  - rewrite decodeValue_slice_eq. cbn [zero Elems Spare map].
    destruct (ReadFull r 8) as [[l r1] [err|]]; [constructor|]. cbv zeta.
    destruct (Grow can_alloc e f [] [] (to_int (Uint64 l))) as [cells|err|p] eqn:EG;
      try constructor.
    apply Grow_fresh_cells in EG.
    pose proof (@decode_elems_unexported e (SliceIndex_flags f) IH
                  (firstn (Z.to_nat (to_int (Uint64 l))) cells) r1
                  (Forall_firstn _ EG)) as H.
    destruct (decode_elems can_alloc e (SliceIndex_flags f)
                (firstn (Z.to_nat (to_int (Uint64 l))) cells) r1) as [[ys r'] res].
    cbn [fst unexported_zero] in *. now rewrite Elems_with_cells.
  - rewrite decodeValue_array_eq. cbn [zero Elems].
    assert (Hz : Forall (fun c => c = zero e) (repeat (zero e) n)).
    { apply Forall_forall. intros c Hc. now apply repeat_spec in Hc. }
    pose proof (@decode_elems_unexported e (ArrayIndex_flags f) IH
                  (repeat (zero e) n) r Hz) as H.
    destruct (decode_elems can_alloc e (ArrayIndex_flags f) (repeat (zero e) n) r)
      as [[ys r'] res].
    exact H.
  - rewrite decodeValue_map_eq. cbn [zero].
    destruct (ReadFull r 8) as [[l r1] [err|]]; [constructor|].
    destruct (IsNil (VMap None) && negb (CanSet f)); [constructor|].
    assert (H : forall n es r,
               Forall (fun p => unexported_zero kt (fst p)
                                /\ unexported_zero et (snd p)) es ->
               Forall (fun p => unexported_zero kt (fst p)
                                /\ unexported_zero et (snd p))
                      (fst (fst (decode_pairs can_alloc kt et f n es r)))).
    { clear - IHk IHe. induction n as [|n IHn]; intros es r Hes; [exact Hes|].
      cbn [decode_pairs].
      pose proof (IHk New_Elem_flags r) as Hk.
      destruct (decodeValue can_alloc kt New_Elem_flags (zero kt) r)
        as [[key r1] [[]|err|p]]; cbn [fst] in *; try exact Hes.
      pose proof (IHe New_Elem_flags r1) as Hv.
      destruct (decodeValue can_alloc et New_Elem_flags (zero et) r1)
        as [[v r2] [[]|err|p]]; cbn [fst] in *; try exact Hes.
      destruct (ro f); [exact Hes|].
      apply IHn. apply SetMapIndex_Forall; [exact Hes|now split]. }
    specialize (H (Z.to_nat (Uint64 l)) [] r1 (Forall_nil _)).
    destruct (decode_pairs can_alloc kt et f (Z.to_nat (Uint64 l)) [] r1)
      as [[es r'] res].
    exact H.
Qed.

End FreshTarget.

(** C1, as the code has it. For every shape built from strings, signed and
    unsigned integers, structs, slices, arrays and maps whose keys are plain
    (an unexported struct field may be of any type), and every value of that
    shape: Encode returns bytes, and Decode of these bytes into a pointer to
    a zeroed target of the same shape succeeds and leaves in the target a
    value equal to the original field for field, where
    - the unexported fields are left out of the comparison, and are zero in
      the target;
    - slices are compared by their elements, not by their capacity: a nil
      slice and an empty one are not told apart, and an empty slice comes
      back nil;
    - maps are compared as sets of entries: a nil map and an empty one are
      not told apart, and a nil map comes back empty, not nil. *)
Theorem round_trip (mapKeys : list value -> list value)
    (can_alloc : type -> Z -> bool) (t : type) (x : value) (a : Z) :
  lists_the_keys mapKeys ->
  round_trip_shape t = true ->
  has_type t x ->
  allocatable can_alloc t x = true ->
  let fresh (t : type) := Some (TPointer t, VPointer (Some (a, zero t))) in
  let holding (t : type) (y : value) := Some (TPointer t, VPointer (Some (a, y))) in
  (exists b y,
      Encode mapKeys (Some (t, x)) = Ok b
      /\ Decode can_alloc b (fresh t) = (holding t y, Ok tt)
      /\ same_fields t x y
      /\ unexported_zero t y)
  /\ (exists b,
         Encode mapKeys (Some (TSlice TString, VSlice [] [])) = Ok b
         /\ Decode can_alloc b (fresh (TSlice TString))
            = (holding (TSlice TString) VNilSlice, Ok tt))
  /\ (exists b,
         Encode mapKeys (Some (TMap TString TString, VMap None)) = Ok b
         /\ Decode can_alloc b (fresh (TMap TString TString))
            = (holding (TMap TString TString) (VMap (Some [])), Ok tt)).
Proof.
  intros Hkeys Hs Hx Ha fresh holding. split; [|split].
  - destruct (@round_trip_all mapKeys can_alloc Hkeys t Hs x ValueOf_flags
                New_Elem_flags Hx Ha eq_refl eq_refl) as (b & y & E & D & S).
    exists b, y. split; [exact E|].
    specialize (D []). rewrite app_nil_r in D.
    split; [|split; [exact S|]].
    + unfold fresh, holding, Decode, ValueOf, DecodeValue. cbn [typ flags val].
      rewrite decodeValue_New, D. reflexivity.
    + pose proof (decodeValue_fresh_unexported can_alloc t New_Elem_flags b) as H.
      rewrite D in H. exact H.
  - exists (PutUint64 0). split; vm_compute; reflexivity.
  - exists (PutUint64 0). split; [|vm_compute; reflexivity].
    unfold Encode, ValueOf, EncodeValue. cbn [typ flags val].
    rewrite encodeValue_map_eq. cbn [Entries map].
    pose proof (Hkeys []) as Hnil. apply Permutation_sym, Permutation_nil in Hnil.
    rewrite Hnil. reflexivity.
Qed.

Lemma round_trip_witness :
  let mapKeys := @rev value in
  let can_alloc := fun (_ : type) n => n <=? 2 ^ 48 in
  let t := TStruct [(mkField "X" true false, TInt KInt32);
                    (mkField "y" false false, TOther KFloat64 false);
                    (mkField "M" true false,
                     TMap TString (TSlice (TUint KUint8)))] in
  let x := VStruct [VInt (-5); VBits 7;
                    VMap (Some [(VString [x61], VSlice [VUint 1; VUint 2] []);
                                (VString [x62], VSlice [] [])])] in
  let fresh (t : type) := Some (TPointer t, VPointer (Some (1, zero t))) in
  let holding (t : type) (y : value) := Some (TPointer t, VPointer (Some (1, y))) in
  (exists b y,
      Encode mapKeys (Some (t, x)) = Ok b
      /\ Decode can_alloc b (fresh t) = (holding t y, Ok tt)
      /\ same_fields t x y
      /\ unexported_zero t y)
  /\ (exists b,
         Encode mapKeys (Some (TSlice TString, VSlice [] [])) = Ok b
         /\ Decode can_alloc b (fresh (TSlice TString))
            = (holding (TSlice TString) VNilSlice, Ok tt))
  /\ (exists b,
         Encode mapKeys (Some (TMap TString TString, VMap None)) = Ok b
         /\ Decode can_alloc b (fresh (TMap TString TString))
            = (holding (TMap TString TString) (VMap (Some [])), Ok tt)).
Proof.
  intros mapKeys can_alloc t x.
  apply (@round_trip mapKeys can_alloc t x 1).
  - intros ks. apply Permutation_sym, Permutation_rev.
  - reflexivity.
  - unfold t, x. constructor. repeat constructor; simpl; lia.
  - reflexivity.
Defined.

(** C1 does not hold as stated, at every shape of the codec. A float64 is
    encoded to its 8 bytes, and decoding them into a fresh float64 fails and
    leaves the target at zero. A pointer to an int32 is encoded by
    binary.Write as the 4 bytes of the int32, and decoding them through a
    pointer to a fresh int32, which reads 8 bytes, fails. *)
Lemma round_trip_counterexample :
  let can_alloc := fun (_ : type) n => n <=? 2 ^ 48 in
  let mapKeys := fun ks : list value => ks in
  let float64 := TOther KFloat64 false in
  has_type float64 (VBits 4607182418800017408)
  /\ Encode mapKeys (Some (float64, VBits 4607182418800017408))
     = Ok [x00; x00; x00; x00; x00; x00; xf0; x3f]
  /\ Decode can_alloc [x00; x00; x00; x00; x00; x00; xf0; x3f]
       (Some (TPointer float64, VPointer (Some (1, zero float64))))
     = (Some (TPointer float64, VPointer (Some (1, VBits 0))), Err ErrBinaryRead)
  /\ ~ same_fields float64 (VBits 4607182418800017408) (VBits 0)
  /\ has_type (TPointer (TInt KInt32)) (VPointer (Some (1, VInt 7)))
  /\ Encode mapKeys (Some (TPointer (TInt KInt32), VPointer (Some (1, VInt 7))))
     = Ok [x07; x00; x00; x00]
  /\ Decode can_alloc [x07; x00; x00; x00]
       (Some (TPointer (TInt KInt32), VPointer (Some (2, zero (TInt KInt32)))))
     = (Some (TPointer (TInt KInt32), VPointer (Some (2, VInt 0))),
        Err ErrUnexpectedEOF).
Proof.
  intros can_alloc mapKeys float64.
  split; [constructor; lia|]. split; [vm_compute; reflexivity|].
  split; [vm_compute; reflexivity|].
  split; [intros H; inversion H|].
  split; [repeat constructor; simpl; lia|].
  split; vm_compute; reflexivity.
Qed.

(** * Further properties of the two procedures *)

(** ** The reader only advances *)

Lemma ReadFull_advances r n l r' e :
  ReadFull r n = (l, r', e) -> exists c, r = c ++ r'.
Proof.
  unfold ReadFull. destruct (n <=? 0).
  - intros H. injection H as <- <- <-. now exists [].
  - destruct r as [|b r].
    + intros H. injection H as <- <- <-. now exists [].
    + destruct (Z.of_nat (length (b :: r)) <? n); intros H; injection H as <- <- <-.
      * exists (b :: r). now rewrite app_nil_r.
      * exists (firstn (Z.to_nat n) (b :: r)). now rewrite firstn_skipn.
Qed.

Section Advances.

Variable can_alloc : type -> Z -> bool.

Lemma decodeValue_advances t :
  forall f x r,
    exists c, r = c ++ snd (fst (decodeValue can_alloc t f x r)).
Proof.
  induction t as [|fs IH|e IH|n e IH|kt et IHk IHe|k|k|e IH|k named] using type_induction;
    intros f x r.
  - cbn [decodeValue]. destruct (negb (CanSet f)); [now exists []|].
    destruct (ReadFull r 8) as [[l r1] [err|]] eqn:E1.
    + apply ReadFull_advances in E1. exact E1.
    + apply ReadFull_advances in E1. destruct E1 as [c1 ->]. cbv zeta.
      destruct (negb (make_bytes_ok can_alloc (Uint64 l))); [now exists c1|].
      destruct (ReadFull r1 (Uint64 l)) as [[l2 r2] [err|]] eqn:E2;
        apply ReadFull_advances in E2; destruct E2 as [c2 ->];
        exists (c1 ++ c2); now rewrite app_assoc.
  - rewrite decodeValue_struct_eq.
    assert (H : forall xs r, exists c,
               r = c ++ snd (fst (decode_fields can_alloc f fs xs r))).
    { clear x r. induction IH as [|[fd ft] fs Hft _ IHfs]; intros xs r.
      - now exists [].
      - destruct xs as [|y xs]; [now exists []|]. cbn [decode_fields].
        destruct (negb (CanInterface (Field_flags f fd))).
        + destruct (IHfs xs r) as [c Hc].
          destruct (decode_fields can_alloc f fs xs r) as [[ys r'] res].
          now exists c.
        + cbn [snd] in Hft.
          destruct (Hft (Field_flags f fd) y r) as [c1 Hc1].
          destruct (decodeValue can_alloc ft (Field_flags f fd) y r)
            as [[y' r1] [[]|err|p]]; cbn [fst snd] in Hc1; try now exists c1.
          destruct (IHfs xs r1) as [c2 Hc2].
          destruct (decode_fields can_alloc f fs xs r1) as [[ys r'] res].
          cbn [fst snd] in *. exists (c1 ++ c2). rewrite <- app_assoc. congruence. }
    destruct (H (Fields x) r) as [c Hc].
    destruct (decode_fields can_alloc f fs (Fields x) r) as [[ys r'] res].
    now exists c.
  - rewrite decodeValue_slice_eq.
    destruct (ReadFull r 8) as [[l r1] [err|]] eqn:E1;
      apply ReadFull_advances in E1; [exact E1|]. destruct E1 as [c1 ->]. cbv zeta.
    destruct (Grow can_alloc e f (map (fun _ => zero e) (Elems x)) (Spare x)
                (to_int (Uint64 l))) as [cells|err|p]; try now exists c1.
    assert (H : forall xs r, exists c,
               r = c ++ snd (fst (decode_elems can_alloc e (SliceIndex_flags f) xs r))).
    { clear - IH. induction xs as [|y xs IHxs]; intros r; [now exists []|].
      cbn [decode_elems]. destruct (IH (SliceIndex_flags f) y r) as [c1 Hc1].
      destruct (decodeValue can_alloc e (SliceIndex_flags f) y r)
        as [[y' r1] [[]|err|p]]; cbn [fst snd] in Hc1; try now exists c1.
      destruct (IHxs r1) as [c2 Hc2].
      destruct (decode_elems can_alloc e (SliceIndex_flags f) xs r1) as [[ys r'] res].
      cbn [fst snd] in *. exists (c1 ++ c2). rewrite <- app_assoc. congruence. }
    destruct (H (firstn (Z.to_nat (to_int (Uint64 l))) cells) r1) as [c2 Hc2].
    destruct (decode_elems can_alloc e (SliceIndex_flags f)
                (firstn (Z.to_nat (to_int (Uint64 l))) cells) r1) as [[ys r'] res].
    cbn [fst snd] in *. exists (c1 ++ c2). rewrite <- app_assoc. congruence.
  - rewrite decodeValue_array_eq.
    assert (H : forall xs r, exists c,
               r = c ++ snd (fst (decode_elems can_alloc e (ArrayIndex_flags f) xs r))).
    { clear - IH. induction xs as [|y xs IHxs]; intros r; [now exists []|].
      cbn [decode_elems]. destruct (IH (ArrayIndex_flags f) y r) as [c1 Hc1].
      destruct (decodeValue can_alloc e (ArrayIndex_flags f) y r)
        as [[y' r1] [[]|err|p]]; cbn [fst snd] in Hc1; try now exists c1.
      destruct (IHxs r1) as [c2 Hc2].
      destruct (decode_elems can_alloc e (ArrayIndex_flags f) xs r1) as [[ys r'] res].
      cbn [fst snd] in *. exists (c1 ++ c2). rewrite <- app_assoc. congruence. }
    destruct (H (Elems x) r) as [c Hc].
    destruct (decode_elems can_alloc e (ArrayIndex_flags f) (Elems x) r)
      as [[ys r'] res].
    now exists c.
  - rewrite decodeValue_map_eq.
    destruct (ReadFull r 8) as [[l r1] [err|]] eqn:E1;
      apply ReadFull_advances in E1; [exact E1|]. destruct E1 as [c1 ->].
    destruct (IsNil x && negb (CanSet f)); [now exists c1|].
    assert (H : forall n es r, exists c,
               r = c ++ snd (fst (decode_pairs can_alloc kt et f n es r))).
    { clear - IHk IHe. induction n as [|n IHn]; intros es r; [now exists []|].
      cbn [decode_pairs].
      destruct (IHk New_Elem_flags (zero kt) r) as [c1 Hc1].
      destruct (decodeValue can_alloc kt New_Elem_flags (zero kt) r)
        as [[key r1] [[]|err|p]]; cbn [fst snd] in Hc1; try now exists c1.
      destruct (IHe New_Elem_flags (zero et) r1) as [c2 Hc2].
      destruct (decodeValue can_alloc et New_Elem_flags (zero et) r1)
        as [[v r2] [[]|err|p]]; cbn [fst snd] in Hc2;
        try (exists (c1 ++ c2); rewrite <- app_assoc; cbn [fst snd]; congruence).
      destruct (ro f).
      - exists (c1 ++ c2). rewrite <- app_assoc. cbn [fst snd]. congruence.
      - destruct (IHn (SetMapIndex kt es key v) r2) as [c3 Hc3].
        exists (c1 ++ c2 ++ c3). rewrite <- !app_assoc. congruence. }
    destruct (H (Z.to_nat (Uint64 l)) (@nil (value * value)) r1) as [c2 Hc2].
    destruct (decode_pairs can_alloc kt et f (Z.to_nat (Uint64 l)) [] r1)
      as [[es r'] res].
    cbn [fst snd] in *. exists (c1 ++ c2). rewrite <- app_assoc. congruence.
  - cbn [decodeValue]. destruct (negb (CanSet f)); [now exists []|].
    destruct (ReadFull r 8) as [[l r1] [err|]] eqn:E1;
      apply ReadFull_advances in E1; exact E1.
  - cbn [decodeValue]. destruct (negb (CanSet f)); [now exists []|].
    destruct (ReadFull r 8) as [[l r1] [err|]] eqn:E1;
      apply ReadFull_advances in E1; exact E1.
  - cbn [decodeValue]. destruct x as [| | | | | | |[[a y]|]| | | |]; try now exists [].
    destruct (IH (Elem_flags f) y r) as [c Hc].
    destruct (decodeValue can_alloc e (Elem_flags f) y r) as [[y' r'] res].
    now exists c.
  - cbn [decodeValue]. destruct (negb (CanSet f)); [now exists []|].
    destruct (CanInterface f); [|now exists []].
    unfold binary_Read. destruct (intDataSize k named =? 0); [now exists []|].
    destruct (ReadFull r (intDataSize k named)) as [[l r1] [err|]] eqn:E1;
      apply ReadFull_advances in E1; exact E1.
Qed.

End Advances.

(** X1. Whatever the target, its flags and the outcome, the reader that
    DecodeValue leaves is a suffix of the reader it was given: bytes are
    consumed from the front, never put back and never skipped over. *)
Theorem DecodeValue_reader_advances (can_alloc : type -> Z -> bool)
    (r : reader) (v : option Value) :
  exists consumed, r = consumed ++ snd (fst (DecodeValue can_alloc r v)).
Proof.
  destruct v as [[t f x]|]; [|now exists []].
  cbn [DecodeValue typ flags val].
  destruct (decodeValue_advances can_alloc t f x r) as [c Hc].
  destruct (decodeValue can_alloc t f x r) as [[y r'] res].
  now exists c.
Qed.

(** ** Errors of the decoder on the handled kinds *)

Lemma Field_flags_settable f fd :
  CanSet f = true -> CanInterface (Field_flags f fd) = true ->
  CanSet (Field_flags f fd) = true.
Proof.
  intros Hs Hi. apply CanSet_flags in Hs. destruct Hs as [Ha _].
  apply CanInterface_flags in Hi. unfold CanSet. rewrite Hi.
  cbn [Field_flags flagAddr]. now rewrite Ha.
Qed.

Section DecoderErrors.

Variable can_alloc : type -> Z -> bool.

Lemma Grow_no_error e f es sp n err : Grow can_alloc e f es sp n <> Err err.
Proof.
  unfold Grow.
  repeat match goal with
         | |- context [if ?b then _ else _] => destruct b
         end; discriminate.
Qed.

(** Over a bytes.Reader, an error of the decoder on a settable target of the
    handled kinds is an end-of-stream error, and the reader is exhausted. *)
Lemma decodeValue_error_eof t :
  handled_kinds t = true ->
  forall f x r y r' e,
    CanSet f = true ->
    decodeValue can_alloc t f x r = (y, r', Err e) ->
    is_eof e = true /\ r' = [].
Proof.
  induction t as [|fs IH|e IH|n e IH|kt et IHk IHe|k|k|e _|k named] using type_induction;
    intros Ht f x r y r' err Hset; try discriminate Ht.
  - cbn [decodeValue]. rewrite Hset. cbn [negb].
    destruct (ReadFull r 8) as [[l r1] [e1|]] eqn:E1.
    + intros H. injection H as <- <- <-. eapply ReadFull_error, E1.
    + cbv zeta. destruct (negb (make_bytes_ok can_alloc (Uint64 l))); [discriminate|].
      destruct (ReadFull r1 (Uint64 l)) as [[l2 r2] [e2|]] eqn:E2; [|discriminate].
      intros H. injection H as <- <- <-. eapply ReadFull_error, E2.
  - rewrite decodeValue_struct_eq. cbn [handled_kinds] in Ht.
    destruct (decode_fields can_alloc f fs (Fields x) r) as [[ys rend] res] eqn:E.
    intros H. injection H as <- <- ->.
    revert Ht ys r E. generalize (Fields x).
    induction IH as [|[fd ft] fs Hft _ IHfs]; intros xs Ht ys r E; [discriminate E|].
    destruct xs as [|x0 xs]; [discriminate E|].
    apply andb_prop in Ht. destruct Ht as [Ht1 Ht2]. cbn [decode_fields] in E.
    destruct (CanInterface (Field_flags f fd)) eqn:Hi; cbn [negb] in E.
    + cbn [snd] in Hft.
      destruct (decodeValue can_alloc ft (Field_flags f fd) x0 r)
        as [[y' r1] [[]|e1|p]] eqn:E1.
      * destruct (decode_fields can_alloc f fs xs r1) as [[ys' r2] res] eqn:E2.
        injection E as <- <- ->. eapply IHfs; eauto.
      * injection E as <- <- <-.
        eapply (Hft Ht1); [|exact E1]. now apply Field_flags_settable.
      * discriminate E.
    + destruct (decode_fields can_alloc f fs xs r) as [[ys' r2] res] eqn:E2.
      injection E as <- <- ->. eapply IHfs; eauto.
  - rewrite decodeValue_slice_eq. cbn [handled_kinds] in Ht.
    destruct (ReadFull r 8) as [[l r1] [e1|]] eqn:E1.
    + intros H. injection H as <- <- <-. eapply ReadFull_error, E1.
    + cbv zeta.
      destruct (Grow can_alloc e f (map (fun _ => zero e) (Elems x)) (Spare x)
                  (to_int (Uint64 l))) as [cells|e2|p] eqn:EG.
      * destruct (decode_elems can_alloc e (SliceIndex_flags f)
                    (firstn (Z.to_nat (to_int (Uint64 l))) cells) r1)
          as [[ys rend] res] eqn:E.
        intros H. injection H as <- <- ->.
        destruct (Index_flags_ok f) as [_ Hif]. destruct (Hif Hset) as [Hs' _].
        clear E1 EG. revert ys r1 E.
        induction (firstn (Z.to_nat (to_int (Uint64 l))) cells) as [|x0 xs IHxs];
          intros ys r1 E; [discriminate E|].
        cbn [decode_elems] in E.
        destruct (decodeValue can_alloc e (SliceIndex_flags f) x0 r1)
          as [[y' r2] [[]|e1|p]] eqn:E1.
        -- destruct (decode_elems can_alloc e (SliceIndex_flags f) xs r2)
             as [[ys' r3] res] eqn:E2.
           injection E as <- <- ->. eapply IHxs; eauto.
        -- injection E as <- <- <-. eapply (IH Ht); eauto.
        -- discriminate E.
      * exfalso. eapply Grow_no_error, EG.
      * discriminate.
  - rewrite decodeValue_array_eq. cbn [handled_kinds] in Ht.
    destruct (decode_elems can_alloc e (ArrayIndex_flags f) (Elems x) r)
      as [[ys rend] res] eqn:E.
    intros H. injection H as <- <- ->.
    destruct (Index_flags_ok f) as [_ Hif]. destruct (Hif Hset) as [_ Hs'].
    revert ys r E.
    induction (Elems x) as [|x0 xs IHxs]; intros ys r E; [discriminate E|].
    cbn [decode_elems] in E.
    destruct (decodeValue can_alloc e (ArrayIndex_flags f) x0 r)
      as [[y' r1] [[]|e1|p]] eqn:E1.
    + destruct (decode_elems can_alloc e (ArrayIndex_flags f) xs r1)
        as [[ys' r3] res] eqn:E2.
      injection E as <- <- ->. eapply IHxs; eauto.
    + injection E as <- <- <-. eapply (IH Ht); eauto.
    + discriminate E.
  - rewrite decodeValue_map_eq. cbn [handled_kinds] in Ht.
    apply andb_prop in Ht. destruct Ht as [Ht Hte].
    apply andb_prop in Ht. destruct Ht as [Htk _].
    destruct (ReadFull r 8) as [[l r1] [e1|]] eqn:E1.
    + intros H. injection H as <- <- <-. eapply ReadFull_error, E1.
    + destruct (IsNil x && negb (CanSet f)); [discriminate|].
      destruct (decode_pairs can_alloc kt et f (Z.to_nat (Uint64 l)) [] r1)
        as [[es rend] res] eqn:E.
      intros H. injection H as <- <- ->.
      clear E1. revert es r1 E. generalize (@nil (value * value)).
      induction (Z.to_nat (Uint64 l)) as [|n IHn]; intros acc es r1 E;
        [discriminate E|].
      cbn [decode_pairs] in E.
      destruct (decodeValue can_alloc kt New_Elem_flags (zero kt) r1)
        as [[key r2] [[]|e1|p]] eqn:Ek.
      * destruct (decodeValue can_alloc et New_Elem_flags (zero et) r2)
          as [[v r3] [[]|e2|p]] eqn:Ev.
        -- destruct (ro f); [discriminate E|]. eapply IHn, E.
        -- injection E as <- <- <-. eapply (IHe Hte); [|exact Ev]. reflexivity.
        -- discriminate E.
      * injection E as <- <- <-. eapply (IHk Htk); [|exact Ek]. reflexivity.
      * discriminate E.
  - cbn [decodeValue]. rewrite Hset. cbn [negb].
    destruct (ReadFull r 8) as [[l r1] [e1|]] eqn:E1; [|discriminate].
    intros H. injection H as <- <- <-. eapply ReadFull_error, E1.
  - cbn [decodeValue]. rewrite Hset. cbn [negb].
    destruct (ReadFull r 8) as [[l r1] [e1|]] eqn:E1; [|discriminate].
    intros H. injection H as <- <- <-. eapply ReadFull_error, E1.
Qed.

End DecoderErrors.

(** X2. Decode reads from a bytes.Reader over the bytes it is given. When
    it is called with a pointer to a target built from the string, integer,
    struct, slice, array and map kinds only, every error it returns is an
    end-of-stream error (io.EOF or io.ErrUnexpectedEOF): an error always
    means that the bytes ran out, never that a nested value could not be
    set. *)
Theorem Decode_error_is_eof (can_alloc : type -> Z -> bool) (b : list byte)
    (t : type) (a : Z) (x : value) (a' : any) (e : error) :
  handled_kinds t = true ->
  Decode can_alloc b (Some (TPointer t, VPointer (Some (a, x)))) = (a', Err e) ->
  is_eof e = true.
Proof.
  intros Ht. unfold Decode, ValueOf, DecodeValue. cbn [typ flags val decodeValue].
  destruct (decodeValue can_alloc t (Elem_flags ValueOf_flags) x b)
    as [[y r1] res] eqn:E.
  cbn [typ val]. intros H. injection H as _ ->.
  eapply (@decodeValue_error_eof can_alloc t Ht); [|exact E]. reflexivity.
Qed.

Lemma Decode_error_is_eof_witness : is_eof ErrUnexpectedEOF = true.
Proof.
  apply (@Decode_error_is_eof (fun _ n => n <=? 2 ^ 48)
           [x02; x00; x00; x00; x00; x00; x00; x00;
            x07; x00; x00; x00; x00; x00; x00; x00; x01; x02]
           (TSlice (TInt KInt16)) 1 VNilSlice
           (Some (TPointer (TSlice (TInt KInt16)),
                  VPointer (Some (1, VSlice [VInt 7; VInt 0] []))))
           ErrUnexpectedEOF).
  - reflexivity.
  - vm_compute. reflexivity.
Defined.

(** ** Empty input *)

Section EmptyInput.

Variable can_alloc : type -> Z -> bool.

Lemma decodeValue_empty t :
  handled_kinds t = true ->
  forall f x,
    CanSet f = true -> has_type t x ->
    exists res,
      decodeValue can_alloc t f x [] = (x, [], res)
      /\ (res = Ok tt \/ res = Err EOF).
Proof.
  induction t as [|fs IH|e IH|n e IH|kt et IHk IHe|k|k|e _|k named] using type_induction;
    intros Ht f x Hset Hx; try discriminate Ht.
  - exists (Err EOF). cbn [decodeValue]. rewrite Hset. auto.
  - inversion Hx as [|fs' xs Hxs| | | | | | | | | | | | | | |]; subst.
    rewrite decodeValue_struct_eq. cbn [Fields handled_kinds] in *.
    assert (H : exists res,
               decode_fields can_alloc f fs xs [] = (xs, [], res)
               /\ (res = Ok tt \/ res = Err EOF)).
    { clear Hx. revert xs Hxs Ht.
      induction IH as [|[fd ft] fs Hft _ IHfs]; intros xs Hxs Ht.
      - inversion Hxs; subst. exists (Ok tt). auto.
      - inversion Hxs as [|p x0 fs' xs' Hx0 Hxs']; subst.
        apply andb_prop in Ht. destruct Ht as [Ht1 Ht2].
        destruct (IHfs xs' Hxs' Ht2) as (res & E & Hres).
        cbn [decode_fields snd] in *.
        destruct (CanInterface (Field_flags f fd)) eqn:Hi; cbn [negb].
        + destruct (Hft Ht1 (Field_flags f fd) x0
                      (Field_flags_settable f fd Hset Hi) Hx0) as (res0 & E0 & [->| ->]).
          * rewrite E0, E. eauto.
          * rewrite E0. eauto.
        + rewrite E. eauto. }
    destruct H as (res & -> & Hres). eauto.
  - exists (Err EOF). rewrite decodeValue_slice_eq. auto.
  - inversion Hx as [| | |n' e' xs Hlen Hxs| | | | | | | | | | | | |]; subst.
    rewrite decodeValue_array_eq. cbn [Elems handled_kinds] in *.
    destruct (Index_flags_ok f) as [_ Hif]. destruct (Hif Hset) as [_ Hs'].
    assert (H : exists res,
               decode_elems can_alloc e (ArrayIndex_flags f) xs [] = (xs, [], res)
               /\ (res = Ok tt \/ res = Err EOF)).
    { clear Hx. induction Hxs as [|x0 xs Hx0 _ IHxs]; [exists (Ok tt); auto|].
      destruct IHxs as (res & E & Hres). cbn [decode_elems].
      destruct (IH Ht (ArrayIndex_flags f) x0 Hs' Hx0) as (res0 & E0 & [->| ->]).
      - rewrite E0, E. eauto.
      - rewrite E0. eauto. }
    destruct H as (res & -> & Hres). eauto.
  - exists (Err EOF). rewrite decodeValue_map_eq. auto.
  - exists (Err EOF). cbn [decodeValue]. rewrite Hset. auto.
  - exists (Err EOF). cbn [decodeValue]. rewrite Hset. auto.
Qed.

End EmptyInput.

(** X3. Decoding from an empty input into a settable target built from the
    string, integer, struct, slice, array and map kinds never panics and
    never modifies the target: it returns nil when the shape asks for no
    byte at all, and io.EOF (not io.ErrUnexpectedEOF) otherwise. *)
Theorem DecodeValue_empty_input (can_alloc : type -> Z -> bool) (v : Value) :
  handled_kinds (typ v) = true ->
  CanSet (flags v) = true ->
  has_type (typ v) (val v) ->
  exists res,
    DecodeValue can_alloc [] (Some v) = (Some v, [], res)
    /\ (res = Ok tt \/ res = Err EOF).
Proof.
  destruct v as [t f x]. cbn [typ flags val DecodeValue]. intros Ht Hset Hx.
  destruct (@decodeValue_empty can_alloc t Ht f x Hset Hx) as (res & -> & Hres).
  eauto.
Qed.

Lemma DecodeValue_empty_input_witness :
  let v := mkValue (TStruct [(mkField "N" true false, TArray 2 (TInt KInt8));
                             (mkField "S" true false, TString)])
             New_Elem_flags (VStruct [VArray [VInt 1; VInt 2]; VString [x61]]) in
  exists res,
    DecodeValue (fun _ n => n <=? 2 ^ 48) [] (Some v) = (Some v, [], res)
    /\ (res = Ok tt \/ res = Err EOF).
Proof.
  intros v. apply (@DecodeValue_empty_input (fun _ n => n <=? 2 ^ 48) v).
  - reflexivity.
  - reflexivity.
  - unfold v. cbn [typ val]. repeat constructor; simpl; lia.
Defined.

(** ** Integers of different widths *)

Lemma mod_mod_pow2 (x a b : Z) :
  0 <= a <= b -> (x mod 2 ^ b) mod 2 ^ a = x mod 2 ^ a.
Proof.
  intros H. apply Z.mod_mod_divide.
  exists (2 ^ (b - a)). rewrite <- Z.pow_add_r by lia. f_equal. lia.
Qed.

(** X4. The wire format of integers does not depend on their width: a
    signed integer encoded from any signed kind decodes into a settable
    target of any signed kind as the value narrowed to the width of the
    target (the value itself when it fits), and into a target of any
    unsigned kind as its low-order bits. No overflow is reported. *)
Theorem integer_widths_interoperate (mapKeys : list value -> list value)
    (can_alloc : type -> Z -> bool) (k1 k2 : int_kind) (uk : uint_kind)
    (n : Z) (fe fd : flag) (x : value) (rest : list byte) :
  - 2 ^ (int_bits k1 - 1) <= n < 2 ^ (int_bits k1 - 1) ->
  CanSet fd = true ->
  exists b,
    EncodeValue mapKeys (Some (mkValue (TInt k1) fe (VInt n))) = Ok b
    /\ decodeValue can_alloc (TInt k2) fd x (b ++ rest)
       = (VInt (wrap_signed (int_bits k2) n), rest, Ok tt)
    /\ (- 2 ^ (int_bits k2 - 1) <= n < 2 ^ (int_bits k2 - 1) ->
        decodeValue can_alloc (TInt k2) fd x (b ++ rest) = (VInt n, rest, Ok tt))
    /\ decodeValue can_alloc (TUint uk) fd x (b ++ rest)
       = (VUint (n mod 2 ^ uint_bits uk), rest, Ok tt).
Proof.
  intros Hn Hset. pose proof (int_bits_pos k1) as Hk1.
  pose proof (int_bits_pos k2) as Hk2. pose proof (uint_bits_pos uk) as Hu.
  exists (PutUint64 (to_uint64 n)).
  assert (Hdec : decodeValue can_alloc (TInt k2) fd x (PutUint64 (to_uint64 n) ++ rest)
                 = (VInt (wrap_signed (int_bits k2) n), rest, Ok tt)).
  { cbn [decodeValue]. rewrite Hset. cbn [negb].
    rewrite ReadFull_PutUint64. cbv iota beta.
    rewrite Uint64_PutUint64_exact. unfold SetInt.
    rewrite to_int64_of_uint64 by (now apply (int_range_64 k1)). reflexivity. }
  split; [|split; [exact Hdec|split]].
  - cbn [EncodeValue encodeValue typ flags val Int].
    rewrite wrap_signed_small by lia. reflexivity.
  - intros Hn2. rewrite Hdec. rewrite wrap_signed_small by lia. reflexivity.
  - cbn [decodeValue]. rewrite Hset. cbn [negb].
    rewrite ReadFull_PutUint64. cbv iota beta.
    rewrite Uint64_PutUint64_exact. unfold SetUint, to_uint64, wrap_unsigned.
    rewrite Z.mod_mod by lia. rewrite mod_mod_pow2 by lia. reflexivity.
Qed.

Lemma integer_widths_interoperate_witness :
  exists b,
    EncodeValue (fun ks => ks) (Some (mkValue (TInt KInt32) ValueOf_flags (VInt (-2)))) = Ok b
    /\ decodeValue (fun _ n => n <=? 2 ^ 48) (TInt KInt8) New_Elem_flags (VInt 0) (b ++ [x2a])
       = (VInt (wrap_signed (int_bits KInt8) (-2)), [x2a], Ok tt)
    /\ (- 2 ^ (int_bits KInt8 - 1) <= -2 < 2 ^ (int_bits KInt8 - 1) ->
        decodeValue (fun _ n => n <=? 2 ^ 48) (TInt KInt8) New_Elem_flags (VInt 0) (b ++ [x2a])
        = (VInt (-2), [x2a], Ok tt))
    /\ decodeValue (fun _ n => n <=? 2 ^ 48) (TUint KUint16) New_Elem_flags (VInt 0) (b ++ [x2a])
       = (VUint ((-2) mod 2 ^ uint_bits KUint16), [x2a], Ok tt).
Proof.
  apply (@integer_widths_interoperate (fun ks => ks) (fun _ n => n <=? 2 ^ 48)
           KInt32 KInt8 KUint16 (-2) ValueOf_flags New_Elem_flags (VInt 0) [x2a]).
  - simpl. lia.
  - reflexivity.
Defined.

(** ** Arguments passed to Decode by value *)

(** X5. Decode needs a pointer: called with a string, an integer or a value
    of a default kind itself, it returns ErrCantSet whatever the bytes are,
    and leaves its argument as it was. *)
Theorem Decode_by_value_cannot_set (can_alloc : type -> Z -> bool)
    (b : list byte) (t : type) (x : value) :
  checks_settable_first t = true ->
  Decode can_alloc b (Some (t, x)) = (Some (t, x), Err ErrCantSet).
Proof.
  intros Ht. unfold Decode, ValueOf, DecodeValue. cbn [typ flags val].
  destruct t; try discriminate Ht; reflexivity.
Qed.

Lemma Decode_by_value_cannot_set_witness :
  Decode (fun _ n => n <=? 2 ^ 48) [x05; x00; x00; x00; x00; x00; x00; x00]
    (Some (TUint KUint8, VUint 0))
  = (Some (TUint KUint8, VUint 0), Err ErrCantSet).
Proof.
  apply (@Decode_by_value_cannot_set (fun _ n => n <=? 2 ^ 48)). reflexivity.
Defined.

(** X6. A slice target that is not settable is not rejected with
    ErrCantSet: once the 8 bytes of the count are read, v.Clear() has zeroed
    the elements of the slice, which the caller shares, and v.Grow panics.
    With fewer than 8 bytes the call returns an end-of-stream error and the
    slice is untouched. *)
Theorem DecodeValue_unsettable_slice (can_alloc : type -> Z -> bool)
    (e : type) (f : flag) (xs sp : list value) (r : reader) :
  CanSet f = false ->
  (8 <= Z.of_nat (length r) ->
   decodeValue can_alloc (TSlice e) f (VSlice xs sp) r
   = (VSlice (map (fun _ => zero e) xs) sp, skipn 8 r, Panic PanicNotAssignable))
  /\ (Z.of_nat (length r) < 8 ->
      exists err,
        decodeValue can_alloc (TSlice e) f (VSlice xs sp) r
        = (VSlice xs sp, [], Err err)
        /\ is_eof err = true).
Proof.
  intros Hset. split; intros Hr; rewrite decodeValue_slice_eq.
  - rewrite (@ReadFull_enough r 8) by lia. cbv iota beta zeta.
    cbn [Elems Spare]. unfold Grow. rewrite Hset. reflexivity.
  - destruct (@ReadFull_short r 8 Hr) as (l & err & -> & Herr). eauto.
Qed.

Lemma DecodeValue_unsettable_slice_witness :
  let r := [x01; x00; x00; x00; x00; x00; x00; x00; x09] in
  let xs := [VInt 4; VInt 5] in
  (8 <= Z.of_nat (length r) ->
   decodeValue (fun _ n => n <=? 2 ^ 48) (TSlice (TInt KInt)) ValueOf_flags
     (VSlice xs []) r
   = (VSlice (map (fun _ => zero (TInt KInt)) xs) [], skipn 8 r,
      Panic PanicNotAssignable))
  /\ (Z.of_nat (length r) < 8 ->
      exists err,
        decodeValue (fun _ n => n <=? 2 ^ 48) (TSlice (TInt KInt)) ValueOf_flags
          (VSlice xs []) r
        = (VSlice xs [], [], Err err)
        /\ is_eof err = true).
Proof.
  intros r xs.
  apply (@DecodeValue_unsettable_slice (fun _ n => n <=? 2 ^ 48) (TInt KInt)
           ValueOf_flags xs [] r).
  reflexivity.
Defined.

(** ** Maps passed to Decode by value *)

Section MapByValue.

Variable mapKeys : list value -> list value.
Variable can_alloc : type -> Z -> bool.
Hypothesis mapKeys_ok : lists_the_keys mapKeys.

Lemma plain_key_round_trip_shape kt :
  plain_key kt = true -> round_trip_shape kt = true.
Proof.
  induction kt as [|fs IH|e IH|n e IH|kt' et' _ _|k|k|e _|k named]
    using type_induction; intros Hp; try discriminate Hp; auto.
  cbn [plain_key round_trip_shape] in *.
  induction IH as [|[fd ft] fs Hft _ IHfs]; [reflexivity|].
  apply andb_prop in Hp. destruct Hp as [Hp Hp'].
  apply andb_prop in Hp. destruct Hp as [_ Hpt].
  cbn [snd] in Hft. apply andb_true_intro. split; [|now apply IHfs].
  rewrite (Hft Hpt). apply orb_true_r.
Qed.

(** The round trip of a map into a map target that holds [m0], under flags
    that allow [SetMapIndex] and, for a nil target, [Set]. *)
Lemma round_trip_map kt et fe fd x m0 :
  plain_key kt = true -> round_trip_shape et = true ->
  has_type (TMap kt et) x ->
  allocatable can_alloc (TMap kt et) x = true ->
  CanInterface fe = true -> ro fd = false ->
  IsNil (VMap m0) && negb (CanSet fd) = false ->
  exists b y,
    encodeValue mapKeys (TMap kt et) fe x = Ok b
    /\ (forall rest,
           decodeValue can_alloc (TMap kt et) fd (VMap m0) (b ++ rest)
           = (y, rest, Ok tt))
    /\ same_fields (TMap kt et) x y.
Proof.
  intros Hplain Hse Hx Ha Hfe Hro Hnil.
  destruct (has_type_map Hx) as ([m ->] & Hty & Hd & Hlen).
  cbn [allocatable] in Ha.
  pose proof (@plain_key_refl kt Hplain) as Hrefl.
  pose proof (mapKeys_ok (map fst (Entries (VMap m)))) as Hperm.
  destruct (@round_trip_pairs mapKeys can_alloc kt et fe fd (Entries (VMap m)) Hplain
              (@round_trip_all mapKeys can_alloc mapKeys_ok kt
                 (plain_key_round_trip_shape kt Hplain))
              (@round_trip_all mapKeys can_alloc mapKeys_ok et Hse)
              Hfe Hro Hty Hd Ha
              (mapKeys (map fst (Entries (VMap m)))))
    with (acc := @nil (value * value)) as (b & news & E & D & S).
  { apply (Permutation_NoDup (Permutation_sym Hperm)).
    now apply (@distinct_keys_NoDup kt). }
  { intros k. apply Permutation_in, Hperm. }
  { intros k0 k []. }
  exists (PutUint64 (to_uint64 (Z.of_nat (length (Entries (VMap m))))) ++ b),
         (VMap (Some news)).
  split; [|split].
  - rewrite encodeValue_map_eq, encode_pairs_buf, E. reflexivity.
  - intros rest. rewrite decodeValue_map_eq.
    rewrite <- app_assoc, ReadFull_PutUint64. cbv iota beta.
    rewrite Hnil. rewrite Uint64_PutUint64_exact.
    unfold to_uint64, wrap_unsigned. rewrite Z.mod_mod by lia.
    rewrite Z.mod_small by lia. rewrite Nat2Z.id.
    replace (length (Entries (VMap m)))
      with (length (mapKeys (map fst (Entries (VMap m))))).
    + rewrite D. reflexivity.
    + rewrite (Permutation_length Hperm). apply length_map.
  - apply S_Map
      with (es := map (fun k => (k, match MapIndex kt (Entries (VMap m)) k with
                                    | Some v => v
                                    | None => VBool false
                                    end))
                      (mapKeys (map fst (Entries (VMap m))))).
    + rewrite <- (@entries_by_key kt (Entries (VMap m)) Hrefl Hd) at 1.
      apply Permutation_map, Permutation_sym, Hperm.
    + change (Entries (VMap (Some news))) with news.
      clear D. revert S. generalize (mapKeys (map fst (Entries (VMap m)))).
      intros keys S.
      induction S as [|k q keys news' [Hk Hv] _ IH]; cbn [map]; constructor.
      * cbn [fst snd]. split; [symmetry; exact Hk|exact Hv].
      * exact IH.
Qed.

End MapByValue.

(** X7. A map need not be passed by pointer: maps are references, and
    Decode called with a non-nil map itself clears it and fills it with the
    entries of the encoded map (the round trip holds as through a pointer).
    Called with a nil map itself, Decode panics in v.Set once the count is
    read. *)
Theorem Decode_map_by_value (mapKeys : list value -> list value)
    (can_alloc : type -> Z -> bool) (kt et : type) (x : value)
    (m0 : list (value * value)) :
  lists_the_keys mapKeys ->
  plain_key kt = true -> round_trip_shape et = true ->
  has_type (TMap kt et) x ->
  allocatable can_alloc (TMap kt et) x = true ->
  exists b y,
    Encode mapKeys (Some (TMap kt et, x)) = Ok b
    /\ Decode can_alloc b (Some (TMap kt et, VMap (Some m0)))
       = (Some (TMap kt et, y), Ok tt)
    /\ same_fields (TMap kt et) x y
    /\ Decode can_alloc b (Some (TMap kt et, VMap None))
       = (Some (TMap kt et, VMap None), Panic PanicNotAssignable).
Proof.
  intros Hkeys Hplain Hse Hx Ha.
  destruct (@round_trip_map mapKeys can_alloc Hkeys kt et ValueOf_flags
              ValueOf_flags x (Some m0) Hplain Hse Hx Ha eq_refl eq_refl eq_refl)
    as (b & y & E & D & S).
  exists b, y. split; [exact E|]. split; [|split; [exact S|]].
  - unfold Decode, ValueOf, DecodeValue. cbn [typ flags val].
    specialize (D []). rewrite app_nil_r in D. rewrite D. reflexivity.
  - unfold Decode, ValueOf, DecodeValue. cbn [typ flags val].
    rewrite decodeValue_map_eq.
    specialize (D []). rewrite app_nil_r, decodeValue_map_eq in D.
    destruct (ReadFull b 8) as [[l r1] [err|]]; [discriminate D|].
    reflexivity.
Qed.

Lemma Decode_map_by_value_witness :
  let mapKeys := @rev value in
  let can_alloc := fun (_ : type) n => n <=? 2 ^ 48 in
  let kt := TString in
  let et := TInt KInt16 in
  let x := VMap (Some [(VString [x61], VInt 1); (VString [x62], VInt (-1))]) in
  let m0 := [(VString [x7a], VInt 9)] in
  exists b y,
    Encode mapKeys (Some (TMap kt et, x)) = Ok b
    /\ Decode can_alloc b (Some (TMap kt et, VMap (Some m0)))
       = (Some (TMap kt et, y), Ok tt)
    /\ same_fields (TMap kt et) x y
    /\ Decode can_alloc b (Some (TMap kt et, VMap None))
       = (Some (TMap kt et, VMap None), Panic PanicNotAssignable).
Proof.
  intros mapKeys can_alloc kt et x m0.
  apply (@Decode_map_by_value mapKeys can_alloc kt et x m0).
  - intros ks. apply Permutation_sym, Permutation_rev.
  - reflexivity.
  - reflexivity.
  - unfold x. repeat constructor; simpl; lia.
  - reflexivity.
Defined.

(** ** The encoder and addressability *)

Section EncoderFlags.

Variable mapKeys : list value -> list value.

(** The encoder reads the two read-only bits of the flags and nothing
    else. *)
Lemma encodeValue_flags t :
  forall f f' x,
    flagStickyRO f = flagStickyRO f' -> flagEmbedRO f = flagEmbedRO f' ->
    encodeValue mapKeys t f x = encodeValue mapKeys t f' x.
Proof.
  induction t as [|fs IH|e IH|n e IH|kt et IHk IHe|k|k|e _|k named] using type_induction;
    intros f f' x Hs He; try reflexivity.
  - rewrite !encodeValue_struct_eq. generalize (Fields x) (@nil byte).
    induction IH as [|[fd ft] fs Hft _ IHfs]; intros xs buf; [reflexivity|].
    destruct xs as [|y xs]; [reflexivity|]. cbn [encode_fields snd] in *.
    assert (EI : CanInterface (Field_flags f fd) = CanInterface (Field_flags f' fd)).
    { unfold CanInterface, flagRO, Field_flags. cbn. now rewrite Hs. }
    rewrite EI.
    rewrite (Hft (Field_flags f fd) (Field_flags f' fd) y)
      by (cbn; now rewrite ?Hs).
    destruct (negb (CanInterface (Field_flags f' fd))); [apply IHfs|].
    destruct (encodeValue mapKeys ft (Field_flags f' fd) y); try reflexivity.
    apply IHfs.
  - rewrite !encodeValue_slice_eq.
    generalize (PutUint64 (to_uint64 (Z.of_nat (length (Elems x))))).
    induction (Elems x) as [|y xs IHxs]; intros buf; [reflexivity|].
    cbn [encode_elems].
    rewrite (IH (SliceIndex_flags f) (SliceIndex_flags f') y)
      by (clear - Hs He; destruct f as [[] [] ?], f' as [[] [] ?]; cbn in *; congruence).
    destruct (encodeValue mapKeys e (SliceIndex_flags f') y); try reflexivity.
    apply IHxs.
  - rewrite !encodeValue_array_eq. generalize (@nil byte).
    induction (Elems x) as [|y xs IHxs]; intros buf; [reflexivity|].
    cbn [encode_elems].
    rewrite (IH (ArrayIndex_flags f) (ArrayIndex_flags f') y)
      by (clear - Hs He; destruct f as [[] [] ?], f' as [[] [] ?]; cbn in *; congruence).
    destruct (encodeValue mapKeys e (ArrayIndex_flags f') y); try reflexivity.
    apply IHxs.
  - rewrite !encodeValue_map_eq.
    generalize (PutUint64 (to_uint64 (Z.of_nat (length (Entries x))))).
    induction (mapKeys (map fst (Entries x))) as [|key keys IHkeys]; intros buf;
      [reflexivity|].
    cbn [encode_pairs].
    rewrite (IHk (MapKey_flags f) (MapKey_flags f') key)
      by (clear - Hs He; destruct f as [[] [] ?], f' as [[] [] ?]; cbn in *; congruence).
    destruct (encodeValue mapKeys kt (MapKey_flags f') key); try reflexivity.
    destruct (MapIndex kt (Entries x) key) as [y|]; try reflexivity.
    rewrite (IHe (MapIndex_flags f) (MapIndex_flags f') y)
      by (clear - Hs He; destruct f as [[] [] ?], f' as [[] [] ?]; cbn in *; congruence).
    destruct (encodeValue mapKeys et (MapIndex_flags f') y); try reflexivity.
    apply IHkeys.
  - cbn [encodeValue]. unfold CanInterface, flagRO. now rewrite Hs, He.
  - cbn [encodeValue]. unfold CanInterface, flagRO. now rewrite Hs, He.
Qed.

End EncoderFlags.

(** X8. The encoder does not look at addressability: two Values of the same
    value whose flags agree on the read-only bits encode alike. In
    particular EncodeValue on reflect.ValueOf(&x).Elem() returns what
    Encode(x) returns. *)
Theorem EncodeValue_ignores_addressability (mapKeys : list value -> list value)
    (t : type) (x : value) (f f' : flag) :
  flagStickyRO f = flagStickyRO f' ->
  flagEmbedRO f = flagEmbedRO f' ->
  EncodeValue mapKeys (Some (mkValue t f x)) = EncodeValue mapKeys (Some (mkValue t f' x))
  /\ EncodeValue mapKeys (Some (mkValue t (Elem_flags ValueOf_flags) x))
     = Encode mapKeys (Some (t, x)).
Proof.
  intros Hs He. split; cbn [EncodeValue Encode ValueOf typ flags val].
  - now apply encodeValue_flags.
  - now apply encodeValue_flags.
Qed.

Lemma EncodeValue_ignores_addressability_witness :
  let t := TSlice (TStruct [(mkField "A" true false, TInt KInt8);
                            (mkField "b" false false, TString)]) in
  let x := VSlice [VStruct [VInt 3; VString [x61]]] [] in
  let f := mkFlag false false true in
  let f' := mkFlag false false false in
  EncodeValue (fun ks => ks) (Some (mkValue t f x))
  = EncodeValue (fun ks => ks) (Some (mkValue t f' x))
  /\ EncodeValue (fun ks => ks) (Some (mkValue t (Elem_flags ValueOf_flags) x))
     = Encode (fun ks => ks) (Some (t, x)).
Proof.
  intros t x f f'.
  apply (@EncodeValue_ignores_addressability (fun ks => ks) t x f f'); reflexivity.
Defined.

(** X9. A slice is encoded as its element count followed by what the array
    of the same elements encodes to; the cells between its length and its
    capacity add nothing. A failure of the array is the failure of the
    slice. *)
Theorem slice_is_count_then_array (mapKeys : list value -> list value)
    (n : nat) (e : type) (f : flag) (xs sp : list value) :
  EncodeValue mapKeys (Some (mkValue (TSlice e) f (VSlice xs sp)))
  = match EncodeValue mapKeys (Some (mkValue (TArray n e) f (VArray xs))) with
    | Ok b => Ok (PutUint64 (Z.of_nat (length xs) mod 2 ^ 64) ++ b)
    | Err err => Err err
    | Panic p => Panic p
    end.
Proof.
  cbn [EncodeValue typ flags val].
  rewrite encodeValue_slice_eq, encodeValue_array_eq. cbn [Elems].
  rewrite encode_elems_buf.
  assert (E : forall buf,
             encode_elems mapKeys e (SliceIndex_flags f) xs buf
             = encode_elems mapKeys e (ArrayIndex_flags f) xs buf).
  { induction xs as [|y ys IH]; intros buf; [reflexivity|].
    cbn [encode_elems].
    rewrite (@encodeValue_flags mapKeys e (SliceIndex_flags f) (ArrayIndex_flags f) y)
      by reflexivity.
    destruct (encodeValue mapKeys e (ArrayIndex_flags f) y); try reflexivity.
    apply IH. }
  rewrite E. reflexivity.
Qed.

(** ** Shapes of fixed width *)

Section FixedWidth.

Variable mapKeys : list value -> list value.
Variable can_alloc : type -> Z -> bool.

Lemma encodeValue_fixed_width t :
  forall w f x,
    fixed_width t = Some w -> CanInterface f = true -> has_type t x ->
    exists b, encodeValue mapKeys t f x = Ok b /\ length b = w.
Proof.
  induction t as [|fs IH|e IH|n e IH|kt et _ _|k|k|e _|k named] using type_induction;
    intros w f x Hw Hf Hx; try discriminate Hw.
  - inversion Hx as [|fs' xs Hxs| | | | | | | | | | | | | | |]; subst.
    rewrite encodeValue_struct_eq. cbn [Fields fixed_width] in *.
    clear Hx. revert w xs Hxs Hw.
    induction IH as [|[fd ft] fs Hft _ IHfs]; intros w xs Hxs Hw.
    + inversion Hxs; subst. injection Hw as <-. now exists [].
    + inversion Hxs as [|p x0 fs' xs' Hx0 Hxs']; subst. cbn [snd] in *.
      destruct (fexported fd) eqn:Hexp.
      * destruct (fixed_width ft) as [w1|] eqn:W1; [|discriminate Hw].
        match type of Hw with
        | match ?s with _ => _ end = _ => destruct s as [w2|] eqn:W2; [|discriminate Hw]
        end.
        injection Hw as <-.
        destruct (Field_flags_exported f fd Hexp) as [Hi _].
        destruct (Hft w1 (Field_flags f fd) x0 eq_refl (Hi Hf) Hx0) as (b1 & E1 & L1).
        destruct (IHfs w2 xs' Hxs' eq_refl) as (b2 & E2 & L2).
        exists (b1 ++ b2). cbn [encode_fields]. rewrite (Hi Hf). cbn [negb].
        rewrite E1, encode_fields_buf, E2. split; [reflexivity|].
        rewrite length_app. lia.
      * match type of Hw with
        | match ?s with _ => _ end = _ => destruct s as [w2|] eqn:W2; [|discriminate Hw]
        end.
        injection Hw as <-.
        destruct (IHfs w2 xs' Hxs' eq_refl) as (b2 & E2 & L2).
        exists b2. cbn [encode_fields].
        rewrite (Field_flags_unexported f fd Hexp). cbn [negb]. auto.
  - inversion Hx as [| | |n' e' xs Hlen Hxs| | | | | | | | | | | | |]; subst.
    rewrite encodeValue_array_eq. cbn [Elems fixed_width] in *.
    destruct (fixed_width e) as [w1|] eqn:W1; [|discriminate Hw].
    injection Hw as <-.
    destruct (Index_flags_ok f) as [Hif _]. destruct (Hif Hf) as (_ & Hf' & _).
    clear Hx. induction Hxs as [|x0 xs Hx0 _ IHxs]; [now exists []|].
    destruct IHxs as (b2 & E2 & L2).
    destruct (IH w1 (ArrayIndex_flags f) x0 eq_refl Hf' Hx0) as (b1 & E1 & L1).
    exists (b1 ++ b2). cbn [encode_elems].
    rewrite E1, encode_elems_buf, E2. split; [reflexivity|].
    rewrite length_app. cbn [length]. lia.
  - injection Hw as <-. eexists. split; [reflexivity|]. apply length_PutUint64.
  - injection Hw as <-. eexists. split; [reflexivity|]. apply length_PutUint64.
Qed.

Lemma ReadFull_8 (r : reader) :
  (8 <= length r)%nat -> ReadFull r 8 = (firstn 8 r, skipn 8 r, None).
Proof. intros H. rewrite (@ReadFull_enough r 8) by lia. reflexivity. Qed.

Lemma ReadFull_8_short (r : reader) :
  (length r < 8)%nat ->
  exists l e, ReadFull r 8 = (l, [], Some e) /\ is_eof e = true.
Proof. intros H. apply ReadFull_short. lia. Qed.

(** With at least [w] bytes the decoder succeeds and consumes [w] of them;
    with fewer it fails at the end of the stream. *)
Lemma decodeValue_fixed_width t :
  forall w f x r,
    fixed_width t = Some w -> CanSet f = true -> has_type t x ->
    ((w <= length r)%nat ->
     exists y, decodeValue can_alloc t f x r = (y, skipn w r, Ok tt))
    /\ ((length r < w)%nat ->
        exists y e, decodeValue can_alloc t f x r = (y, [], Err e)
                    /\ is_eof e = true).
Proof.
  induction t as [|fs IH|e IH|n e IH|kt et _ _|k|k|e _|k named] using type_induction;
    intros w f x r Hw Hf Hx; try discriminate Hw.
  - inversion Hx as [|fs' xs Hxs| | | | | | | | | | | | | | |]; subst.
    rewrite decodeValue_struct_eq. cbn [Fields fixed_width] in *.
    assert (H : ((w <= length r)%nat ->
                 exists ys, decode_fields can_alloc f fs xs r = (ys, skipn w r, Ok tt))
                /\ ((length r < w)%nat ->
                    exists ys e, decode_fields can_alloc f fs xs r = (ys, [], Err e)
                                 /\ is_eof e = true)).
    { clear Hx. revert w xs r Hxs Hw.
      induction IH as [|[fd ft] fs Hft _ IHfs]; intros w xs r Hxs Hw.
      - inversion Hxs; subst. injection Hw as <-. split; intros H.
        + now exists [].
        + inversion H.
      - inversion Hxs as [|p x0 fs' xs' Hx0 Hxs']; subst. cbn [snd] in *.
        cbn [decode_fields].
        destruct (fexported fd) eqn:Hexp.
        + destruct (fixed_width ft) as [w1|] eqn:W1; [|discriminate Hw].
          match type of Hw with
          | match ?s with _ => _ end = _ =>
              destruct s as [w2|] eqn:W2; [|discriminate Hw]
          end.
          injection Hw as <-.
          destruct (Field_flags_exported f fd Hexp) as [_ Hs].
          assert (Hi : CanInterface (Field_flags f fd) = true).
          { specialize (Hs Hf). apply CanSet_flags in Hs. unfold CanInterface.
            now rewrite (proj2 Hs). }
          rewrite Hi. cbn [negb].
          destruct (Hft w1 (Field_flags f fd) x0 r eq_refl (Hs Hf) Hx0) as [Hok Hshort].
          destruct (Nat.le_gt_cases w1 (length r)) as [Hle|Hgt].
          * destruct (Hok Hle) as (y & ->).
            destruct (IHfs w2 xs' (skipn w1 r) Hxs' eq_refl) as [Hok2 Hshort2].
            split; intros H.
            -- destruct Hok2 as (ys & ->); [rewrite length_skipn; lia|].
               exists (y :: ys). rewrite skipn_skipn.
               now replace (w2 + w1)%nat with (w1 + w2)%nat by lia.
            -- destruct Hshort2 as (ys & e & -> & He); [rewrite length_skipn; lia|].
               exists (y :: ys), e. auto.
          * destruct (Hshort Hgt) as (y & e & -> & He).
            split; intros H; [lia|]. exists (y :: xs'), e. auto.
        + match type of Hw with
          | match ?s with _ => _ end = _ =>
              destruct s as [w2|] eqn:W2; [|discriminate Hw]
          end.
          injection Hw as <-.
          rewrite (Field_flags_unexported f fd Hexp). cbn [negb].
          destruct (IHfs w2 xs' r Hxs' eq_refl) as [Hok2 Hshort2].
          split; intros H.
          * destruct (Hok2 H) as (ys & ->). now exists (x0 :: ys).
          * destruct (Hshort2 H) as (ys & e & -> & He). exists (x0 :: ys), e. auto. }
    destruct H as [Hok Hshort]. split; intros H.
    + destruct (Hok H) as (ys & ->). eauto.
    + destruct (Hshort H) as (ys & e & -> & He). eauto.
  - inversion Hx as [| | |n' e' xs Hlen Hxs| | | | | | | | | | | | |]; subst.
    rewrite decodeValue_array_eq. cbn [Elems fixed_width] in *.
    destruct (fixed_width e) as [w1|] eqn:W1; [|discriminate Hw].
    injection Hw as <-.
    destruct (Index_flags_ok f) as [_ Hif]. destruct (Hif Hf) as (_ & Hf').
    assert (H : forall r,
               ((length xs * w1 <= length r)%nat ->
                exists ys, decode_elems can_alloc e (ArrayIndex_flags f) xs r
                           = (ys, skipn (length xs * w1) r, Ok tt))
               /\ ((length r < length xs * w1)%nat ->
                   exists ys err, decode_elems can_alloc e (ArrayIndex_flags f) xs r
                                  = (ys, [], Err err)
                                  /\ is_eof err = true)).
    { clear Hx r. induction Hxs as [|x0 xs Hx0 _ IHxs]; intros r.
      - split; intros H; [now exists []|inversion H].
      - cbn [decode_elems length].
        destruct (IH w1 (ArrayIndex_flags f) x0 r eq_refl Hf' Hx0) as [Hok Hshort].
        destruct (Nat.le_gt_cases w1 (length r)) as [Hle|Hgt].
        + destruct (Hok Hle) as (y & ->).
          destruct (IHxs (skipn w1 r)) as [Hok2 Hshort2].
          split; intros H.
          * destruct Hok2 as (ys & ->); [rewrite length_skipn; simpl in H; lia|].
            exists (y :: ys). rewrite skipn_skipn.
            now replace (length xs * w1 + w1)%nat with (S (length xs) * w1)%nat
              by (simpl; lia).
          * destruct Hshort2 as (ys & err & -> & He);
              [rewrite length_skipn; simpl in H; lia|].
            exists (y :: ys), err. auto.
        + destruct (Hshort Hgt) as (y & err & -> & He).
          split; intros H; [simpl in H; lia|]. exists (y :: xs), err. auto. }
    destruct (H r) as [Hok Hshort]. split; intros H'.
    + destruct (Hok H') as (ys & ->). eauto.
    + destruct (Hshort H') as (ys & err & -> & He). eauto.
  - injection Hw as <-. cbn [decodeValue]. rewrite Hf. cbn [negb]. split; intros H.
    + rewrite (ReadFull_8 r H). eauto.
    + destruct (ReadFull_8_short r H) as (l & err & -> & He). eauto.
  - injection Hw as <-. cbn [decodeValue]. rewrite Hf. cbn [negb]. split; intros H.
    + rewrite (ReadFull_8 r H). eauto.
    + destruct (ReadFull_8_short r H) as (l & err & -> & He). eauto.
Qed.

End FixedWidth.

(** X10. A value of a type built from integers, arrays and structs is
    always encoded to the same number of bytes, which the type alone gives:
    8 per integer reached through exported fields. *)
Theorem EncodeValue_fixed_width (mapKeys : list value -> list value)
    (t : type) (w : nat) (f : flag) (x : value) :
  fixed_width t = Some w ->
  CanInterface f = true ->
  has_type t x ->
  exists b, EncodeValue mapKeys (Some (mkValue t f x)) = Ok b /\ length b = w.
Proof.
  intros Hw Hf Hx. cbn [EncodeValue typ flags val].
  now apply encodeValue_fixed_width.
Qed.

Lemma EncodeValue_fixed_width_witness :
  let t := TStruct [(mkField "A" true false, TArray 3 (TInt KInt16));
                    (mkField "s" false false, TString);
                    (mkField "B" true false, TUint KUint8)] in
  let x := VStruct [VArray [VInt 1; VInt 2; VInt 3]; VString [x61]; VUint 9] in
  exists b,
    EncodeValue (fun ks => ks) (Some (mkValue t ValueOf_flags x)) = Ok b
    /\ length b = 32%nat.
Proof.
  intros t x.
  apply (@EncodeValue_fixed_width (fun ks => ks) t 32 ValueOf_flags x).
  - reflexivity.
  - reflexivity.
  - unfold t, x. repeat constructor; simpl; lia.
Defined.

(** X11. For a settable target of such a type of width [w], every input of
    at least [w] bytes is accepted: DecodeValue succeeds and consumes
    exactly the first [w] bytes. An input of fewer bytes makes it fail with
    an end-of-stream error, the reader exhausted. *)
Theorem DecodeValue_fixed_width (can_alloc : type -> Z -> bool) (w : nat)
    (v : Value) (r : reader) :
  fixed_width (typ v) = Some w ->
  CanSet (flags v) = true ->
  has_type (typ v) (val v) ->
  ((w <= length r)%nat ->
   exists y,
     DecodeValue can_alloc r (Some v)
     = (Some (mkValue (typ v) (flags v) y), skipn w r, Ok tt))
  /\ ((length r < w)%nat ->
      exists y e,
        DecodeValue can_alloc r (Some v)
        = (Some (mkValue (typ v) (flags v) y), [], Err e)
        /\ is_eof e = true).
Proof.
  destruct v as [t f x]. cbn [typ flags val DecodeValue]. intros Hw Hf Hx.
  destruct (@decodeValue_fixed_width can_alloc t w f x r Hw Hf Hx) as [Hok Hshort].
  split; intros H.
  - destruct (Hok H) as (y & ->). eauto.
  - destruct (Hshort H) as (y & e & -> & He). eauto.
Qed.

Lemma DecodeValue_fixed_width_witness :
  let v := mkValue (TArray 2 (TInt KInt8)) New_Elem_flags (VArray [VInt 0; VInt 0]) in
  let r := [x01; x00; x00; x00; x00; x00; x00; x00;
            xff; xff; xff; xff; xff; xff; xff; xff; x2a] in
  ((16 <= length r)%nat ->
   exists y,
     DecodeValue (fun _ n => n <=? 2 ^ 48) r (Some v)
     = (Some (mkValue (typ v) (flags v) y), skipn 16 r, Ok tt))
  /\ ((length r < 16)%nat ->
      exists y e,
        DecodeValue (fun _ n => n <=? 2 ^ 48) r (Some v)
        = (Some (mkValue (typ v) (flags v) y), [], Err e)
        /\ is_eof e = true).
Proof.
  intros v r.
  apply (@DecodeValue_fixed_width (fun _ n => n <=? 2 ^ 48) 16 v r).
  - reflexivity.
  - reflexivity.
  - unfold v. cbn [typ val]. repeat constructor; simpl; lia.
Defined.

(** ** The default kinds *)

(** X12. Decoding into a settable target of a default kind (bool, float,
    complex, uintptr) never succeeds, whatever the bytes: binary.Read
    receives a copy of the target instead of a pointer to it and rejects it
    (or the input ends first), and the target keeps its value. *)
Theorem DecodeValue_default_kind_fails (can_alloc : type -> Z -> bool)
    (r : reader) (k : other_kind) (named : bool) (f : flag) (x : value) :
  CanSet f = true ->
  exists r' e,
    DecodeValue can_alloc r (Some (mkValue (TOther k named) f x))
    = (Some (mkValue (TOther k named) f x), r', Err e)
    /\ (e = ErrBinaryRead \/ is_eof e = true)
    /\ (intDataSize k named = 0 -> r' = r /\ e = ErrBinaryRead).
Proof.
  intros Hset. unfold DecodeValue. cbn [typ flags val decodeValue].
  rewrite Hset. cbn [negb].
  assert (Hi : CanInterface f = true).
  { apply CanSet_flags in Hset. unfold CanInterface. now rewrite (proj2 Hset). }
  rewrite Hi. unfold binary_Read.
  destruct (intDataSize k named =? 0) eqn:E0.
  - exists r, ErrBinaryRead. auto.
  - apply Z.eqb_neq in E0.
    destruct (ReadFull r (intDataSize k named)) as [[l r'] [e|]] eqn:E.
    + apply ReadFull_error in E. destruct E as [E _].
      exists r', e. repeat split; auto; contradiction.
    + exists r', ErrBinaryRead. repeat split; auto; contradiction.
Qed.

Lemma DecodeValue_default_kind_fails_witness :
  exists r' e,
    DecodeValue (fun _ n => n <=? 2 ^ 48) [x01]
      (Some (mkValue (TOther KBool false) New_Elem_flags (VBool false)))
    = (Some (mkValue (TOther KBool false) New_Elem_flags (VBool false)), r', Err e)
    /\ (e = ErrBinaryRead \/ is_eof e = true)
    /\ (intDataSize KBool false = 0 -> r' = [x01] /\ e = ErrBinaryRead).
Proof.
  apply (@DecodeValue_default_kind_fails (fun _ n => n <=? 2 ^ 48) [x01] KBool false
           New_Elem_flags (VBool false)).
  reflexivity.
Defined.

Lemma quiet32_range (b : Z) : 0 <= b < 2 ^ 32 -> 0 <= quiet32 b < 2 ^ 32.
Proof.
  intros H. unfold quiet32.
  destruct (((b / 2 ^ 23) mod 2 ^ 8 =? 2 ^ 8 - 1) && negb (b mod 2 ^ 23 =? 0));
    [|exact H].
  assert (H0 : 0 <= Z.lor b (2 ^ 22)) by (apply Z.lor_nonneg; lia).
  split; [exact H0|].
  assert (Hne : Z.lor b (2 ^ 22) <> 0).
  { intros E. apply Z.lor_eq_0_iff in E. destruct E as [_ E]. discriminate E. }
  apply Z.log2_lt_pow2; [lia|].
  rewrite Z.log2_lor by lia. apply Z.max_lub_lt.
  - destruct (Z.eq_dec b 0) as [->|Hb]; [reflexivity|].
    apply Z.log2_lt_pow2; lia.
  - reflexivity.
Qed.

(** Only a NaN is touched: a finite number and an infinity keep their
    bits. *)
Lemma quiet32_not_nan (b : Z) :
  (b / 2 ^ 23) mod 2 ^ 8 <> 2 ^ 8 - 1 \/ b mod 2 ^ 23 = 0 -> quiet32 b = b.
Proof.
  intros [H|H]; unfold quiet32.
  - apply Z.eqb_neq in H. now rewrite H.
  - rewrite H. now rewrite andb_false_r.
Qed.

(** X13. Encoding a value of a default kind: an accessible bool, float or
    complex number is written by binary.Write in its native width (1, 4, 8,
    8 and 16 bytes), a float as the little-endian bytes of its bits; an
    accessible uintptr makes the encoder fail; a value that is not
    accessible (reached through an unexported field) is encoded to nothing,
    without error. The bits of a float are written as they are, with one
    exception: a float32 of a named type goes through the reflection path of
    binary.Write, where a signalling NaN comes out quiet; every other
    float32 keeps its bits there too. *)
Theorem EncodeValue_default_kind (mapKeys : list value -> list value)
    (k : other_kind) (named : bool) (f : flag) (x : value) :
  has_type (TOther k named) x ->
  let res := EncodeValue mapKeys (Some (mkValue (TOther k named) f x)) in
  (CanInterface f = false -> res = Ok [])
  /\ (CanInterface f = true ->
      match other_size k with
      | Some w => exists b, res = Ok b /\ length b = w
      | None => res = Err ErrBinaryWrite
      end)
  /\ (CanInterface f = true ->
      forall bits, x = VBits bits -> k <> KUintptr ->
      exists b,
        res = Ok b
        /\ le_value b = match k, named with
                        | KFloat32, true => quiet32 bits
                        | _, _ => bits
                        end)
  /\ (forall bits,
         (bits / 2 ^ 23) mod 2 ^ 8 <> 2 ^ 8 - 1 \/ bits mod 2 ^ 23 = 0 ->
         quiet32 bits = bits)
  /\ Encode mapKeys (Some (TOther KFloat32 false, VBits 2139095041))
     = Ok [x01; x00; x80; x7f]
  /\ Encode mapKeys (Some (TOther KFloat32 true, VBits 2139095041))
     = Ok [x01; x00; xc0; x7f].
Proof.
  intros Hx res. unfold res. cbn [EncodeValue encodeValue typ flags val].
  split; [intros ->; reflexivity|].
  split; [|split; [|split; [exact quiet32_not_nan|split; vm_compute; reflexivity]]];
    intros ->.
  - inversion Hx; subst; destruct named; unfold binary_Write, reflect_Write;
      cbn [fast_path fast_value Indirect dataSize sizeof other_size binary_value];
      try reflexivity; eexists; (split; [reflexivity|]);
      rewrite ?length_app, ?length_le_bytes; try reflexivity;
      destruct b; reflexivity.
  - intros bits -> Hk.
    inversion Hx as [| | | | | | | | | | |nm b Hb|nm b Hb| | |nm b Hb|]; subst;
      try contradiction; destruct named; unfold binary_Write, reflect_Write;
      cbn [fast_path fast_value Indirect dataSize sizeof other_size binary_value];
      eexists; (split; [reflexivity|]);
      rewrite le_value_le_bytes; apply Z.mod_small;
      try (apply quiet32_range); simpl; lia.
Qed.

Lemma EncodeValue_default_kind_witness :
  let mapKeys := fun ks : list value => ks in
  let res := EncodeValue mapKeys
               (Some (mkValue (TOther KFloat32 true) ValueOf_flags (VBits 2143289345))) in
  (CanInterface ValueOf_flags = false -> res = Ok [])
  /\ (CanInterface ValueOf_flags = true ->
      match other_size KFloat32 with
      | Some w => exists b, res = Ok b /\ length b = w
      | None => res = Err ErrBinaryWrite
      end)
  /\ (CanInterface ValueOf_flags = true ->
      forall bits, VBits 2143289345 = VBits bits -> KFloat32 <> KUintptr ->
      exists b,
        res = Ok b
        /\ le_value b = match KFloat32, true with
                        | KFloat32, true => quiet32 bits
                        | _, _ => bits
                        end)
  /\ (forall bits,
         (bits / 2 ^ 23) mod 2 ^ 8 <> 2 ^ 8 - 1 \/ bits mod 2 ^ 23 = 0 ->
         quiet32 bits = bits)
  /\ Encode mapKeys (Some (TOther KFloat32 false, VBits 2139095041))
     = Ok [x01; x00; x80; x7f]
  /\ Encode mapKeys (Some (TOther KFloat32 true, VBits 2139095041))
     = Ok [x01; x00; xc0; x7f].
Proof.
  intros mapKeys.
  apply (@EncodeValue_default_kind mapKeys KFloat32 true ValueOf_flags
           (VBits 2143289345)).
  constructor. lia.
Defined.

(** ** Pointers inside slices *)

(** X14. The decoder never allocates what a pointer refers to. A settable
    slice of pointers without spare capacity cannot be decoded into: for
    every input that holds the 8 bytes of a count other than zero, the call
    panics (in Grow, or on the nil pointer of the first cell), having
    consumed the count only. *)
Theorem DecodeValue_slice_of_pointers_panics (can_alloc : type -> Z -> bool)
    (e : type) (f : flag) (xs : list value) (r : reader) :
  CanSet f = true ->
  8 <= Z.of_nat (length r) ->
  Uint64 r <> 0 ->
  exists y p,
    decodeValue can_alloc (TSlice (TPointer e)) f (VSlice xs []) r
    = (y, skipn 8 r, Panic p).
Proof.
  intros Hset Hr Hn. rewrite decodeValue_slice_eq.
  rewrite (@ReadFull_enough r 8) by lia. cbv iota beta zeta.
  change (Z.to_nat 8) with 8%nat. cbn [Elems Spare].
  assert (EU : Uint64 (firstn 8 r) = Uint64 r).
  { unfold Uint64. now rewrite firstn_firstn. }
  rewrite EU. pose proof (Uint64_range r) as Hrange.
  set (cleared := map (fun _ => zero (TPointer e)) xs).
  set (n := to_int (Uint64 r)).
  destruct (Grow can_alloc (TPointer e) f cleared [] n) as [cells|err|p] eqn:EG.
  - assert (Hpos : 0 < n).
    { unfold Grow in EG. rewrite Hset in EG. cbn [negb] in EG.
      destruct (n <? 0) eqn:E0; [discriminate EG|]. apply Z.ltb_ge in E0.
      assert (n <> 0); [|lia].
      unfold n, to_int, wrap_signed. change (64 - 1) with 63.
      intros H0.
      destruct (Z_lt_ge_dec (Uint64 r) (2 ^ 63)) as [Hlt|Hge].
      - rewrite Z.mod_small in H0 by lia. lia.
      - replace (Uint64 r + 2 ^ 63) with ((Uint64 r - 2 ^ 63) + 1 * 2 ^ 64) in H0 by lia.
        rewrite Z.mod_add in H0 by lia. rewrite Z.mod_small in H0 by lia. lia. }
    assert (Hcells : exists cs, firstn (Z.to_nat n) cells = VPointer None :: cs).
    { unfold Grow in EG. rewrite Hset in EG. cbn [negb] in EG.
      destruct (n <? 0); [discriminate EG|].
      destruct (2 ^ 63 <=? Z.of_nat (length cleared) + n); [discriminate EG|].
      cbn [length] in EG. rewrite Z.add_0_r in EG.
      destruct (Z.of_nat (length cleared) <? Z.of_nat (length cleared) + n) eqn:Ec.
      - destruct (can_alloc (TPointer e) (Z.of_nat (length cleared) + n));
          [|discriminate EG].
        injection EG as <-.
        replace (Z.of_nat (length cleared) + n - Z.of_nat (length cleared)) with n by lia.
        destruct (Z.to_nat n) as [|m] eqn:Em; [lia|].
        destruct cleared as [|c cs] eqn:Ecl.
        + cbn [app repeat firstn zero]. eauto.
        + assert (c = VPointer None).
          { unfold cleared in Ecl. destruct xs; [discriminate Ecl|].
            cbn [map zero] in Ecl. now injection Ecl as <- _. }
          subst c. cbn [app firstn]. eauto.
      - apply Z.ltb_ge in Ec. lia. }
    destruct Hcells as [cs ->]. cbn [decode_elems decodeValue]. eauto.
  - exfalso. eapply Grow_no_error, EG.
  - eauto.
Qed.

Lemma DecodeValue_slice_of_pointers_panics_witness :
  exists y p,
    decodeValue (fun _ n => n <=? 2 ^ 48) (TSlice (TPointer (TInt KInt))) New_Elem_flags
      (VSlice [] []) [x01; x00; x00; x00; x00; x00; x00; x00; x07]
    = (y, skipn 8 [x01; x00; x00; x00; x00; x00; x00; x00; x07], Panic p).
Proof.
  apply (@DecodeValue_slice_of_pointers_panics (fun _ n => n <=? 2 ^ 48) (TInt KInt)
           New_Elem_flags [] [x01; x00; x00; x00; x00; x00; x00; x00; x07]).
  - reflexivity.
  - simpl. lia.
  - vm_compute. discriminate.
Defined.

(** ** Framing *)

Lemma allocatable_always t :
  forall x, allocatable (fun _ _ => true) t x = true.
Proof.
  induction t as [|fs IH|e IH|n e IH|kt et IHk IHe|k|k|e _|k named] using type_induction;
    intros x; try reflexivity.
  - cbn [allocatable]. generalize (Fields x).
    induction IH as [|[fd ft] fs Hft _ IHfs]; intros xs; [reflexivity|].
    destruct xs as [|y xs]; [reflexivity|]. cbn [snd] in Hft.
    rewrite (Hft y), orb_true_r. apply IHfs.
  - cbn [allocatable]. rewrite orb_true_r. cbn [andb].
    apply forallb_forall. intros y _. apply IH.
  - cbn [allocatable]. apply forallb_forall. intros y _. apply IH.
  - cbn [allocatable]. apply forallb_forall. intros [k v] _. cbn [fst snd].
    now rewrite IHk, IHe.
Qed.

(** X15. The decoder consumes exactly the bytes of an encoding and leaves
    what follows in the reader, so values written one after the other are
    read back one after the other; Decode, which drops its reader, ignores
    any bytes after the encoding without reporting them. *)
Theorem DecodeValue_leaves_the_rest (mapKeys : list value -> list value)
    (can_alloc : type -> Z -> bool) (t : type) (x : value) (f : flag) (a : Z) :
  lists_the_keys mapKeys ->
  round_trip_shape t = true ->
  has_type t x ->
  allocatable can_alloc t x = true ->
  CanSet f = true ->
  exists b y,
    Encode mapKeys (Some (t, x)) = Ok b
    /\ same_fields t x y
    /\ forall rest,
         DecodeValue can_alloc (b ++ rest) (Some (mkValue t f (zero t)))
         = (Some (mkValue t f y), rest, Ok tt)
         /\ Decode can_alloc (b ++ rest)
              (Some (TPointer t, VPointer (Some (a, zero t))))
            = (Some (TPointer t, VPointer (Some (a, y))), Ok tt).
Proof.
  intros Hkeys Hs Hx Ha Hf.
  assert (Ef : f = New_Elem_flags).
  { destruct f as [[|] [|] [|]]; try discriminate Hf; reflexivity. }
  subst f.
  destruct (@round_trip_all mapKeys can_alloc Hkeys t Hs x ValueOf_flags
              New_Elem_flags Hx Ha eq_refl eq_refl) as (b & y & E & D & S).
  exists b, y. split; [exact E|]. split; [exact S|]. intros rest. split.
  - cbn [DecodeValue typ flags val]. rewrite D. reflexivity.
  - unfold Decode, ValueOf, DecodeValue. cbn [typ flags val].
    rewrite decodeValue_New, D. reflexivity.
Qed.

Lemma DecodeValue_leaves_the_rest_witness :
  let mapKeys := fun ks : list value => ks in
  let can_alloc := fun (_ : type) n => n <=? 2 ^ 48 in
  let t := TSlice TString in
  let x := VSlice [VString [x61; x62]; VString []] [] in
  exists b y,
    Encode mapKeys (Some (t, x)) = Ok b
    /\ same_fields t x y
    /\ forall rest,
         DecodeValue can_alloc (b ++ rest) (Some (mkValue t New_Elem_flags (zero t)))
         = (Some (mkValue t New_Elem_flags y), rest, Ok tt)
         /\ Decode can_alloc (b ++ rest)
              (Some (TPointer t, VPointer (Some (1, zero t))))
            = (Some (TPointer t, VPointer (Some (1, y))), Ok tt).
Proof.
  intros mapKeys can_alloc t x.
  apply (@DecodeValue_leaves_the_rest mapKeys can_alloc t x New_Elem_flags 1).
  - intros ks. apply Permutation_refl.
  - reflexivity.
  - unfold t, x. repeat constructor; simpl; lia.
  - reflexivity.
  - reflexivity.
Defined.

(** X16. No encoding is a proper prefix of another one of the same shape:
    if the encoding of a value starts with the encoding of another value of
    that shape, the two encodings are the same bytes. A reader can therefore
    tell where a value ends without any delimiter. *)
Theorem Encode_prefix_free (mapKeys : list value -> list value) (t : type)
    (x y : value) (b s : list byte) :
  lists_the_keys mapKeys ->
  round_trip_shape t = true ->
  has_type t x -> has_type t y ->
  Encode mapKeys (Some (t, x)) = Ok b ->
  Encode mapKeys (Some (t, y)) = Ok (b ++ s) ->
  s = [].
Proof.
  intros Hkeys Hs Hx Hy Ex Ey.
  destruct (@round_trip_all mapKeys (fun _ _ => true) Hkeys t Hs x ValueOf_flags
              New_Elem_flags Hx (allocatable_always t x) eq_refl eq_refl)
    as (b1 & x' & E1 & D1 & _).
  destruct (@round_trip_all mapKeys (fun _ _ => true) Hkeys t Hs y ValueOf_flags
              New_Elem_flags Hy (allocatable_always t y) eq_refl eq_refl)
    as (b2 & y' & E2 & D2 & _).
  unfold Encode, ValueOf, EncodeValue in Ex, Ey. cbn [typ flags val] in Ex, Ey.
  rewrite Ex in E1. injection E1 as <-.
  rewrite Ey in E2. injection E2 as <-.
  specialize (D1 s). specialize (D2 []). rewrite app_nil_r in D2.
  rewrite D1 in D2. now injection D2 as _ ->.
Qed.

Lemma Encode_prefix_free_witness : @nil byte = [].
Proof.
  apply (@Encode_prefix_free (fun ks => ks) (TSlice (TUint KUint8))
           (VSlice [VUint 1] []) (VSlice [VUint 1] [VUint 9])
           [x01; x00; x00; x00; x00; x00; x00; x00;
            x01; x00; x00; x00; x00; x00; x00; x00] []).
  - intros ks. apply Permutation_refl.
  - reflexivity.
  - repeat constructor; simpl; lia.
  - repeat constructor; simpl; lia.
  - vm_compute. reflexivity.
  - vm_compute. reflexivity.
Defined.

(** X17. The encoding tells values apart. Two values of a round-trip shape
    with the same encoding are equal field for field to one and the same
    decoded value; at a plain type (strings, integers, arrays and structs
    of those with every field exported) they are the same value. *)
Theorem Encode_injective (mapKeys : list value -> list value) (t : type)
    (x y : value) :
  lists_the_keys mapKeys ->
  round_trip_shape t = true ->
  has_type t x -> has_type t y ->
  Encode mapKeys (Some (t, x)) = Encode mapKeys (Some (t, y)) ->
  (exists z, same_fields t x z /\ same_fields t y z)
  /\ (plain_key t = true -> x = y).
Proof.
  intros Hkeys Hs Hx Hy E.
  destruct (@round_trip_all mapKeys (fun _ _ => true) Hkeys t Hs x ValueOf_flags
              New_Elem_flags Hx (allocatable_always t x) eq_refl eq_refl)
    as (b1 & x' & E1 & D1 & S1).
  destruct (@round_trip_all mapKeys (fun _ _ => true) Hkeys t Hs y ValueOf_flags
              New_Elem_flags Hy (allocatable_always t y) eq_refl eq_refl)
    as (b2 & y' & E2 & D2 & S2).
  unfold Encode, ValueOf, EncodeValue in E. cbn [typ flags val] in E.
  rewrite E1, E2 in E. injection E as <-.
  specialize (D1 []). specialize (D2 []). rewrite D1 in D2. injection D2 as <-.
  split; [exists x'; auto|].
  intros Hp.
  rewrite (@same_fields_plain t Hp x x' Hx S1).
  now rewrite (@same_fields_plain t Hp y x' Hy S2).
Qed.

Lemma Encode_injective_witness :
  let t := TSlice (TInt KInt8) in
  let x := VSlice [VInt 1] [] in
  let y := VSlice [VInt 1] [VInt 5] in
  (exists z, same_fields t x z /\ same_fields t y z)
  /\ (plain_key t = true -> x = y).
Proof.
  intros t x y.
  apply (@Encode_injective (fun ks => ks) t x y).
  - intros ks. apply Permutation_refl.
  - reflexivity.
  - unfold t, x. repeat constructor; simpl; lia.
  - unfold t, y. repeat constructor; simpl; lia.
  - vm_compute. reflexivity.
Defined.

(** ** Keys that come twice *)

(** X18. The count of a map is not the number of entries it ends with: when
    the input holds the same key twice, the second pair overwrites the
    first, and the decoded map has one entry, with the later element. *)
Theorem DecodeValue_duplicate_key (mapKeys : list value -> list value)
    (can_alloc : type -> Z -> bool) (kt et : type) (k v1 v2 : value)
    (f : flag) (m0 : option (list (value * value))) :
  lists_the_keys mapKeys ->
  plain_key kt = true -> round_trip_shape et = true ->
  has_type kt k -> has_type et v1 -> has_type et v2 ->
  allocatable can_alloc kt k = true ->
  allocatable can_alloc et v1 = true ->
  allocatable can_alloc et v2 = true ->
  CanSet f = true ->
  exists bk b1 b2 v2',
    Encode mapKeys (Some (kt, k)) = Ok bk
    /\ Encode mapKeys (Some (et, v1)) = Ok b1
    /\ Encode mapKeys (Some (et, v2)) = Ok b2
    /\ same_fields et v2 v2'
    /\ forall rest,
         DecodeValue can_alloc (PutUint64 2 ++ bk ++ b1 ++ bk ++ b2 ++ rest)
           (Some (mkValue (TMap kt et) f (VMap m0)))
         = (Some (mkValue (TMap kt et) f (VMap (Some [(k, v2')]))), rest, Ok tt).
Proof.
  intros Hkeys Hplain Hse Hk Hv1 Hv2 Hak Ha1 Ha2 Hset.
  pose proof (@round_trip_all mapKeys can_alloc Hkeys kt
                (plain_key_round_trip_shape kt Hplain)) as Rk.
  pose proof (@round_trip_all mapKeys can_alloc Hkeys et Hse) as Re.
  destruct (Rk k ValueOf_flags New_Elem_flags Hk Hak eq_refl eq_refl)
    as (bk & k' & Ek & Dk & Sk).
  apply (@same_fields_plain kt Hplain k k' Hk) in Sk. subst k'.
  destruct (Re v1 ValueOf_flags New_Elem_flags Hv1 Ha1 eq_refl eq_refl)
    as (b1 & v1' & E1 & D1 & S1).
  destruct (Re v2 ValueOf_flags New_Elem_flags Hv2 Ha2 eq_refl eq_refl)
    as (b2 & v2' & E2 & D2 & S2).
  exists bk, b1, b2, v2'. repeat split; try assumption.
  intros rest. cbn [DecodeValue typ flags val].
  rewrite decodeValue_map_eq, ReadFull_PutUint64. cbv iota beta.
  rewrite Hset. rewrite andb_false_r.
  change (Z.to_nat (Uint64 (PutUint64 2))) with 2%nat.
  assert (Hro : ro f = false) by (apply CanSet_flags in Hset; apply Hset).
  cbn [decode_pairs]. rewrite Dk. cbv iota beta. rewrite D1. cbv iota beta.
  rewrite Hro. cbn [SetMapIndex]. rewrite Dk. cbv iota beta.
  rewrite D2. cbv iota beta. cbn [SetMapIndex].
  rewrite (@plain_key_refl kt Hplain k). reflexivity.
Qed.

Lemma DecodeValue_duplicate_key_witness :
  let mapKeys := fun ks : list value => ks in
  let can_alloc := fun (_ : type) n => n <=? 2 ^ 48 in
  let kt := TString in
  let et := TInt KInt8 in
  let k := VString [x6b] in
  exists bk b1 b2 v2',
    Encode mapKeys (Some (kt, k)) = Ok bk
    /\ Encode mapKeys (Some (et, VInt 1)) = Ok b1
    /\ Encode mapKeys (Some (et, VInt 2)) = Ok b2
    /\ same_fields et (VInt 2) v2'
    /\ forall rest,
         DecodeValue can_alloc (PutUint64 2 ++ bk ++ b1 ++ bk ++ b2 ++ rest)
           (Some (mkValue (TMap kt et) New_Elem_flags (VMap None)))
         = (Some (mkValue (TMap kt et) New_Elem_flags (VMap (Some [(k, v2')]))),
            rest, Ok tt).
Proof.
  intros mapKeys can_alloc kt et k.
  apply (@DecodeValue_duplicate_key mapKeys can_alloc kt et k (VInt 1) (VInt 2)
           New_Elem_flags None).
  - intros ks. apply Permutation_refl.
  - reflexivity.
  - reflexivity.
  - repeat constructor; simpl; lia.
  - repeat constructor; simpl; lia.
  - repeat constructor; simpl; lia.
  - reflexivity.
  - reflexivity.
  - reflexivity.
  - reflexivity.
Defined.

(** ** The round trip into a target that already holds a value *)

Lemma has_type_zero t : has_type t (zero t).
Proof.
  induction t as [|fs IH|e IH|n e IH|kt et _ _|k|k|e _|k named] using type_induction.
  - constructor. simpl. lia.
  - cbn [zero]. constructor.
    induction IH as [|[fd ft] fs Hp _ IHfs]; [constructor|].
    constructor; [exact Hp|exact IHfs].
  - repeat constructor.
  - cbn [zero]. constructor; [apply repeat_length|].
    apply Forall_forall. intros y Hy. apply repeat_spec in Hy. now subst.
  - constructor.
  - constructor. pose proof (int_bits_pos k).
    assert (0 < 2 ^ (int_bits k - 1)) by (apply Z.pow_pos_nonneg; lia). lia.
  - constructor. pose proof (uint_bits_pos k).
    assert (0 < 2 ^ uint_bits k) by (apply Z.pow_pos_nonneg; lia). lia.
  - constructor.
  - destruct k; cbn [zero]; constructor; lia.
Qed.

Lemma map_zero_repeat (e : type) (xs : list value) :
  map (fun _ => zero e) xs = repeat (zero e) (length xs).
Proof. induction xs as [|x xs IH]; [reflexivity|]. simpl. now rewrite IH. Qed.

Section RoundTripInto.

Variable mapKeys : list value -> list value.
Variable can_alloc : type -> Z -> bool.
Hypothesis mapKeys_ok : lists_the_keys mapKeys.

(** [v.Grow(n)] on a cleared slice target gives the cells of
    [cells_after_SetLen], and possibly more after them. *)
Lemma Grow_cells e fd (y0 : value) (n : nat) :
  CanSet fd = true ->
  Z.of_nat (length (Elems y0) + n) < 2 ^ 63 ->
  ((length (Elems y0) + n <=? length (Elems y0) + length (Spare y0))%nat
   || can_alloc e (Z.of_nat (length (Elems y0) + n))) = true ->
  exists cells,
    Grow can_alloc e fd (map (fun _ => zero e) (Elems y0)) (Spare y0) (Z.of_nat n)
    = Ok cells
    /\ firstn n cells = cells_after_SetLen e y0 n
    /\ length (cells_after_SetLen e y0 n) = n.
Proof.
  intros Hfd Hlt Hal. unfold Grow, cells_after_SetLen. rewrite Hfd. cbn [negb].
  rewrite map_zero_repeat, repeat_length.
  set (len0 := length (Elems y0)) in *. set (sp := Spare y0) in *.
  replace (Z.of_nat n <? 0) with false by (symmetry; apply Z.ltb_ge; lia).
  replace (2 ^ 63 <=? Z.of_nat len0 + Z.of_nat n) with false
    by (symmetry; apply Z.leb_gt; lia).
  destruct (Z.of_nat len0 + Z.of_nat (length sp) <? Z.of_nat len0 + Z.of_nat n) eqn:Ec.
  - apply Z.ltb_lt in Ec.
    replace (len0 + n <=? len0 + length sp)%nat with false in Hal
      by (symmetry; apply Nat.leb_gt; lia).
    cbn [orb] in Hal. rewrite <- Nat2Z.inj_add, Hal.
    replace (Z.to_nat (Z.of_nat (len0 + n) - (Z.of_nat len0 + Z.of_nat (length sp))))
      with (len0 + n - (len0 + length sp))%nat by lia.
    eexists. split; [reflexivity|]. split; [reflexivity|].
    rewrite length_firstn, !length_app, !repeat_length. lia.
  - apply Z.ltb_ge in Ec.
    replace (len0 + n - (len0 + length sp))%nat with 0%nat by lia.
    cbn [repeat]. rewrite app_nil_r.
    eexists. split; [reflexivity|]. split; [reflexivity|].
    rewrite length_firstn, !length_app, !repeat_length. lia.
Qed.

Lemma cells_after_SetLen_typed e y0 n :
  Forall (has_type e) (Spare y0) ->
  Forall (has_type e) (cells_after_SetLen e y0 n).
Proof.
  intros Hsp. unfold cells_after_SetLen.
  apply Forall_forall. intros c Hc.
  match type of Hc with
  | In c (firstn ?n ?l) =>
      assert (Hc' : In c l)
        by (rewrite <- (firstn_skipn n l); apply in_or_app; now left)
  end.
  clear Hc. rename Hc' into Hc.
  apply in_app_or in Hc. destruct Hc as [Hc|Hc].
  - apply repeat_spec in Hc. subst. apply has_type_zero.
  - apply in_app_or in Hc. destruct Hc as [Hc|Hc].
    + rewrite Forall_forall in Hsp. now apply Hsp.
    + apply repeat_spec in Hc. subst. apply has_type_zero.
Qed.

Lemma round_trip_elems_into e fe fd :
  round_trips_into mapKeys can_alloc e ->
  CanInterface fe = true -> CanSet fd = true ->
  forall xs ts,
    Forall (has_type e) xs -> Forall (has_type e) ts ->
    length xs = length ts ->
    forallb2 (allocatable_into can_alloc e) xs ts = true ->
    exists b ys,
      encode_elems mapKeys e fe xs [] = Ok b
      /\ (forall rest,
             decode_elems can_alloc e fd ts (b ++ rest) = (ys, rest, Ok tt))
      /\ Forall2 (same_fields e) xs ys.
Proof.
  intros He Hfe Hfd xs ts Hxs. revert ts.
  induction Hxs as [|x xs Hx _ IH]; intros ts Hts Hlen Ha.
  - destruct ts; [|discriminate Hlen]. exists [], []. repeat split. constructor.
  - destruct ts as [|t0 ts]; [discriminate Hlen|].
    inversion Hts as [|t0' ts' Ht0 Hts']; subst.
    cbn [forallb2] in Ha. apply andb_prop in Ha. destruct Ha as [Hax Haxs].
    injection Hlen as Hlen.
    destruct (He x t0 fe fd Hx Ht0 Hax Hfe Hfd) as (b1 & y & E1 & D1 & S1).
    destruct (IH ts Hts' Hlen Haxs) as (b2 & ys & E2 & D2 & S2).
    exists (b1 ++ b2), (y :: ys). split; [|split].
    + cbn [encode_elems]. rewrite E1, encode_elems_buf, E2. reflexivity.
    + intros rest. cbn [decode_elems]. rewrite <- app_assoc, D1, D2. reflexivity.
    + now constructor.
Qed.

Lemma round_trip_fields_into fe fd :
  CanInterface fe = true -> CanSet fd = true ->
  forall fs,
    Forall (fun p => round_trip_shape (snd p) = true ->
                     round_trips_into mapKeys can_alloc (snd p)) fs ->
    round_trip_shape (TStruct fs) = true ->
    forall xs ts,
      Forall2 (fun p x => has_type (snd p) x) fs xs ->
      Forall2 (fun p x => has_type (snd p) x) fs ts ->
      allocatable_into can_alloc (TStruct fs) (VStruct xs) (VStruct ts) = true ->
      exists b ys,
        encode_fields mapKeys fe fs xs [] = Ok b
        /\ (forall rest,
               decode_fields can_alloc fd fs ts (b ++ rest) = (ys, rest, Ok tt))
        /\ Forall2 (fun p y => fexported (fst (fst p)) = true ->
                               same_fields (snd (fst p)) (snd p) y)
                   (combine fs xs) ys.
Proof.
  intros Hfe Hfd fs IH. cbn [round_trip_shape allocatable_into Fields].
  induction IH as [|[fld ft] fs Hft _ IHfs]; intros Hs xs ts Hxs Hts Ha.
  - inversion Hxs; inversion Hts; subst. exists [], []. repeat split. constructor.
  - inversion Hxs as [|p x fs' xs' Hx Hxs']; subst.
    inversion Hts as [|p t0 fs' ts' Ht0 Hts']; subst.
    apply andb_prop in Hs. destruct Hs as [Hs1 Hs2].
    apply andb_prop in Ha. destruct Ha as [Ha1 Ha2].
    destruct (IHfs Hs2 xs' ts' Hxs' Hts' Ha2) as (b2 & ys & E2 & D2 & S2).
    cbn [fst snd] in *.
    destruct (fexported fld) eqn:Hexp; cbn [negb orb] in Hs1, Ha1.
    + destruct (Field_flags_exported fe fld Hexp) as [Hi _].
      destruct (Field_flags_exported fd fld Hexp) as [Hi' Hset'].
      assert (Hfd' : CanInterface fd = true).
      { apply CanSet_flags in Hfd. unfold CanInterface. now rewrite (proj2 Hfd). }
      destruct (Hft Hs1 x t0 (Field_flags fe fld) (Field_flags fd fld) Hx Ht0 Ha1
                  (Hi Hfe) (Hset' Hfd)) as (b1 & y & E1 & D1 & S1).
      exists (b1 ++ b2), (y :: ys). split; [|split].
      * cbn [encode_fields]. rewrite (Hi Hfe). cbn [negb].
        rewrite E1, encode_fields_buf, E2. reflexivity.
      * intros rest. cbn [decode_fields]. rewrite (Hi' Hfd'). cbn [negb].
        rewrite <- app_assoc, D1, D2. reflexivity.
      * cbn [combine]. constructor; [intros _; exact S1|exact S2].
    + exists b2, (t0 :: ys). split; [|split].
      * cbn [encode_fields]. rewrite (Field_flags_unexported fe fld Hexp). exact E2.
      * intros rest. cbn [decode_fields].
        rewrite (Field_flags_unexported fd fld Hexp). cbn [negb].
        rewrite D2. reflexivity.
      * cbn [combine]. constructor; [|exact S2].
        cbn [fst snd]. intros H. rewrite Hexp in H. discriminate H.
Qed.

Lemma round_trip_into_all t :
  round_trip_shape t = true -> round_trips_into mapKeys can_alloc t.
Proof.
  induction t as [|fs IH|e IH|n e IH|kt et IHk IHe|k|k|e _|k named] using type_induction;
    intros Hs; try discriminate Hs.
  - intros x y0 fe fd Hx Hy0 Ha Hfe Hfd.
    inversion Hx as [s Hlen| | | | | | | | | | | | | | | |]; subst.
    cbn [allocatable_into String_] in Ha.
    exists (PutUint64 (to_uint64 (Z.of_nat (length s))) ++ s), (VString s).
    split; [reflexivity|]. split; [|constructor].
    intros rest. cbn [decodeValue]. rewrite Hfd. cbn [negb].
    rewrite <- app_assoc, ReadFull_PutUint64. cbv iota beta zeta.
    rewrite Uint64_PutUint64_exact.
    unfold to_uint64, wrap_unsigned. rewrite Z.mod_mod by lia.
    rewrite Z.mod_small by lia.
    unfold make_bytes_ok. rewrite Ha.
    replace (Z.of_nat (length s) <? 2 ^ 63) with true
      by (symmetry; apply Z.ltb_lt; lia).
    cbn [andb negb]. rewrite ReadFull_app. reflexivity.
  - intros x y0 fe fd Hx Hy0 Ha Hfe Hfd.
    inversion Hx as [|fs' xs Hxs| | | | | | | | | | | | | | |]; subst.
    inversion Hy0 as [|fs' ts Hts| | | | | | | | | | | | | | |]; subst.
    destruct (@round_trip_fields_into fe fd Hfe Hfd fs IH Hs xs ts Hxs Hts Ha)
      as (b & ys & E & D & S).
    exists b, (VStruct ys). split; [|split].
    + rewrite encodeValue_struct_eq. exact E.
    + intros rest. rewrite decodeValue_struct_eq. cbn [Fields]. rewrite D. reflexivity.
    + constructor. exact S.
  - intros x y0 fe fd Hx Hy0 Ha Hfe Hfd. cbn [round_trip_shape] in Hs.
    destruct (has_type_slice Hx) as (Hxs & _ & Hlen).
    destruct (has_type_slice Hy0) as (_ & Hsp0 & _).
    cbn [allocatable_into] in Ha.
    apply andb_prop in Ha. destruct Ha as [Ha Hcells].
    apply andb_prop in Ha. destruct Ha as [Hlt Hal]. apply Z.ltb_lt in Hlt.
    destruct (Index_flags_ok fe) as [Hife _]. destruct (Hife Hfe) as (Hfe' & _).
    destruct (Index_flags_ok fd) as [_ Hifd]. destruct (Hifd Hfd) as (Hfd' & _).
    destruct (@Grow_cells e fd y0 (length (Elems x)) Hfd Hlt Hal)
      as (cells & EG & Ecells & Lcells).
    destruct (@round_trip_elems_into e (SliceIndex_flags fe) (SliceIndex_flags fd)
                (IH Hs) Hfe' Hfd' (Elems x)
                (cells_after_SetLen e y0 (length (Elems x)))
                Hxs (@cells_after_SetLen_typed e y0 (length (Elems x)) Hsp0)
                (eq_sym Lcells) Hcells) as (b & ys & E & D & S).
    exists (PutUint64 (to_uint64 (Z.of_nat (length (Elems x)))) ++ b),
           (with_cells y0 ys (skipn (length (Elems x)) cells)).
    split; [|split].
    + rewrite encodeValue_slice_eq.
      rewrite encode_elems_buf, E. reflexivity.
    + intros rest. rewrite decodeValue_slice_eq.
      rewrite <- app_assoc, ReadFull_PutUint64. cbv iota beta zeta.
      rewrite Uint64_PutUint64_exact.
      assert (Hn : Z.of_nat (length (Elems x)) < 2 ^ 63) by lia.
      unfold to_uint64, wrap_unsigned. rewrite Z.mod_mod by lia.
      rewrite Z.mod_small by lia.
      unfold to_int. rewrite wrap_signed_small by lia.
      rewrite EG, Nat2Z.id, Ecells, D. reflexivity.
    + now apply same_fields_slice.
  - intros x y0 fe fd Hx Hy0 Ha Hfe Hfd. cbn [round_trip_shape] in Hs.
    inversion Hx as [| | |n' e' xs Hlen Hxs| | | | | | | | | | | | |]; subst.
    inversion Hy0 as [| | |n' e' ts Hlen0 Hts| | | | | | | | | | | | |]; subst.
    cbn [allocatable_into Elems] in Ha.
    destruct (Index_flags_ok fe) as [Hife _]. destruct (Hife Hfe) as (_ & Hfe' & _).
    destruct (Index_flags_ok fd) as [_ Hifd]. destruct (Hifd Hfd) as (_ & Hfd').
    destruct (@round_trip_elems_into e (ArrayIndex_flags fe) (ArrayIndex_flags fd)
                (IH Hs) Hfe' Hfd' xs ts Hxs Hts (eq_sym Hlen0) Ha)
      as (b & ys & E & D & S).
    exists b, (VArray ys). split; [|split].
    + rewrite encodeValue_array_eq. exact E.
    + intros rest. rewrite decodeValue_array_eq. cbn [Elems]. rewrite D. reflexivity.
    + constructor. exact S.
  - intros x y0 fe fd Hx Hy0 Ha Hfe Hfd. cbn [round_trip_shape] in Hs.
    apply andb_prop in Hs. destruct Hs as [Hplain Hse].
    cbn [allocatable_into] in Ha.
    destruct (has_type_map Hy0) as ([m0 ->] & _).
    apply (@round_trip_map mapKeys can_alloc mapKeys_ok kt et fe fd x m0
             Hplain Hse Hx Ha Hfe).
    + apply CanSet_flags in Hfd. apply Hfd.
    + rewrite Hfd. apply andb_false_r.
  - intros x y0 fe fd Hx Hy0 _ Hfe Hfd.
    destruct (@round_trip_int mapKeys can_alloc k x fe fd Hx eq_refl Hfe Hfd)
      as (b & y & E & D & S).
    exists b, y. split; [exact E|]. split; [|exact S].
    intros rest. specialize (D rest). cbn [decodeValue zero] in *.
    rewrite Hfd in *. cbn [negb] in *.
    destruct (ReadFull (b ++ rest) 8) as [[l r1] [err|]]; [discriminate D|exact D].
  - intros x y0 fe fd Hx Hy0 _ Hfe Hfd.
    destruct (@round_trip_uint mapKeys can_alloc k x fe fd Hx eq_refl Hfe Hfd)
      as (b & y & E & D & S).
    exists b, y. split; [exact E|]. split; [|exact S].
    intros rest. specialize (D rest). cbn [decodeValue zero] in *.
    rewrite Hfd in *. cbn [negb] in *.
    destruct (ReadFull (b ++ rest) 8) as [[l r1] [err|]]; [discriminate D|exact D].
Qed.

End RoundTripInto.

(** X19. The round trip does not need a zeroed target. For the shapes of
    the round trip, take a well-typed target whose strings, integers, array
    elements and unexported fields hold anything, whose slices are without
    cells and whose maps are nil, so that no two parts of it share storage.
    Decoding the encoding of a value through a pointer to it succeeds and
    leaves a value equal to the encoded one field for field, provided the
    runtime grants the allocations needed. *)
Theorem round_trip_into_reused_target (mapKeys : list value -> list value)
    (can_alloc : type -> Z -> bool) (t : type) (x y0 : value) (a : Z) :
  lists_the_keys mapKeys ->
  round_trip_shape t = true ->
  has_type t x -> has_type t y0 ->
  without_storage t y0 = true ->
  allocatable_into can_alloc t x y0 = true ->
  exists b y,
    Encode mapKeys (Some (t, x)) = Ok b
    /\ Decode can_alloc b (Some (TPointer t, VPointer (Some (a, y0))))
       = (Some (TPointer t, VPointer (Some (a, y))), Ok tt)
    /\ same_fields t x y.
Proof.
  intros Hkeys Hs Hx Hy0 _ Ha.
  destruct (@round_trip_into_all mapKeys can_alloc Hkeys t Hs x y0 ValueOf_flags
              New_Elem_flags Hx Hy0 Ha eq_refl eq_refl) as (b & y & E & D & S).
  exists b, y. split; [exact E|]. split; [|exact S].
  unfold Decode, ValueOf, DecodeValue. cbn [typ flags val decodeValue].
  specialize (D []). rewrite app_nil_r in D.
  change (Elem_flags ValueOf_flags) with New_Elem_flags. rewrite D. reflexivity.
Qed.

Lemma round_trip_into_reused_target_witness :
  let mapKeys := @rev value in
  let can_alloc := fun (_ : type) n => n <=? 2 ^ 48 in
  let t := TStruct [(mkField "L" true false, TSlice (TInt KInt16));
                    (mkField "m" false false, TSlice (TInt KInt));
                    (mkField "A" true false, TArray 2 TString);
                    (mkField "M" true false, TMap TString (TUint KUint8))] in
  let x := VStruct [VSlice [VInt 1; VInt 2; VInt 3] [];
                    VSlice [VInt 5] [];
                    VArray [VString [x61]; VString []];
                    VMap (Some [(VString [x61], VUint 1)])] in
  let y0 := VStruct [VNilSlice;
                     VSlice [VInt 6] [VInt 7];
                     VArray [VString [x7a; x7a]; VString [x79]];
                     VMap None] in
  exists b y,
    Encode mapKeys (Some (t, x)) = Ok b
    /\ Decode can_alloc b (Some (TPointer t, VPointer (Some (1, y0))))
       = (Some (TPointer t, VPointer (Some (1, y))), Ok tt)
    /\ same_fields t x y.
Proof.
  intros mapKeys can_alloc t x y0.
  apply (@round_trip_into_reused_target mapKeys can_alloc t x y0 1).
  - intros ks. apply Permutation_sym, Permutation_rev.
  - reflexivity.
  - unfold t, x. repeat constructor; simpl; lia.
  - unfold t, y0. repeat constructor; simpl; lia.
  - reflexivity.
  - reflexivity.
Defined.

(** ** Pointers given to the encoder *)

Lemma le_value_inj (l1 l2 : list byte) :
  length l1 = length l2 -> le_value l1 = le_value l2 -> l1 = l2.
Proof.
  intros Hl Hv. rewrite <- (le_bytes_le_value l1), <- (le_bytes_le_value l2).
  now rewrite Hl, Hv.
Qed.

(** X20. The encoder does not dereference: a pointer is handed to
    binary.Write, which writes the integer it points to in its native
    width, not in 8 bytes. So a pointer to an int64 encodes as the int64
    itself does, a pointer to an int8, int16 or int32 encodes to 1, 2 or 4
    bytes, and a pointer to an int makes Encode fail. A nil pointer to an
    int makes Encode fail too, with the same error; a nil pointer to a
    predeclared int8, int16, int32 or int64 makes it panic, since the fast
    path of binary.Write dereferences it. *)
Theorem Encode_pointer_to_integer (mapKeys : list value -> list value)
    (k : int_kind) (n a : Z) :
  - 2 ^ (int_bits k - 1) <= n < 2 ^ (int_bits k - 1) ->
  let res := Encode mapKeys (Some (TPointer (TInt k), VPointer (Some (a, VInt n)))) in
  let res_nil := Encode mapKeys (Some (TPointer (TInt k), VPointer None)) in
  (k = KInt -> res = Err ErrBinaryWrite)
  /\ (k <> KInt ->
      exists b, res = Ok b
                /\ Z.of_nat (length b) = int_bits k / 8
                /\ le_value b = n mod 2 ^ int_bits k)
  /\ (k = KInt64 -> res = Encode mapKeys (Some (TInt KInt64, VInt n)))
  /\ (k = KInt -> res_nil = Err ErrBinaryWrite)
  /\ (k <> KInt -> res_nil = Panic PanicNilDereference).
Proof.
  intros Hn res res_nil. unfold res, res_nil, Encode, ValueOf, EncodeValue.
  cbn [typ flags val encodeValue]. change (CanInterface ValueOf_flags) with true.
  cbv iota. unfold binary_Write, reflect_Write. cbn [fast_path Indirect dataSize].
  pose proof (int_bits_pos k) as Hk.
  split; [intros ->; reflexivity|].
  split; [|split; [|split; [intros ->; reflexivity|]]].
  - intros Hne. destruct k; try contradiction; cbn [fast_value binary_value Int];
      simpl in Hn; rewrite wrap_signed_small by (simpl; lia);
      eexists; (split; [reflexivity|]);
      rewrite length_le_bytes, le_value_le_bytes; split; reflexivity.
  - intros ->. cbn [fast_value binary_value Int]. simpl in Hn.
    rewrite !wrap_signed_small by (simpl; lia).
    f_equal. apply le_value_inj.
    + unfold PutUint64. now rewrite !length_le_bytes.
    + unfold PutUint64, to_uint64, wrap_unsigned.
      rewrite !le_value_le_bytes. change (int_bits KInt64 / 8) with 8.
      change (8 * Z.of_nat (Z.to_nat 8)) with 64. change (8 * Z.of_nat 8) with 64.
      now rewrite Z.mod_mod by lia.
  - intros Hne. destruct k; try contradiction; reflexivity.
Qed.

Lemma Encode_pointer_to_integer_witness :
  let res := Encode (fun ks => ks)
               (Some (TPointer (TInt KInt32), VPointer (Some (1, VInt 7)))) in
  let res_nil := Encode (fun ks => ks)
                   (Some (TPointer (TInt KInt32), VPointer None)) in
  (KInt32 = KInt -> res = Err ErrBinaryWrite)
  /\ (KInt32 <> KInt ->
      exists b, res = Ok b
                /\ Z.of_nat (length b) = int_bits KInt32 / 8
                /\ le_value b = 7 mod 2 ^ int_bits KInt32)
  /\ (KInt32 = KInt64 -> res = Encode (fun ks => ks) (Some (TInt KInt64, VInt 7)))
  /\ (KInt32 = KInt -> res_nil = Err ErrBinaryWrite)
  /\ (KInt32 <> KInt -> res_nil = Panic PanicNilDereference).
Proof.
  apply (@Encode_pointer_to_integer (fun ks => ks) KInt32 7 1). simpl. lia.
Defined.

(** ** Counts *)

Section Counts.

Variable can_alloc : type -> Z -> bool.

Lemma decode_elems_length e f xs r :
  length (fst (fst (decode_elems can_alloc e f xs r))) = length xs.
Proof.
  revert r. induction xs as [|y xs IH]; intros r; [reflexivity|].
  cbn [decode_elems].
  destruct (decodeValue can_alloc e f y r) as [[y' r1] [[]|err|p]]; try reflexivity.
  specialize (IH r1).
  destruct (decode_elems can_alloc e f xs r1) as [[ys r'] res].
  cbn [fst length] in *. now rewrite IH.
Qed.

Lemma Grow_length e f es sp n cells :
  Grow can_alloc e f es sp n = Ok cells ->
  0 <= n < 2 ^ 63 /\ Z.of_nat (length es) + n <= Z.of_nat (length cells).
Proof.
  unfold Grow. destruct (negb (CanSet f)); [discriminate|].
  destruct (n <? 0) eqn:E0; [discriminate|]. apply Z.ltb_ge in E0.
  destruct (2 ^ 63 <=? Z.of_nat (length es) + n) eqn:E1; [discriminate|].
  apply Z.leb_gt in E1.
  destruct (Z.of_nat (length es) + Z.of_nat (length sp) <? Z.of_nat (length es) + n)
    eqn:E2.
  - destruct (can_alloc e (Z.of_nat (length es) + n)); [|discriminate].
    intros H. injection H as <-. rewrite !length_app, repeat_length.
    apply Z.ltb_lt in E2. lia.
  - intros H. injection H as <-. rewrite length_app. apply Z.ltb_ge in E2. lia.
Qed.

Lemma SetMapIndex_length kt es k v :
  (length (SetMapIndex kt es k v) <= S (length es))%nat.
Proof.
  induction es as [|[k0 v0] es IH]; cbn [SetMapIndex length]; [lia|].
  destruct (go_eqb kt k0 k); cbn [length]; lia.
Qed.

Lemma decode_pairs_length kt et f n :
  forall es r,
    (length (fst (fst (decode_pairs can_alloc kt et f n es r))) <= length es + n)%nat.
Proof.
  induction n as [|n IH]; intros es r; cbn [decode_pairs fst]; [lia|].
  destruct (decodeValue can_alloc kt New_Elem_flags (zero kt) r)
    as [[key r1] [[]|err|p]]; cbn [fst]; try lia.
  destruct (decodeValue can_alloc et New_Elem_flags (zero et) r1)
    as [[v r2] [[]|err|p]]; cbn [fst]; try lia.
  destruct (ro f); cbn [fst]; [lia|].
  specialize (IH (SetMapIndex kt es key v) r2).
  pose proof (SetMapIndex_length kt es key v). lia.
Qed.

End Counts.

Lemma ReadFull_8_head (r r1 : reader) (l : list byte) :
  ReadFull r 8 = (l, r1, None) -> Uint64 l = Uint64 r.
Proof.
  intros H. destruct (Z_lt_ge_dec (Z.of_nat (length r)) 8) as [Hlt|Hge].
  - destruct (@ReadFull_short r 8 Hlt) as (l' & e & E & _).
    rewrite E in H. discriminate H.
  - rewrite (@ReadFull_enough r 8) in H by lia.
    pose proof (f_equal (fun p => fst (fst p)) H) as Hl. cbn [fst] in Hl.
    rewrite <- Hl. unfold Uint64. change (Z.to_nat 8) with 8%nat.
    now rewrite firstn_firstn.
Qed.

(** X21. When decoding into a slice succeeds, the slice has exactly as many
    elements as the 8-byte count at the head of the input says. *)
Theorem DecodeValue_slice_count (can_alloc : type -> Z -> bool) (r r' : reader)
    (e : type) (f : flag) (x y : value) :
  decodeValue can_alloc (TSlice e) f x r = (y, r', Ok tt) ->
  Z.of_nat (length (Elems y)) = Uint64 r.
Proof.
  rewrite decodeValue_slice_eq.
  destruct (ReadFull r 8) as [[l r1] [err|]] eqn:ER; [discriminate|].
  pose proof (ReadFull_8_head r ER) as El.
  cbv zeta.
  destruct (Grow can_alloc e f (map (fun _ => zero e) (Elems x)) (Spare x)
              (to_int (Uint64 l))) as [cells|err|p] eqn:EG; try discriminate.
  pose proof (decode_elems_length can_alloc e (SliceIndex_flags f)
                (firstn (Z.to_nat (to_int (Uint64 l))) cells) r1) as HL.
  destruct (decode_elems can_alloc e (SliceIndex_flags f)
              (firstn (Z.to_nat (to_int (Uint64 l))) cells) r1) as [[ys r2] res].
  intros H. injection H as <- _ _. rewrite Elems_with_cells. cbn [fst] in *.
  apply Grow_length in EG. destruct EG as [Hn Hc].
  rewrite HL, length_firstn.
  assert (Hu : to_int (Uint64 l) = Uint64 l).
  { pose proof (Uint64_range l) as Hr. unfold to_int, wrap_signed in *.
    change (64 - 1) with 63 in *.
    destruct (Z_lt_ge_dec (Uint64 l) (2 ^ 63)) as [Hlt|Hge].
    - rewrite Z.mod_small by lia. lia.
    - replace (Uint64 l + 2 ^ 63) with ((Uint64 l - 2 ^ 63) + 1 * 2 ^ 64) in Hn by lia.
      rewrite Z.mod_add in Hn by lia. rewrite Z.mod_small in Hn by lia. lia. }
  rewrite Hu in *. rewrite <- El.
  assert (Z.to_nat (Uint64 l) <= length cells)%nat by lia.
  rewrite Nat.min_l by assumption. lia.
Qed.

Lemma DecodeValue_slice_count_witness :
  Z.of_nat (length (Elems (VSlice [VUint 7; VUint 9] [VUint 3])))
  = Uint64 [x02; x00; x00; x00; x00; x00; x00; x00;
            x07; x00; x00; x00; x00; x00; x00; x00;
            x09; x00; x00; x00; x00; x00; x00; x00; x2a].
Proof.
  apply (@DecodeValue_slice_count (fun _ n => n <=? 2 ^ 48)
           [x02; x00; x00; x00; x00; x00; x00; x00;
            x07; x00; x00; x00; x00; x00; x00; x00;
            x09; x00; x00; x00; x00; x00; x00; x00; x2a]
           [x2a] (TUint KUint8) New_Elem_flags
           (VSlice [VUint 1] [VUint 2; VUint 3])
           (VSlice [VUint 7; VUint 9] [VUint 3])).
  vm_compute. reflexivity.
Defined.

(** X22. When decoding into a map succeeds, the map has at most as many
    entries as the count at the head of the input says. *)
Theorem DecodeValue_map_count (can_alloc : type -> Z -> bool) (r r' : reader)
    (kt et : type) (f : flag) (x y : value) :
  decodeValue can_alloc (TMap kt et) f x r = (y, r', Ok tt) ->
  Z.of_nat (length (Entries y)) <= Uint64 r.
Proof.
  rewrite decodeValue_map_eq.
  destruct (ReadFull r 8) as [[l r1] [err|]] eqn:ER; [discriminate|].
  pose proof (ReadFull_8_head r ER) as El.
  destruct (IsNil x && negb (CanSet f)); [discriminate|].
  pose proof (decode_pairs_length can_alloc kt et f (Z.to_nat (Uint64 l)) [] r1) as HL.
  destruct (decode_pairs can_alloc kt et f (Z.to_nat (Uint64 l)) [] r1)
    as [[es r2] res].
  intros H. injection H as <- _ _. cbn [Entries fst length] in *.
  pose proof (Uint64_range l). lia.
Qed.

Lemma DecodeValue_map_count_witness :
  Z.of_nat (length (Entries (VMap (Some [(VUint 7, VUint 9)]))))
  <= Uint64 [x02; x00; x00; x00; x00; x00; x00; x00;
             x07; x00; x00; x00; x00; x00; x00; x00;
             x08; x00; x00; x00; x00; x00; x00; x00;
             x07; x00; x00; x00; x00; x00; x00; x00;
             x09; x00; x00; x00; x00; x00; x00; x00].
Proof.
  apply (@DecodeValue_map_count (fun _ n => n <=? 2 ^ 48)
           [x02; x00; x00; x00; x00; x00; x00; x00;
            x07; x00; x00; x00; x00; x00; x00; x00;
            x08; x00; x00; x00; x00; x00; x00; x00;
            x07; x00; x00; x00; x00; x00; x00; x00;
            x09; x00; x00; x00; x00; x00; x00; x00]
           [] (TUint KUint8) (TUint KUint8) New_Elem_flags
           (VMap None) (VMap (Some [(VUint 7, VUint 9)]))).
  vm_compute. reflexivity.
Defined.
